(** * ConditionsStore: a shallow embedding of [source/ConditionsStore.cpp]

  The store keeps two [std::map]s: [storage], the sorted index from
  condition names to entries, and [providers], the registry of derived
  providers.  Entries refer to providers through raw pointers into the
  registry; the registry is node-stable and keyed by the provider's
  name, so a pointer is modelled by the key of the node it points to. *)

From Stdlib Require Import ZArith String Ascii List Bool Lia OrderedTypeEx.
From stdpp Require Import base option gmap strings pretty.
From Equations Require Import Equations.
From Equations.Prop Require Import Logic.
Import ListNotations.

Local Open Scope Z_scope.
Local Open Scope string_scope.

(** ** [std::string] comparisons *)

Module StdString.

(** [a.compare(b)]: lexicographic on unsigned characters, a proper
    prefix sorting first. *)
Definition compare (a b : string) : comparison := String.compare a b.

(** [a.compare(pos, len, b)]: compares [a.substr(pos, len)] with [b];
    [substr] truncates at the end of [a]. *)
Definition compare_sub (a : string) (pos len : nat) (b : string) : comparison :=
  String.compare (String.substring pos len a) b.

(** [std::less<std::string>], the ordering of both maps. *)
Definition less (a b : string) : bool :=
  match compare a b with Lt => true | _ => false end.

(** [!x] on the [int] a comparison returns. *)
Definition is_zero (c : comparison) : bool :=
  match c with Eq => true | _ => false end.

(** [a] textually starts with [p]. *)
Definition starts_with (p a : string) : bool := String.prefix p a.

End StdString.

(** ** [std::map<std::string, V>] as its in-order sequence *)

Module StdMap.
Section Map.
Context {V : Type}.
Variable dflt : V.

Definition t := list (string * V).

(** A bidirectional iterator is a position in the in-order sequence:
    the nodes already passed (nearest first) and the nodes from the
    current one on.  [rest = []] is the past-the-end position. *)
Record iterator := Iterator { passed : t; rest : t }.

Definition begin_ (m : t) : iterator := Iterator [] m.
Definition end_ (m : t) : iterator := Iterator (rev m) [].

(** [it++] and [--it]. *)
Definition incr (it : iterator) : iterator :=
  match rest it with
  | [] => it
  | x :: r => Iterator (x :: passed it) r
  end.
Definition decr (it : iterator) : iterator :=
  match passed it with
  | [] => it
  | x :: p => Iterator p (x :: rest it)
  end.

(** [*it]; [None] at the past-the-end position. *)
Definition deref (it : iterator) : option (string * V) := hd_error (rest it).

(** [a == b] for two iterators into the same map: same position. *)
Definition iter_eqb (a b : iterator) : bool :=
  Nat.eqb (List.length (rest a)) (List.length (rest b)).

(** Walk forward to the first node whose key satisfies [stop]. *)
Fixpoint seek (stop : string -> bool) (acc m : t) : iterator :=
  match m with
  | [] => Iterator acc []
  | (k, v) :: r => if stop k then Iterator acc m else seek stop ((k, v) :: acc) r
  end.

(** [m.upper_bound(key)]: the first node whose key is greater than [key]. *)
Definition upper_bound (key : string) (m : t) : iterator :=
  seek (fun k => StdString.less key k) [] m.

(** [m.lower_bound(key)]: the first node whose key is not less than [key]. *)
Definition lower_bound (key : string) (m : t) : iterator :=
  seek (fun k => negb (StdString.less k key)) [] m.

Definition empty (m : t) : bool := match m with [] => true | _ => false end.

(** [m.find(key)], as the node's mapped value when found. *)
Fixpoint find (key : string) (m : t) : option V :=
  match m with
  | [] => None
  | (k, v) :: r =>
      match StdString.compare key k with
      | Lt => None
      | Eq => Some v
      | Gt => find key r
      end
  end.

(** [f(m[key])]: [operator[]] inserts a value-initialised node when the
    key is missing; the caller then updates the node through the
    reference it gets. *)
Fixpoint at_key (key : string) (f : V -> V) (m : t) : t :=
  match m with
  | [] => [(key, f dflt)]
  | (k, v) :: r =>
      match StdString.compare key k with
      | Lt => (key, f dflt) :: m
      | Eq => (k, f v) :: r
      | Gt => (k, v) :: at_key key f r
      end
  end.

(** An update through a pointer to the node with key [key]. *)
Fixpoint modify (key : string) (f : V -> V) (m : t) : t :=
  match m with
  | [] => []
  | (k, v) :: r =>
      if String.eqb key k then (k, f v) :: r else (k, v) :: modify key f r
  end.

(** [m.erase(key)]. *)
Fixpoint erase (key : string) (m : t) : t :=
  match m with
  | [] => []
  | (k, v) :: r =>
      match StdString.compare key k with
      | Lt => m
      | Eq => r
      | Gt => (k, v) :: erase key r
      end
  end.

(** The node with the greatest key not above [key], for stating what the
    search of [upper_bound] followed by [--it] finds. *)
Fixpoint floor (key : string) (m : t) : option (string * V) :=
  match m with
  | [] => None
  | (k, v) :: r =>
      if StdString.less key k then None
      else match floor key r with
           | Some x => Some x
           | None => Some (k, v)
           end
  end.

(** The representation invariant of the tree: keys strictly ascending. *)
Fixpoint sorted (m : t) : bool :=
  match m with
  | [] => true
  | (k, _) :: r =>
      match r with
      | [] => true
      | (k', _) :: _ => StdString.less k k' && sorted r
      end
  end.

End Map.
Arguments t : clear implicits.
Arguments iterator : clear implicits.
End StdMap.

(** ** 64-bit signed arithmetic *)

(** [int64_t] values are integers in [-2^63, 2^63); the sum of two of them
    is reduced to that range (two's complement wrap-around). *)
Definition wrap64 (z : Z) : Z := (z + 2 ^ 63) mod 2 ^ 64 - 2 ^ 63.
Definition add64 (a b : Z) : Z := wrap64 (a + b).

(** ** The serialisation collaborators *)

(** Modelled from the spec: [DataNode] and [DataWriter] are not part of
    the sources; the persistence format is "a node sequence where each
    top-level child is either a bare key token (implies value 1) or a key
    token followed by a numeric token (explicit value)".  A token is a
    text or a number. *)
Inductive Token :=
  | Text (s : string)
  | Number (v : Z).

(** Modelled from the spec: a node of the absent [DataNode] class, as its
    tokens and its child nodes. *)
#[warnings="-register-all"]
Inductive DataNode :=
  | Node (tokens : list Token) (children : list DataNode).

Module DataNode.

(** Modelled from the spec: the tokens and the children of a node (the
    range a [for] loop over the node walks). *)
Definition tokens (n : DataNode) : list Token := let 'Node ts _ := n in ts.
Definition children (n : DataNode) : list DataNode := let 'Node _ cs := n in cs.

(** Modelled from the spec: [node.Size()], the number of tokens. *)
Definition Size (n : DataNode) : nat := List.length (tokens n).

(** Modelled from the spec: [node.Token(i)], the text of token [i]. *)
Definition Token (n : DataNode) (i : nat) : string :=
  match nth_error (tokens n) i with
  | Some (Text s) => s
  | Some (Number v) => pretty v
  | None => ""
  end.

(** Modelled from the spec: [node.Value(i)], the number token [i]
    holds; a token that holds none reads as 0. *)
Definition Value (n : DataNode) (i : nat) : Z :=
  match nth_error (tokens n) i with
  | Some (Number v) => v
  | _ => 0
  end.

End DataNode.

(** Modelled from the spec: the absent [DataWriter] class, as the nodes
    it has been asked to write.  [level] holds the nodes written so far
    at the current depth, [outer] the enclosing levels, innermost first;
    the last node of an enclosing level is the parent of the level below
    it. *)
Record DataWriter := {
  level : list DataNode;
  outer : list (list DataNode)
}.

Module DataWriter.

(** Modelled from the spec: a writer that has written nothing. *)
Definition new : DataWriter := {| level := []; outer := [] |}.

(** Modelled from the spec: [out.Write(tokens...)], one node, without
    children so far. *)
Definition Write (ts : list Token) (out : DataWriter) : DataWriter :=
  {| level := level out ++ [Node ts []]; outer := outer out |}.

(** Modelled from the spec: [out.BeginChild()], what follows is written
    one level deeper. *)
Definition BeginChild (out : DataWriter) : DataWriter :=
  {| level := []; outer := level out :: outer out |}.

(** Modelled from the spec: the nodes of a finished level become the
    children of the last node of the level above. *)
Definition adopt (up kids : list DataNode) : list DataNode :=
  match rev up with
  | [] => kids
  | Node ts cs :: r => rev r ++ [Node ts (cs ++ kids)]
  end.

(** Modelled from the spec: [out.EndChild()]. *)
Definition EndChild (out : DataWriter) : DataWriter :=
  match outer out with
  | [] => out
  | up :: o => {| level := adopt up (level out); outer := o |}
  end.

End DataWriter.

(** ** The store *)

Section ConditionsStore.

(** The state of the subsystems that register providers: the callbacks
    are closures over it, and it is all they can read or change. *)
Context {W : Type}.

Record DerivedProvider := {
  name : string;
  isPrefixProvider : bool;
  getFunction : string -> W -> Z * W;
  hasFunction : string -> W -> bool * W;
  setFunction : string -> Z -> W -> bool * W;
  eraseFunction : string -> W -> bool * W
}.

(** The initial contents of the four callback slots are fixed by the
    class declaration, which the sources here do not include; they are
    parameters of the development. *)
Variable getFunction0 : string -> W -> Z * W.
Variable hasFunction0 : string -> W -> bool * W.
Variable setFunction0 : string -> Z -> W -> bool * W.
Variable eraseFunction0 : string -> W -> bool * W.

(** [DerivedProvider::DerivedProvider(name, isPrefixProvider)] *)
Definition DerivedProvider_new (nm : string) (isPrefix : bool) : DerivedProvider :=
  {| name := nm; isPrefixProvider := isPrefix;
     getFunction := getFunction0; hasFunction := hasFunction0;
     setFunction := setFunction0; eraseFunction := eraseFunction0 |}.

(** [provider] is the pointer into the registry ([None] for [nullptr]),
    held as the registry key of the node pointed to. *)
Record ConditionEntry := {
  value : Z;
  provider : option string;
  fullKey : string
}.

(** A value-initialised entry: [value = 0], [provider = nullptr], empty
    [fullKey]. *)
Definition ConditionEntry0 : ConditionEntry :=
  {| value := 0; provider := None; fullKey := "" |}.

Definition set_value (v : Z) (e : ConditionEntry) : ConditionEntry :=
  {| value := v; provider := provider e; fullKey := fullKey e |}.
Definition set_provider (p : option string) (e : ConditionEntry) : ConditionEntry :=
  {| value := value e; provider := p; fullKey := fullKey e |}.
Definition set_fullKey (k : string) (e : ConditionEntry) : ConditionEntry :=
  {| value := value e; provider := provider e; fullKey := k |}.

Record ConditionsStore := {
  storage : StdMap.t ConditionEntry;
  providers : gmap string DerivedProvider
}.

(** A default-constructed store. *)
Definition ConditionsStore0 : ConditionsStore :=
  {| storage := []; providers := ∅ |}.

(** What the model reads through a pointer that points to no provider
    of the registry: a provider that matches nothing.  No entry of a
    well-formed store holds such a pointer ([store_ok] below). *)
Definition no_provider : DerivedProvider :=
  {| name := ""; isPrefixProvider := false;
     getFunction := fun _ w => (0, w); hasFunction := fun _ w => (false, w);
     setFunction := fun _ _ w => (false, w); eraseFunction := fun _ w => (false, w) |}.

(** [*p] for a provider pointer [p]. *)
Definition provider_at (st : ConditionsStore) (p : string) : DerivedProvider :=
  default no_provider (providers st !! p).

(** *** Resolution *)

(** [ConditionsStore::GetEntry]: the entry found, as the key of its
    node and its contents, or [None] for [nullptr]. *)
Definition GetEntry (nm : string) (st : ConditionsStore)
  : option (string * ConditionEntry) :=
  if StdMap.empty (storage st) then None
  else
    let it := StdMap.upper_bound nm (storage st) in
    if StdMap.iter_eqb it (StdMap.begin_ (storage st)) then None
    else
      let it := StdMap.decr it in
      match StdMap.deref it with
      | None => None
      | Some (k, e) =>
          if StdString.is_zero (StdString.compare nm k) then Some (k, e)
          else
            match provider e with
            | Some p =>
                let P := provider_at st p in
                if isPrefixProvider P
                   && StdString.is_zero
                        (StdString.compare_sub nm 0 (String.length (name P)) (name P))
                then Some (k, e)
                else None
            | None => None
            end
      end.

(** *** The member functions, as computations *)

(** A computation runs on the store and on the providers' world.
    [lookups] is a ghost counter of the calls to [GetEntry]; nothing
    reads it. *)
Record State := {
  store : ConditionsStore;
  world : W;
  lookups : nat
}.

Definition M (A : Type) : Type := State -> A * State.

Definition ret {A} (a : A) : M A := fun s => (a, s).
Definition bind {A B} (m : M A) (k : A -> M B) : M B :=
  fun s => let (a, s') := m s in k a s'.

#[global] Instance M_ret : MRet M := @ret.
#[global] Instance M_bind : MBind M := fun A B k m => bind m k.

Definition get_store : M ConditionsStore := fun s => (store s, s).
Definition put_store (st : ConditionsStore) : M unit :=
  fun s => (tt, {| store := st; world := world s; lookups := lookups s |}).
Definition put_storage (m : StdMap.t ConditionEntry) : M unit :=
  fun s => (tt, {| store := {| storage := m; providers := providers (store s) |};
                   world := world s; lookups := lookups s |}).

(** Calling a callback: it acts on the world only. *)
Definition call {A} (f : W -> A * W) : M A :=
  fun s => let (a, w) := f (world s) in
           (a, {| store := store s; world := w; lookups := lookups s |}).

(** A call of [GetEntry]. *)
Definition lookup_entry (nm : string) : M (option (string * ConditionEntry)) :=
  fun s => (GetEntry nm (store s),
            {| store := store s; world := world s; lookups := S (lookups s) |}).

(** [ce->provider->f], for the non-null pointer [p]. *)
Definition deref_provider (p : string) : M DerivedProvider :=
  st ← get_store; ret (provider_at st p).

(** [ConditionsStore::Get] *)
Definition Get (nm : string) : M Z :=
  ce ← lookup_entry nm;
  match ce with
  | None => ret 0
  | Some (_, e) =>
      match provider e with
      | None => ret (value e)
      | Some p => P ← deref_provider p; call (getFunction P nm)
      end
  end.

(** [ConditionsStore::Has] *)
Definition Has (nm : string) : M bool :=
  ce ← lookup_entry nm;
  match ce with
  | None => ret false
  | Some (_, e) =>
      match provider e with
      | None => ret true
      | Some p => P ← deref_provider p; call (hasFunction P nm)
      end
  end.

(** [ConditionsStore::HasGet] *)
Definition HasGet (nm : string) : M (bool * Z) :=
  ce ← lookup_entry nm;
  match ce with
  | None => ret (false, 0)
  | Some (_, e) =>
      match provider e with
      | None => ret (true, value e)
      | Some p =>
          P ← deref_provider p;
          has ← call (hasFunction P nm);
          if has : bool then v ← call (getFunction P nm); ret (has, v)
          else ret (has, 0)
      end
  end.

(** [ConditionsStore::Set] *)
Definition Set_ (nm : string) (v : Z) : M bool :=
  ce ← lookup_entry nm;
  match ce with
  | None =>
      st ← get_store;
      put_storage (StdMap.at_key ConditionEntry0 nm (set_value v) (storage st));;
      ret true
  | Some (k, e) =>
      match provider e with
      | None =>
          st ← get_store;
          put_storage (StdMap.modify k (set_value v) (storage st));;
          ret true
      | Some p => P ← deref_provider p; call (setFunction P nm v)
      end
  end.

(** [ConditionsStore::Add] *)
Definition Add (nm : string) (v : Z) : M bool :=
  g ← Get nm; Set_ nm (add64 g v).

(** The composite call the spec describes for [Add]: first [Get], then
    [Set] of the sum, each on the state the previous call left. *)
Definition Set_of_Get_plus (nm : string) (delta : Z) (s : State) : bool * State :=
  let g := Get nm s in Set_ nm (add64 (fst g) delta) (snd g).

(** [ConditionsStore::Erase] *)
Definition Erase (nm : string) : M bool :=
  ce ← lookup_entry nm;
  match ce with
  | None => ret true
  | Some (_, e) =>
      match provider e with
      | None =>
          st ← get_store;
          put_storage (StdMap.erase nm (storage st));;
          ret true
      | Some p => P ← deref_provider p; call (eraseFunction P nm)
      end
  end.

(** [ConditionsStore::operator[]]: the reference returned is the key of
    the entry referred to. *)
Definition operator_brackets (nm : string) : M string :=
  st ← get_store;
  match StdMap.find nm (storage st) with
  | Some _ => ret nm
  | None =>
      ceprov ← lookup_entry nm;
      match ceprov with
      | None =>
          put_storage (StdMap.at_key ConditionEntry0 nm id (storage st));;
          ret nm
      | Some (_, pe) =>
          put_storage
            (StdMap.at_key ConditionEntry0 nm
               (fun ce => set_fullKey nm (set_provider (provider pe) ce))
               (storage st));;
          ret nm
      end
  end.

(** [providers.emplace(key, P)]: no effect when the key is taken. *)
Definition emplace (key : string) (P : DerivedProvider)
    (m : gmap string DerivedProvider) : gmap string DerivedProvider :=
  match m !! key with
  | Some _ => m
  | None => <[key := P]> m
  end.

(** [ConditionsStore::GetProviderPrefixed]: the reference returned is
    the registry key of the provider. *)
Definition GetProviderPrefixed (prefix : string) : M string :=
  st ← get_store;
  put_store
    {| storage := StdMap.at_key ConditionEntry0 prefix
                    (set_provider (Some prefix)) (storage st);
       providers := emplace prefix (DerivedProvider_new prefix true) (providers st) |};;
  ret prefix.

(** [ConditionsStore::GetProviderNamed] *)
Definition GetProviderNamed (nm : string) : M string :=
  st ← get_store;
  put_store
    {| storage := StdMap.at_key ConditionEntry0 nm
                    (set_provider (Some nm)) (storage st);
       providers := emplace nm (DerivedProvider_new nm false) (providers st) |};;
  ret nm.

(** [ConditionsStore::Clear] *)
Definition Clear : M unit := put_store ConditionsStore0.

(** [DerivedProvider::Set...Function], on the provider referred to by [p]. *)
Definition put_provider (p : string) (f : DerivedProvider -> DerivedProvider) : M unit :=
  st ← get_store;
  put_store {| storage := storage st; providers := alter f p (providers st) |}.

Definition SetGetFunction (p : string) (newGetFun : string -> W -> Z * W) : M unit :=
  put_provider p (fun P =>
    {| name := name P; isPrefixProvider := isPrefixProvider P;
       getFunction := newGetFun; hasFunction := hasFunction P;
       setFunction := setFunction P; eraseFunction := eraseFunction P |}).

Definition SetHasFunction (p : string) (newHasFun : string -> W -> bool * W) : M unit :=
  put_provider p (fun P =>
    {| name := name P; isPrefixProvider := isPrefixProvider P;
       getFunction := getFunction P; hasFunction := newHasFun;
       setFunction := setFunction P; eraseFunction := eraseFunction P |}).

Definition SetSetFunction (p : string) (newSetFun : string -> Z -> W -> bool * W) : M unit :=
  put_provider p (fun P =>
    {| name := name P; isPrefixProvider := isPrefixProvider P;
       getFunction := getFunction P; hasFunction := hasFunction P;
       setFunction := newSetFun; eraseFunction := eraseFunction P |}).

Definition SetEraseFunction (p : string) (newEraseFun : string -> W -> bool * W) : M unit :=
  put_provider p (fun P =>
    {| name := name P; isPrefixProvider := isPrefixProvider P;
       getFunction := getFunction P; hasFunction := hasFunction P;
       setFunction := setFunction P; eraseFunction := newEraseFun |}).

(** [ConditionsStore::Load] *)
Fixpoint Load_children (cs : list DataNode) : M unit :=
  match cs with
  | [] => ret tt
  | child :: r =>
      Set_ (DataNode.Token child 0)
           (if (2 <=? DataNode.Size child)%nat then DataNode.Value child 1 else 1);;
      Load_children r
  end.

Definition Load (node : DataNode) : M unit := Load_children (DataNode.children node).

(** *** The iterator over the primary conditions *)

Definition CondMapItType := StdMap.iterator ConditionEntry.

Record PrimariesIterator := {
  condMapIt : CondMapItType;
  condMapEnd : CondMapItType;
  itVal : string * Z
}.

(** [(condMapIt->second).provider], as the loop condition reads it. *)
Definition has_provider (it : CondMapItType) : bool :=
  match StdMap.deref it with
  | Some (_, e) => bool_decide (is_Some (provider e))
  | None => false
  end.

(** The [while] loop of [MoveToValueCondition]. *)
Equations? skip_derived (endIt it : CondMapItType) : CondMapItType
  by wf (List.length (StdMap.rest it)) lt :=
  skip_derived endIt it
    with inspect (negb (StdMap.iter_eqb it endIt) && has_provider it) := {
    | exist _ true Hc => skip_derived endIt (StdMap.incr it)
    | exist _ false _ => it
    }.
Proof.
  apply andb_prop in Hc as [_ Hc].
  destruct it as [p [| x r]]; simpl in *; [discriminate | lia].
Qed.

(** [PrimariesIterator::MoveToValueCondition] *)
Definition MoveToValueCondition (it : PrimariesIterator) : PrimariesIterator :=
  let pos := skip_derived (condMapEnd it) (condMapIt it) in
  {| condMapIt := pos;
     condMapEnd := condMapEnd it;
     itVal := if negb (StdMap.iter_eqb pos (condMapEnd it)) then
                match StdMap.deref pos with
                | Some (k, e) => (k, value e)
                | None => itVal it
                end
              else itVal it |}.

(** [PrimariesIterator::PrimariesIterator(it, endIt)]; [itVal] starts
    value-initialised. *)
Definition PrimariesIterator_new (it endIt : CondMapItType) : PrimariesIterator :=
  MoveToValueCondition {| condMapIt := it; condMapEnd := endIt; itVal := ("", 0) |}.

(** [operator*] and [operator->]: the pair held in [itVal]. *)
Definition operator_star (it : PrimariesIterator) : string * Z := itVal it.
Definition operator_arrow (it : PrimariesIterator) : string * Z := itVal it.

(** [operator++] *)
Definition operator_incr (it : PrimariesIterator) : PrimariesIterator :=
  MoveToValueCondition
    {| condMapIt := StdMap.incr (condMapIt it);
       condMapEnd := condMapEnd it;
       itVal := itVal it |}.

(** [operator==] and [operator!=] compare the positions only. *)
Definition operator_eq (a b : PrimariesIterator) : bool :=
  StdMap.iter_eqb (condMapIt a) (condMapIt b).
Definition operator_neq (a b : PrimariesIterator) : bool :=
  negb (StdMap.iter_eqb (condMapIt a) (condMapIt b)).

Definition PrimariesBegin (st : ConditionsStore) : PrimariesIterator :=
  PrimariesIterator_new (StdMap.begin_ (storage st)) (StdMap.end_ (storage st)).
Definition PrimariesEnd (st : ConditionsStore) : PrimariesIterator :=
  PrimariesIterator_new (StdMap.end_ (storage st)) (StdMap.end_ (storage st)).
Definition PrimariesLowerBound (key : string) (st : ConditionsStore) : PrimariesIterator :=
  PrimariesIterator_new (StdMap.lower_bound key (storage st)) (StdMap.end_ (storage st)).

(** The loop
    [for(auto it = PrimariesBegin(); it != PrimariesEnd(); ++it) body],
    from the iterator [it] on; the body reads [it->first] and
    [it->second]. *)
Equations? for_primaries {A : Type} (st : ConditionsStore)
    (body : string * Z -> A -> A) (it : PrimariesIterator) (a : A) : A
  by wf (List.length (StdMap.rest (condMapIt it))) lt :=
  for_primaries st body it a with inspect (operator_neq it (PrimariesEnd st)) := {
    | exist _ true Hc =>
        for_primaries st body (operator_incr it) (body (operator_arrow it) a)
    | exist _ false _ => a
    }.
Proof.
  assert (Hlen : forall e i : CondMapItType,
             (List.length (StdMap.rest (skip_derived e i)) <= List.length (StdMap.rest i))%nat).
  { clear. intros e i. funelim (skip_derived e i); [| lia].
    etransitivity; [eassumption |]. destruct it as [p [| x r]]; simpl; lia. }
  unfold operator_neq, StdMap.iter_eqb, PrimariesEnd, PrimariesIterator_new,
    MoveToValueCondition in Hc.
  simpl in Hc. rewrite skip_derived_equation_1 in Hc. simpl in Hc.
  unfold operator_incr, MoveToValueCondition. simpl.
  eapply Nat.le_lt_trans; [apply Hlen |].
  destruct (condMapIt it) as [p [| x r]]; simpl in *; [discriminate | lia].
Qed.

(** [ConditionsStore::Save] *)
Definition Save (st : ConditionsStore) (out : DataWriter) : DataWriter :=
  if operator_neq (PrimariesBegin st) (PrimariesEnd st) then
    let out := DataWriter.Write [Text "conditions"] out in
    let out := DataWriter.BeginChild out in
    let out :=
      for_primaries st
        (fun it out =>
           if Z.eqb (snd it) 1 then DataWriter.Write [Text (fst it)] out
           else if negb (Z.eqb (snd it) 0) then
             DataWriter.Write [Text (fst it); Number (snd it)] out
           else out)
        (PrimariesBegin st) out in
    DataWriter.EndChild out
  else out.

(** What the iteration from [PrimariesBegin()] to [PrimariesEnd()]
    yields, one dereference per round. *)
Definition primaries (st : ConditionsStore) : list (string * Z) :=
  for_primaries st (fun x acc => List.app acc [x]) (PrimariesBegin st) [].

(** The (key, value) pairs of the entries without provider, in the order
    of the index. *)
Definition primary_pairs (m : StdMap.t ConditionEntry) : list (string * Z) :=
  map (fun x => (fst x, value (snd x)))
      (List.filter (fun x => negb (bool_decide (is_Some (provider (snd x))))) m).

(** The node [Save] writes for one pair: a bare key for the value 1, none
    for the value 0, the key and the value otherwise. *)
Definition condition_node (x : string * Z) : list DataNode :=
  if Z.eqb (snd x) 1 then [Node [Text (fst x)] []]
  else if negb (Z.eqb (snd x) 0) then [Node [Text (fst x); Number (snd x)] []]
  else [].

(** Modelled from the spec: the caller that reads a saved file back is not
    part of the sources; it hands each node that [Save] wrote to [Load]. *)
Fixpoint Load_nodes (nodes : list DataNode) : M unit :=
  match nodes with
  | [] => ret tt
  | node :: r => Load node;; Load_nodes r
  end.

(** *** Well-formed stores *)

(** The pointer of an entry with key [k] points into the registry, at a
    provider whose name is [k] or a prefix of [k]. *)
Definition entry_ok (st : ConditionsStore) (x : string * ConditionEntry) : bool :=
  match provider (snd x) with
  | None => true
  | Some p =>
      match providers st !! p with
      | Some P => String.eqb (name P) (fst x) || StdString.starts_with (name P) (fst x)
      | None => false
      end
  end.

Definition provider_invb (st : ConditionsStore) : bool :=
  forallb (entry_ok st) (storage st).

(** Every provider sits in the registry under its own name. *)
Definition registry_namedb (st : ConditionsStore) : bool :=
  forallb (fun x => String.eqb (name (snd x)) (fst x)) (map_to_list (providers st)).

Definition store_ok (st : ConditionsStore) : bool :=
  StdMap.sorted (storage st) && registry_namedb st && provider_invb st.

(** The invariant of the store, spelled out. *)
Definition provider_inv (st : ConditionsStore) : Prop :=
  forall k e p, In (k, e) (storage st) -> provider e = Some p ->
    exists P, providers st !! p = Some P /\
              (name P = k \/ StdString.starts_with (name P) k = true).

(** The index entry at [p] points to the provider registered as [p],
    whose prefix flag is [isPrefix]. *)
Definition registered (p : string) (isPrefix : bool) (st : ConditionsStore) : bool :=
  match StdMap.find p (storage st), providers st !! p with
  | Some e, Some P =>
      bool_decide (provider e = Some p) && String.eqb (name P) p
      && Bool.eqb (isPrefixProvider P) isPrefix
  | _, _ => false
  end.

(** The resolved entry delegates to a provider. *)
Definition provider_backed (ce : option (string * ConditionEntry)) : bool :=
  match ce with
  | Some (_, e) => bool_decide (is_Some (provider e))
  | None => false
  end.

(** Some registered prefix provider has a name that [k] starts with. *)
Definition covered_by_prefix (k : string) (st : ConditionsStore) : bool :=
  existsb (fun x => isPrefixProvider (snd x) && StdString.starts_with (name (snd x)) k)
          (map_to_list (providers st)).

(** No entry of the index carries a provider. *)
Definition only_primaries (st : ConditionsStore) : bool :=
  forallb (fun x => negb (bool_decide (is_Some (provider (snd x))))) (storage st).

(** Every index entry whose key lies strictly between [p] and [nm] is
    routed to the provider [p]. *)
Definition unshadowed (p nm : string) (st : ConditionsStore) : bool :=
  forallb (fun x => if StdString.less p (fst x) && StdString.less (fst x) nm
                    then bool_decide (provider (snd x) = Some p) else true)
          (storage st).

(** The state after one more call of [GetEntry] and nothing else. *)
Definition tick (s : State) : State :=
  {| store := store s; world := world s; lookups := S (lookups s) |}.

(** The entry resolved for [nm] is routed to the provider [p]. *)
Definition routed_to (p : string) (ce : option (string * ConditionEntry)) : bool :=
  match ce with
  | Some (_, e) => bool_decide (provider e = Some p)
  | None => false
  end.

(** The states a program reaches through the interface of the store,
    from a new store; between two calls the registering subsystems may
    change their own state. *)
Inductive reachable : State -> Prop :=
  | reach_new w n : reachable {| store := ConditionsStore0; world := w; lookups := n |}
  | reach_world s w :
      reachable s ->
      reachable {| store := store s; world := w; lookups := lookups s |}
  | reach_Get nm s : reachable s -> reachable (snd (Get nm s))
  | reach_Has nm s : reachable s -> reachable (snd (Has nm s))
  | reach_HasGet nm s : reachable s -> reachable (snd (HasGet nm s))
  | reach_Set nm v s : reachable s -> reachable (snd (Set_ nm v s))
  | reach_Add nm v s : reachable s -> reachable (snd (Add nm v s))
  | reach_Erase nm s : reachable s -> reachable (snd (Erase nm s))
  | reach_brackets nm s : reachable s -> reachable (snd (operator_brackets nm s))
  | reach_Load node s : reachable s -> reachable (snd (Load node s))
  | reach_Prefixed prefix s : reachable s -> reachable (snd (GetProviderPrefixed prefix s))
  | reach_Named nm s : reachable s -> reachable (snd (GetProviderNamed nm s))
  | reach_Clear s : reachable s -> reachable (snd (Clear s))
  | reach_SetGet p f s : reachable s -> reachable (snd (SetGetFunction p f s))
  | reach_SetHas p f s : reachable s -> reachable (snd (SetHasFunction p f s))
  | reach_SetSet p f s : reachable s -> reachable (snd (SetSetFunction p f s))
  | reach_SetErase p f s : reachable s -> reachable (snd (SetEraseFunction p f s)).

End ConditionsStore.



Arguments DerivedProvider : clear implicits.
Arguments ConditionsStore : clear implicits.
Arguments State : clear implicits.
Arguments M : clear implicits.

(** ** The rest of the store's interface *)

Definition sub64 (a b : Z) : Z := wrap64 (a - b).

Section EntryHandles.
Context {W : Type}.

(** The key the operators of an entry pass to its provider:
    [fullKey.empty() ? provider->name : fullKey]. *)
Definition provider_key (e : ConditionEntry) (P : DerivedProvider W) : string :=
  if String.eqb (fullKey e) "" then name P else fullKey e.

(** A [ConditionEntry &] is held as the key of the index node that holds
    the entry.  Using a reference whose node has been erased is undefined;
    the model then does nothing and returns [dflt]. *)
Definition with_entry {A : Type} (ref : string) (dflt : A)
    (f : ConditionEntry -> M W A) : M W A :=
  st ← get_store;
  match StdMap.find ref (storage st) with
  | Some e => f e
  | None => ret dflt
  end.

(** [ConditionEntry::operator int64_t] *)
Definition operator_int64 (ref : string) : M W Z :=
  with_entry ref 0 (fun e =>
    match provider e with
    | None => ret (value e)
    | Some p => P ← deref_provider p; call (getFunction P (provider_key e P))
    end).

(** The inline branch of the mutating operators: [value = f(value)]. *)
Definition update_value (ref : string) (f : Z -> Z) : M W unit :=
  st ← get_store;
  put_storage (StdMap.modify ref (fun e => set_value (f (value e)) e) (storage st)).

(** [ConditionEntry::operator=]; the provider's answer is dropped. *)
Definition operator_assign (ref : string) (val : Z) : M W string :=
  with_entry ref ref (fun e =>
    match provider e with
    | None => update_value ref (fun _ => val);; ret ref
    | Some p =>
        P ← deref_provider p;
        call (setFunction P (provider_key e P) val);;
        ret ref
    end).

(** The provider branch of the compound operators:
    [provider->setFunction(key, f(provider->getFunction(key)))]. *)
Definition read_modify_write (e : ConditionEntry) (p : string) (f : Z -> Z) : M W unit :=
  P ← deref_provider p;
  g ← call (getFunction P (provider_key e P));
  call (setFunction P (provider_key e P) (f g));;
  ret tt.

Definition compound (ref : string) (f : Z -> Z) : M W string :=
  with_entry ref ref (fun e =>
    match provider e with
    | None => update_value ref f;; ret ref
    | Some p => read_modify_write e p f;; ret ref
    end).

(** [ConditionEntry::operator++], [operator--], [operator+=] and
    [operator-=] *)
Definition operator_pre_incr (ref : string) : M W string :=
  compound ref (fun v => add64 v 1).
Definition operator_pre_decr (ref : string) : M W string :=
  compound ref (fun v => sub64 v 1).
Definition operator_add_assign (ref : string) (val : Z) : M W string :=
  compound ref (fun v => add64 v val).
Definition operator_sub_assign (ref : string) (val : Z) : M W string :=
  compound ref (fun v => sub64 v val).

(** The loop of the two constructors that take initial conditions:
    [for(const auto &it : initialConditions) Set(it.first, it.second)]. *)
Fixpoint Set_each (initialConditions : list (string * Z)) : M W unit :=
  match initialConditions with
  | [] => ret tt
  | it :: r => Set_ (fst it) (snd it);; Set_each r
  end.

(** A new object: both maps empty. *)
Definition new_store (w : W) : State W :=
  {| store := ConditionsStore0; world := w; lookups := 0 |}.

(** [ConditionsStore::ConditionsStore(initializer_list<pair<string, int64_t>>)] *)
Definition ConditionsStore_of_list (initialConditions : list (string * Z)) (w : W)
  : State W :=
  snd (Set_each initialConditions (new_store w)).

(** [ConditionsStore::ConditionsStore(const map<string, int64_t> &)]; the
    loop walks the map in key order. *)
Definition ConditionsStore_of_map (initialConditions : StdMap.t Z) (w : W) : State W :=
  snd (Set_each initialConditions (new_store w)).

(** [ConditionsStore::ConditionsStore(const DataNode &)] *)
Definition ConditionsStore_of_node (node : DataNode) (w : W) : State W :=
  snd (Load node (new_store w)).

(** The key and the value [Load] reads from one child node. *)
Definition child_pair (child : DataNode) : string * Z :=
  (DataNode.Token child 0,
   if (2 <=? DataNode.Size child)%nat then DataNode.Value child 1 else 1).

(** The value of the last pair for [k] in a list of pairs. *)
Definition last_value (k : string) (l : list (string * Z)) : option Z :=
  fold_left (fun acc x => if String.eqb (fst x) k then Some (snd x) else acc) l None.

(** What the iteration from [PrimariesLowerBound(key)] to
    [PrimariesEnd()] yields. *)
Definition primaries_from (key : string) (st : ConditionsStore W) : list (string * Z) :=
  for_primaries st (fun x acc => List.app acc [x]) (PrimariesLowerBound key st) [].

(** How a name resolves: to nothing, to an inline entry ([Some None]) or
    to the provider [p] ([Some (Some p)]). *)
Definition target (nm : string) (st : ConditionsStore W) : option (option string) :=
  option_map (fun x => provider (snd x)) (GetEntry nm st).

(** The [fullKey] of an entry is empty or the entry's own key; when it is
    empty and the entry has a provider, the provider is named as the
    entry's key. *)
Definition fullKey_entry_ok (st : ConditionsStore W) (x : string * ConditionEntry) : bool :=
  String.eqb (fullKey (snd x)) (fst x)
  || (String.eqb (fullKey (snd x)) ""
      && match provider (snd x) with
         | None => true
         | Some p => String.eqb (name (provider_at st p)) (fst x)
         end).

Definition fullKey_ok (st : ConditionsStore W) : bool :=
  forallb (fullKey_entry_ok st) (storage st).

End EntryHandles.

(** ** The panel stack *)

Module UI.
Section UI.

(** A panel is referred to by its address.  The panel objects form a
    world of their own, which the stack reaches through the member
    functions of the panels only; those functions are not part of the
    sources and are parameters here. *)
Context {Panel : Type} `{EqDecision Panel}.
Context {PW Rectangle Point : Type}.

(** [panel->SetUI(this)] *)
Variable SetUI : Panel -> PW -> PW.
(** [panel->ClearZones()], [panel->IsFullScreen()] and [panel->Draw()] *)
Variable ClearZones : Panel -> PW -> PW.
Variable IsFullScreen : Panel -> PW -> bool.
Variable Draw : Panel -> PW -> PW.
(** [panel->zones] and [panel->TrapAllEvents()] *)
Variable zones : Panel -> PW -> list Rectangle.
Variable TrapAllEvents : Panel -> PW -> bool.
(** [zone.Contains(point)] *)
Variable Contains : Rectangle -> Point -> bool.

(** A pointer that may be null. *)
Definition ptr : Type := option Panel.

(** The members of the class the stack functions use.  [stack] holds
    the panels bottom first; only [PushOrPop] adds to it, and never a
    null pointer. *)
Record t := {
  stack : list Panel;
  toPush : list ptr;
  toPop : list ptr;
  isDone : bool;
  canSave : bool
}.

(** [UI::Push]; the panel is dereferenced, so it is not null. *)
Definition Push (panel : Panel) (u : t) (w : PW) : t * PW :=
  ({| stack := stack u; toPush := List.app (toPush u) [Some panel];
      toPop := toPop u; isDone := isDone u; canSave := canSave u |},
   SetUI panel w).

(** [UI::Pop] *)
Definition Pop (panel : ptr) (u : t) : t :=
  {| stack := stack u; toPush := toPush u; toPop := List.app (toPop u) [panel];
     isDone := isDone u; canSave := canSave u |}.

(** The loop of [PopThrough], over the stack from the top down. *)
Fixpoint PopThrough_loop (panel : ptr) (rstack : list Panel) (queue : list ptr)
  : list ptr :=
  match rstack with
  | [] => queue
  | q :: r =>
      let queue := List.app queue [Some q] in
      if decide (Some q = panel) then queue else PopThrough_loop panel r queue
  end.

(** [UI::PopThrough] *)
Definition PopThrough (panel : ptr) (u : t) : t :=
  {| stack := stack u; toPush := toPush u;
     toPop := PopThrough_loop panel (rev (stack u)) (toPop u);
     isDone := isDone u; canSave := canSave u |}.

(** [UI::IsTop] *)
Definition IsTop (panel : ptr) (u : t) : bool :=
  match rev (stack u) with
  | [] => false
  | q :: _ => bool_decide (Some q = panel)
  end.

(** [UI::Top]; [None] is the empty [shared_ptr]. *)
Definition Top (u : t) : ptr :=
  match rev (toPush u) with
  | panel :: _ => panel
  | [] =>
      match rev (stack u) with
      | q :: _ => Some q
      | [] => None
      end
  end.

(** [UI::Reset] *)
Definition Reset (u : t) : t :=
  {| stack := []; toPush := []; toPop := []; isDone := false; canSave := canSave u |}.

(** [UI::Root] *)
Definition Root (u : t) : ptr :=
  match stack u with
  | [] =>
      match toPush u with
      | [] => None
      | panel :: _ => panel
      end
  | q :: _ => Some q
  end.

(** [UI::CanSave(bool)] and [UI::CanSave()] *)
Definition set_CanSave (b : bool) (u : t) : t :=
  {| stack := stack u; toPush := toPush u; toPop := toPop u;
     isDone := isDone u; canSave := b |}.
Definition CanSave (u : t) : bool := canSave u.

(** [UI::Quit] and [UI::IsDone] *)
Definition Quit (u : t) : t :=
  {| stack := stack u; toPush := toPush u; toPop := toPop u;
     isDone := true; canSave := canSave u |}.
Definition IsDone (u : t) : bool := isDone u.

(** [UI::IsEmpty] *)
Definition IsEmpty (u : t) : bool :=
  match stack u, toPush u with
  | [], [] => true
  | _, _ => false
  end.

(** The first loop of [PushOrPop]: the queued panels that are not null
    go on top of the stack, in the order they were queued. *)
Definition push_queued (queue : list ptr) (stk : list Panel) : list Panel :=
  fold_left (fun stk panel =>
               match panel with
               | Some q => List.app stk [q]
               | None => stk
               end) queue stk.

(** The inner loop of [PushOrPop]: erase the lowest stack element that
    is [panel], if there is one. *)
Fixpoint erase_first (panel : ptr) (stk : list Panel) : list Panel :=
  match stk with
  | [] => []
  | q :: r => if decide (Some q = panel) then r else q :: erase_first panel r
  end.

Definition pop_queued (queue : list ptr) (stk : list Panel) : list Panel :=
  fold_left (fun stk panel => erase_first panel stk) queue stk.

(** [UI::PushOrPop] *)
Definition PushOrPop (u : t) : t :=
  {| stack := pop_queued (toPop u) (push_queued (toPush u) (stack u));
     toPush := []; toPop := [];
     isDone := isDone u; canSave := canSave u |}.

(** The search of [DrawAll] for the topmost full-screen panel: while
    the iterator is not at the bottom of the stack, step down one panel
    and stop when that panel is full-screen.  [below] holds the panels
    under the iterator, nearest first, and
    [from] the panels from the iterator on. *)
Fixpoint topmost_full_screen (w : PW) (below from : list Panel) : list Panel :=
  match below with
  | [] => from
  | q :: r =>
      if IsFullScreen q w then q :: from else topmost_full_screen w r (q :: from)
  end.

(** [UI::DrawAll] *)
Definition DrawAll (u : t) (w : PW) : PW :=
  let w := fold_left (fun w q => ClearZones q w) (stack u) w in
  let from := topmost_full_screen w (rev (stack u)) [] in
  fold_left (fun w q => Draw q w) from w.

(** The loop of [AllZones], over the stack from the top down. *)
Fixpoint AllZones_loop (w : PW) (rstack : list Panel) (zs : list Rectangle)
  : list Rectangle :=
  match rstack with
  | [] => zs
  | q :: r =>
      let zs := List.app zs (zones q w) in
      if TrapAllEvents q w then zs else AllZones_loop w r zs
  end.

(** [UI::AllZones] *)
Definition AllZones (u : t) (w : PW) : list Rectangle :=
  AllZones_loop w (rev (stack u)) [].

(** The cursor functions end in [MoveMouseOffset(zone.Center())], a call
    into the windowing library; they are modelled by the zone they
    choose, [None] when they do not move the mouse. *)

(** [UI::CursorToFirstZone] *)
Definition CursorToFirstZone (u : t) (w : PW) : option Rectangle :=
  hd_error (AllZones u w).

(** The search loop of [CursorToNextZone] and [CursorToPrevZone]:
    [for(; !match && it != end; ++it) if(it->Contains(mouse)) match = true;],
    as [match] and the zones from the iterator on. *)
Fixpoint find_zone (mouse : Point) (it : list Rectangle) : bool * list Rectangle :=
  match it with
  | [] => (false, [])
  | z :: r => if Contains z mouse then (true, r) else find_zone mouse r
  end.

(** [UI::CursorToNextZone] *)
Definition CursorToNextZone (mouse : Point) (u : t) (w : PW) : option Rectangle :=
  let zs := AllZones u w in
  let '(found, it) := find_zone mouse zs in
  if found then hd_error it else CursorToFirstZone u w.

(** [UI::CursorToPrevZone] *)
Definition CursorToPrevZone (mouse : Point) (u : t) (w : PW) : option Rectangle :=
  let zs := AllZones u w in
  let '(found, it) := find_zone mouse (rev zs) in
  if found then hd_error it else CursorToFirstZone u w.

End UI.

Arguments t : clear implicits.
Arguments ptr : clear implicits.

End UI.

(** ** Example stores *)

Module Example.

(** The providers' world of the examples: the log of the callbacks
    called, latest first. *)
Definition World : Type := list (string * string).

Definition get_len (key : string) (w : World) : Z * World :=
  (Z.of_nat (String.length key), ("get", key) :: w).
Definition has_yes (key : string) (w : World) : bool * World :=
  (true, ("has", key) :: w).
Definition set_no (key : string) (v : Z) (w : World) : bool * World :=
  (false, ("set", key) :: w).
Definition erase_no (key : string) (w : World) : bool * World :=
  (false, ("erase", key) :: w).

Definition Prefixed : string -> M World string :=
  GetProviderPrefixed get_len has_yes set_no erase_no.
Definition Named : string -> M World string :=
  GetProviderNamed get_len has_yes set_no erase_no.

Definition start : State World :=
  {| store := ConditionsStore0; world := []; lookups := 0 |}.

(** One prefix provider. *)
Definition events : State World := snd (Prefixed "events: " start).

(** A primary entry set before a prefix provider is registered over it. *)
Definition shadowed : State World :=
  snd ((Set_ "ab" 7;; Prefixed "a") start).

(** Two primary entries and a provider-backed one. *)
Definition mixed : State World :=
  snd ((Set_ "a" 1;; Set_ "b" 2;; Named "c") start).

(** Primary entries only, one of them with value 0. *)
Definition plain : State World :=
  snd ((Set_ "a" 1;; Set_ "b" 2;; Set_ "z" 0) start).

End Example.

(** ** Example panel stacks *)

Module ExamplePanels.

(** Panels are numbered; the panels' world is the log of the member
    functions called, latest first. *)
Definition Trace : Type := list (string * nat).

Definition SetUI (q : nat) (w : Trace) : Trace := ("SetUI", q) :: w.
Definition ClearZones (q : nat) (w : Trace) : Trace := ("ClearZones", q) :: w.
Definition Draw (q : nat) (w : Trace) : Trace := ("Draw", q) :: w.

(** Panel 2 is full-screen and traps all events; a zone is a number,
    panel [q] has the zones [10 q] and [10 q + 1], and a zone contains
    the point of the same number. *)
Definition IsFullScreen (q : nat) (w : Trace) : bool := Nat.eqb q 2.
Definition TrapAllEvents (q : nat) (w : Trace) : bool := Nat.eqb q 2.
Definition zones (q : nat) (w : Trace) : list nat := [(10 * q)%nat; (10 * q + 1)%nat].
Definition Contains (z mouse : nat) : bool := Nat.eqb z mouse.

(** Three panels on the stack and one waiting to be pushed. *)
Definition three : UI.t nat :=
  {| UI.stack := [1%nat; 2%nat; 3%nat]; UI.toPush := [Some 4%nat]; UI.toPop := [];
     UI.isDone := false; UI.canSave := false |}.

(** Panel 3 is queued for pushing and for popping, with a null pointer
    in the push queue. *)
Definition queued : UI.t nat :=
  {| UI.stack := [1%nat; 2%nat]; UI.toPush := [Some 3%nat; None];
     UI.toPop := [Some 2%nat; Some 3%nat];
     UI.isDone := false; UI.canSave := true |}.

End ExamplePanels.

(** ** Example stores with entries between a prefix and a name *)

Module Layered.

(** The prefix provider ["a"], the entry ["abc"] created under it by
    [operator[]], and then a named provider at ["ab"], between the two. *)
Definition abc : State Example.World :=
  snd ((Example.Prefixed "a";; operator_brackets "abc";; Example.Named "ab") Example.start).

(** A primary entry ["ab"], the prefix provider ["a"] registered over
    it, and then a primary entry set at ["abc"]. *)
Definition set_abc : State Example.World := snd (Set_ "abc" 3 Example.shadowed).

(** The prefix provider ["events: "] with the entries ["events: a"] and
    ["events: x"] created under it by [operator[]]. *)
Definition events : State Example.World :=
  snd ((Example.Prefixed "events: ";; operator_brackets "events: a";;
        operator_brackets "events: x") Example.start).

End Layered.

(** * Facts about the string order *)

Section StringOrder.

Lemma compare_refl a : StdString.compare a a = Eq.
Proof. apply (proj2 (OrderedTypeEx.String_as_OT.cmp_eq a a)). reflexivity. Qed.

Lemma compare_Eq a b : StdString.compare a b = Eq <-> a = b.
Proof. exact (OrderedTypeEx.String_as_OT.cmp_eq a b). Qed.

Lemma compare_Gt_Lt a b : StdString.compare a b = Gt <-> StdString.compare b a = Lt.
Proof.
  unfold StdString.compare. rewrite (String.compare_antisym b a).
  destruct (String.compare a b); simpl; split; congruence.
Qed.

Lemma is_zero_compare a b : StdString.is_zero (StdString.compare a b) = String.eqb a b.
Proof.
  destruct (String.eqb_spec a b) as [-> | Hne].
  - rewrite compare_refl. reflexivity.
  - destruct (StdString.compare a b) eqn:Hc; try reflexivity.
    apply (proj1 (compare_Eq a b)) in Hc. contradiction.
Qed.

Lemma less_irrefl a : StdString.less a a = false.
Proof. unfold StdString.less. rewrite compare_refl. reflexivity. Qed.

Lemma less_Lt a b : StdString.less a b = true <-> StdString.compare a b = Lt.
Proof. unfold StdString.less. destruct (StdString.compare a b); split; congruence. Qed.

Lemma less_trans a b c :
  StdString.less a b = true -> StdString.less b c = true -> StdString.less a c = true.
Proof.
  rewrite !less_Lt. unfold StdString.compare.
  rewrite !OrderedTypeEx.String_as_OT.cmp_lt.
  apply OrderedTypeEx.String_as_OT.lt_trans.
Qed.

Lemma less_asym a b : StdString.less a b = true -> StdString.less b a = false.
Proof.
  intros H. destruct (StdString.less b a) eqn:H'; [| reflexivity].
  pose proof (less_trans _ _ _ H H') as Hc. rewrite less_irrefl in Hc. discriminate.
Qed.

Lemma less_total a b :
  StdString.less a b = false -> StdString.less b a = false -> a = b.
Proof.
  unfold StdString.less. intros H1 H2.
  destruct (StdString.compare a b) eqn:Hc; try discriminate.
  - apply (proj1 (compare_Eq a b)). assumption.
  - apply (proj1 (compare_Gt_Lt a b)) in Hc. rewrite Hc in H2. discriminate.
Qed.

Lemma less_neq a b : StdString.less a b = true -> a <> b.
Proof. intros H ->. rewrite less_irrefl in H. discriminate. Qed.

(** [a <= b]: not [b < a]. *)
Lemma le_cases a b : StdString.less b a = false -> a = b \/ StdString.less a b = true.
Proof.
  intros H. destruct (StdString.less a b) eqn:H'; [right; reflexivity | left].
  apply less_total; assumption.
Qed.

Lemma le_less_trans a b c :
  StdString.less b a = false -> StdString.less b c = true -> StdString.less a c = true.
Proof.
  intros H1 H2. destruct (le_cases _ _ H1) as [-> | H]; [assumption |].
  eapply less_trans; eassumption.
Qed.

Lemma less_le_trans a b c :
  StdString.less a b = true -> StdString.less c b = false -> StdString.less a c = true.
Proof.
  intros H1 H2. destruct (le_cases _ _ H2) as [<- | H]; [assumption |].
  eapply less_trans; eassumption.
Qed.

(** A string sorts at or after each of its prefixes. *)
Lemma starts_with_le p a :
  StdString.starts_with p a = true -> StdString.less a p = false.
Proof.
  unfold StdString.starts_with, StdString.less, StdString.compare.
  revert p. induction a as [| c a IH]; intros [| d p]; simpl; try congruence.
  destruct (Ascii.ascii_dec d c) as [-> | Hne]; [| discriminate].
  intros H. specialize (IH _ H).
  assert (Hc : Ascii.compare c c = Eq).
  { unfold Ascii.compare. apply N.compare_refl. }
  rewrite Hc. assumption.
Qed.

Lemma starts_with_refl p : StdString.starts_with p p = true.
Proof.
  unfold StdString.starts_with. induction p as [| c p IH]; simpl; [reflexivity |].
  destruct (Ascii.ascii_dec c c); [assumption | contradiction].
Qed.

(** The test [!name.compare(0, p.length(), p)] decides whether [name]
    starts with [p]. *)
Lemma compare_sub_starts_with a p :
  StdString.is_zero (StdString.compare_sub a 0 (String.length p) p)
  = StdString.starts_with p a.
Proof.
  unfold StdString.compare_sub, StdString.starts_with.
  change (String.compare ?x ?y) with (StdString.compare x y).
  rewrite is_zero_compare.
  revert a. induction p as [| c p IH]; intros a.
  - destruct a; reflexivity.
  - destruct a as [| d a]; simpl; [reflexivity |].
    destruct (Ascii.ascii_dec c d) as [-> | Hne].
    + rewrite Ascii.eqb_refl. apply IH.
    + destruct (Ascii.eqb_spec d c) as [-> | _]; [contradiction | reflexivity].
Qed.

End StringOrder.

(** * Facts about the sorted index *)

Section MapFacts.
Context {V : Type} (dflt : V).
Implicit Types (m r : StdMap.t V) (k key : string) (v : V).

Lemma sorted_cons k v m :
  StdMap.sorted ((k, v) :: m) = true <->
  Forall (fun x => StdString.less k (fst x) = true) m /\ StdMap.sorted m = true.
Proof.
  revert k v. induction m as [| [k' v'] m IH]; intros k v.
  - simpl. split; [intros _; split; [constructor | reflexivity] | reflexivity].
  - change (StdMap.sorted ((k, v) :: (k', v') :: m))
      with (StdString.less k k' && StdMap.sorted ((k', v') :: m)).
    rewrite andb_true_iff. split.
    + intros [Hk Hs]. split; [| assumption].
      constructor; [assumption |].
      apply IH in Hs as [Hall _].
      eapply Forall_impl; [exact Hall |].
      intros x Hx. eapply less_trans; eassumption.
    + intros [Hall Hs]. split; [| assumption].
      inversion Hall; subst. assumption.
Qed.

Lemma sorted_tail k v m : StdMap.sorted ((k, v) :: m) = true -> StdMap.sorted m = true.
Proof. intros H. apply sorted_cons in H. tauto. Qed.

Lemma sorted_above k v m k' v' :
  StdMap.sorted ((k, v) :: m) = true -> In (k', v') m -> StdString.less k k' = true.
Proof.
  intros H Hin. apply sorted_cons in H as [Hall _].
  rewrite List.Forall_forall in Hall. exact (Hall _ Hin).
Qed.

Lemma find_In key v m :
  StdMap.sorted m = true -> (StdMap.find key m = Some v <-> In (key, v) m).
Proof.
  induction m as [| [k v0] m IH]; intros Hs.
  - simpl. split; [discriminate | tauto].
  - simpl. destruct (StdString.compare key k) eqn:Hc.
    + apply (proj1 (compare_Eq key k)) in Hc. subst k. split.
      * intros [= ->]. left. reflexivity.
      * intros [[= ->] | Hin]; [reflexivity |].
        pose proof (sorted_above _ _ _ _ _ Hs Hin) as Hlt.
        rewrite less_irrefl in Hlt. discriminate.
    + split; [discriminate |].
      intros [[= -> ->] | Hin].
      * rewrite compare_refl in Hc. discriminate.
      * pose proof (sorted_above _ _ _ _ _ Hs Hin) as Hlt.
        apply (proj1 (less_Lt k key)) in Hlt.
        apply (proj2 (compare_Gt_Lt k key)) in Hc. congruence.
    + rewrite (IH (sorted_tail _ _ _ Hs)). split; [tauto |].
      intros [[= -> ->] | Hin]; [| assumption].
      rewrite compare_refl in Hc. discriminate.
Qed.

Lemma find_at_key_same key f m :
  StdMap.find key (StdMap.at_key dflt key f m)
  = Some (f (default dflt (StdMap.find key m))).
Proof.
  induction m as [| [k v] m IH]; simpl.
  - rewrite compare_refl. reflexivity.
  - destruct (StdString.compare key k) eqn:Hc; simpl.
    + rewrite Hc. reflexivity.
    + rewrite compare_refl. reflexivity.
    + rewrite Hc. exact IH.
Qed.

Lemma find_at_key_other key key' f m :
  key' <> key -> StdMap.find key' (StdMap.at_key dflt key f m) = StdMap.find key' m.
Proof.
  intros Hne. induction m as [| [k v] m IH]; simpl.
  - destruct (StdString.compare key' key) eqn:Hc; try reflexivity.
    apply (proj1 (compare_Eq key' key)) in Hc. contradiction.
  - destruct (StdString.compare key k) eqn:Hc; simpl.
    + apply (proj1 (compare_Eq key k)) in Hc. subst k.
      destruct (StdString.compare key' key) eqn:Hc'; try reflexivity.
      apply (proj1 (compare_Eq key' key)) in Hc'. contradiction.
    + destruct (StdString.compare key' key) eqn:Hc'.
      * apply (proj1 (compare_Eq key' key)) in Hc'. contradiction.
      * assert (Hlt : StdString.compare key' k = Lt).
        { apply less_Lt. eapply less_trans; apply less_Lt; eassumption. }
        rewrite Hlt. reflexivity.
      * reflexivity.
    + destruct (StdString.compare key' k); try reflexivity. exact IH.
Qed.

Lemma sorted_at_key key f m :
  StdMap.sorted m = true -> StdMap.sorted (StdMap.at_key dflt key f m) = true.
Proof.
  induction m as [| [k v] m IH]; intros Hs; [reflexivity |].
  simpl. destruct (StdString.compare key k) eqn:Hc.
  - apply sorted_cons. apply sorted_cons in Hs. exact Hs.
  - change (StdString.less key k && StdMap.sorted ((k, v) :: m) = true).
    rewrite Hs, andb_true_r. apply less_Lt. assumption.
  - apply sorted_cons. split.
    + apply List.Forall_forall. intros [k' v'] Hin. simpl.
      assert (Hlt : StdString.less k key = true).
      { apply less_Lt. apply compare_Gt_Lt. assumption. }
      destruct (String.eqb_spec k' key) as [-> | Hne]; [assumption |].
      apply (sorted_above k v m k' v' Hs).
      apply find_In; [exact (sorted_tail _ _ _ Hs) |].
      rewrite <- (find_at_key_other key k' f m Hne).
      apply find_In; [exact (IH (sorted_tail _ _ _ Hs)) | assumption].
    + exact (IH (sorted_tail _ _ _ Hs)).
Qed.

Lemma In_at_key key f m k v :
  StdMap.sorted m = true -> In (k, v) (StdMap.at_key dflt key f m) ->
  (k = key /\ v = f (default dflt (StdMap.find key m))) \/ (k <> key /\ In (k, v) m).
Proof.
  intros Hs Hin.
  apply (find_In _ _ _ (sorted_at_key key f m Hs)) in Hin.
  destruct (String.eqb_spec k key) as [-> | Hne]; [left | right].
  - rewrite find_at_key_same in Hin. split; congruence.
  - rewrite find_at_key_other in Hin by assumption.
    split; [assumption |]. apply find_In; assumption.
Qed.

Lemma keys_modify key f m : map fst (StdMap.modify key f m) = map fst m.
Proof.
  induction m as [| [k v] m IH]; simpl; [reflexivity |].
  destruct (String.eqb key k); simpl; congruence.
Qed.

Lemma sorted_keys m m' :
  map fst m = map fst m' -> StdMap.sorted m = StdMap.sorted m'.
Proof.
  revert m'. induction m as [| [k v] m IH]; intros [| [k' v'] m'] H; try discriminate.
  - reflexivity.
  - injection H as -> H. specialize (IH _ H).
    destruct m as [| [k1 v1] m], m' as [| [k1' v1'] m']; try discriminate; [reflexivity |].
    change (StdString.less k' k1 && StdMap.sorted ((k1, v1) :: m)
            = StdString.less k' k1' && StdMap.sorted ((k1', v1') :: m')).
    injection H as -> _. rewrite IH. reflexivity.
Qed.

Lemma sorted_modify key f m :
  StdMap.sorted m = true -> StdMap.sorted (StdMap.modify key f m) = true.
Proof. intros H. rewrite (sorted_keys _ m (keys_modify key f m)). exact H. Qed.

Lemma find_modify key key' f m :
  StdMap.find key' (StdMap.modify key f m)
  = if String.eqb key key' then option_map f (StdMap.find key' m)
    else StdMap.find key' m.
Proof.
  induction m as [| [k v] m IH]; simpl.
  - destruct (String.eqb key key'); reflexivity.
  - destruct (String.eqb_spec key k) as [-> | Hne]; simpl.
    + destruct (String.eqb_spec k key') as [<- | Hne'].
      * rewrite compare_refl. reflexivity.
      * destruct (StdString.compare key' k) eqn:Hc; try reflexivity.
        apply (proj1 (compare_Eq key' k)) in Hc. congruence.
    + destruct (StdString.compare key' k) eqn:Hc.
      * apply (proj1 (compare_Eq key' k)) in Hc. subst k.
        destruct (String.eqb_spec key key'); [contradiction | reflexivity].
      * destruct (String.eqb key key'); reflexivity.
      * exact IH.
Qed.

Lemma In_modify key f m k v :
  In (k, v) (StdMap.modify key f m) ->
  exists v0, In (k, v0) m /\ (v = v0 \/ (k = key /\ v = f v0)).
Proof.
  induction m as [| [k0 v0] m IH]; simpl; [tauto |].
  destruct (String.eqb_spec key k0) as [-> | Hne]; simpl.
  - intros [[= <- <-] | Hin]; [exists v0 | exists v]; auto.
  - intros [[= <- <-] | Hin]; [exists v0; auto |].
    destruct (IH Hin) as (v1 & Hin1 & Hv). exists v1. auto.
Qed.

Lemma In_erase key m x : In x (StdMap.erase key m) -> In x m.
Proof.
  induction m as [| [k v] m IH]; simpl; [tauto |].
  destruct (StdString.compare key k); simpl; tauto.
Qed.

Lemma sorted_erase key m :
  StdMap.sorted m = true -> StdMap.sorted (StdMap.erase key m) = true.
Proof.
  induction m as [| [k v] m IH]; intros Hs; [reflexivity |].
  simpl. destruct (StdString.compare key k); [exact (sorted_tail _ _ _ Hs) | exact Hs |].
  apply sorted_cons. apply sorted_cons in Hs as [Hall Hs]. split; [| exact (IH Hs)].
  apply List.Forall_forall. intros x Hin. apply In_erase in Hin.
  rewrite List.Forall_forall in Hall. exact (Hall _ Hin).
Qed.

(** *** The predecessor search *)

Lemma floor_In key m k v :
  StdMap.floor key m = Some (k, v) -> In (k, v) m /\ StdString.less key k = false.
Proof.
  induction m as [| [k0 v0] m IH]; simpl; [discriminate |].
  destruct (StdString.less key k0) eqn:Hlt; [discriminate |].
  destruct (StdMap.floor key m) as [x |] eqn:Hf.
  - intros [= ->]. destruct (IH eq_refl). auto.
  - intros [= -> ->]. auto.
Qed.

Lemma floor_None_find key m : StdMap.floor key m = None -> StdMap.find key m = None.
Proof.
  destruct m as [| [k v] m]; simpl; [reflexivity |].
  destruct (StdString.less key k) eqn:Hlt.
  - intros _. apply less_Lt in Hlt. rewrite Hlt. reflexivity.
  - destruct (StdMap.floor key m); discriminate.
Qed.

(** Below a present key [p <= key], the search finds a node at or after [p]. *)
Lemma floor_from key m p e :
  StdMap.sorted m = true -> In (p, e) m -> StdString.less key p = false ->
  exists k v, StdMap.floor key m = Some (k, v) /\ StdString.less k p = false.
Proof.
  induction m as [| [k0 v0] m IH]; intros Hs Hin Hle; [destruct Hin |].
  simpl. destruct Hin as [[= -> ->] | Hin].
  - rewrite Hle. destruct (StdMap.floor key m) as [[k v] |] eqn:Hf.
    + exists k, v. split; [reflexivity |].
      apply floor_In in Hf as [Hin _].
      apply less_asym. exact (sorted_above _ _ _ _ _ Hs Hin).
    + exists p, e. split; [reflexivity | apply less_irrefl].
  - pose proof (sorted_above _ _ _ _ _ Hs Hin) as Hlt.
    assert (Hk0 : StdString.less key k0 = false).
    { destruct (StdString.less key k0) eqn:Hc; [| reflexivity].
      rewrite (less_trans _ _ _ Hc Hlt) in Hle. discriminate. }
    rewrite Hk0.
    destruct (IH (sorted_tail _ _ _ Hs) Hin Hle) as (k & v & -> & Hkp).
    exists k, v. auto.
Qed.

(** A present key is its own predecessor. *)
Lemma floor_exact key m v :
  StdMap.sorted m = true -> In (key, v) m -> StdMap.floor key m = Some (key, v).
Proof.
  intros Hs Hin.
  destruct (floor_from key m key v Hs Hin (less_irrefl key)) as (k & v' & Hf & Hle).
  pose proof (floor_In _ _ _ _ Hf) as [Hin' Hle'].
  assert (k = key) by (apply less_total; assumption). subst k.
  apply (find_In _ _ _ Hs) in Hin, Hin'. congruence.
Qed.

Lemma floor_other_find key m k v :
  StdMap.sorted m = true -> StdMap.floor key m = Some (k, v) -> k <> key ->
  StdMap.find key m = None.
Proof.
  intros Hs Hf Hne. destruct (StdMap.find key m) as [v' |] eqn:Hfind; [| reflexivity].
  apply (find_In _ _ _ Hs) in Hfind.
  rewrite (floor_exact _ _ _ Hs Hfind) in Hf. congruence.
Qed.

(** What [upper_bound], the test against [begin()] and [--it] compute. *)
Lemma seek_floor key m acc :
  let it := StdMap.seek (fun k => StdString.less key k) acc m in
  (List.length (StdMap.rest it) <= List.length m)%nat /\
  (List.length (StdMap.rest it) = List.length m ->
     StdMap.floor key m = None /\ StdMap.passed it = acc) /\
  ((List.length (StdMap.rest it) < List.length m)%nat ->
     exists x, StdMap.floor key m = Some x /\ StdMap.deref (StdMap.decr it) = Some x).
Proof.
  revert acc. induction m as [| [k v] m IH]; intros acc; simpl.
  - repeat split; auto. lia.
  - destruct (StdString.less key k) eqn:Hlt; simpl.
    + repeat split; auto. lia.
    + destruct (IH ((k, v) :: acc)) as (Hle & Heq & Hlt').
      split; [lia |]. split; [lia |]. intros _.
      destruct (Nat.eq_dec
                  (List.length (StdMap.rest
                     (StdMap.seek (fun k0 => StdString.less key k0) ((k, v) :: acc) m)))
                  (List.length m)) as [E | NE].
      * destruct (Heq E) as [Hnone Hpassed]. rewrite Hnone.
        exists (k, v). split; [reflexivity |].
        unfold StdMap.decr. rewrite Hpassed. reflexivity.
      * destruct Hlt' as (x & Hx & Hd); [lia |]. rewrite Hx. exists x. auto.
Qed.

Lemma upper_bound_floor key m :
  (if StdMap.empty m then None
   else if StdMap.iter_eqb (StdMap.upper_bound key m) (StdMap.begin_ m) then None
        else StdMap.deref (StdMap.decr (StdMap.upper_bound key m)))
  = StdMap.floor key m.
Proof.
  destruct m as [| x m]; [reflexivity |].
  change (StdMap.empty (x :: m)) with false. cbv iota.
  unfold StdMap.upper_bound, StdMap.iter_eqb, StdMap.begin_.
  destruct (seek_floor key (x :: m) []) as (Hle & Heq & Hlt).
  cbv zeta in Hle, Heq, Hlt.
  change (StdMap.rest {| StdMap.passed := []; StdMap.rest := x :: m |}) with (x :: m).
  destruct (Nat.eqb_spec
              (List.length (StdMap.rest
                 (StdMap.seek (fun k => StdString.less key k) [] (x :: m))))
              (List.length (x :: m))) as [E | NE].
  - destruct (Heq E) as [-> _]. reflexivity.
  - destruct Hlt as (y & -> & ->); [lia | reflexivity].
Qed.

End MapFacts.

(** * Facts about resolution *)

Section Resolution.
Context {W : Type}.
Implicit Types (st : ConditionsStore W) (s : State W) (nm k p : string)
  (e : ConditionEntry).

(** [GetEntry] decides on the predecessor of the queried name. *)
Lemma GetEntry_floor nm st :
  GetEntry nm st =
  match StdMap.floor nm (storage st) with
  | None => None
  | Some (k, e) =>
      if String.eqb nm k then Some (k, e)
      else match provider e with
           | Some p =>
               if isPrefixProvider (provider_at st p)
                  && StdString.starts_with (name (provider_at st p)) nm
               then Some (k, e) else None
           | None => None
           end
  end.
Proof.
  rewrite <- upper_bound_floor. unfold GetEntry.
  destruct (StdMap.empty (storage st)); [reflexivity |]. cbv zeta.
  destruct (StdMap.iter_eqb _ _); [reflexivity |].
  destruct (StdMap.deref _) as [[k e] |]; [| reflexivity].
  rewrite is_zero_compare. destruct (String.eqb nm k); [reflexivity |].
  destruct (provider e) as [p |]; [| reflexivity].
  rewrite compare_sub_starts_with. reflexivity.
Qed.

Lemma GetEntry_In nm st k e : GetEntry nm st = Some (k, e) -> In (k, e) (storage st).
Proof.
  rewrite GetEntry_floor.
  destruct (StdMap.floor nm (storage st)) as [[k' e'] |] eqn:Hf; [| discriminate].
  apply floor_In in Hf as [Hin _]. intros H.
  assert (Some (k', e') = Some (k, e)) as [= <- <-]; [| assumption].
  destruct (String.eqb nm k'); [assumption |].
  destruct (provider e'); [| discriminate].
  destruct (_ && _); [assumption | discriminate].
Qed.

(** An entry present at exactly the queried name is the one resolved. *)
Lemma GetEntry_exact nm st e :
  StdMap.sorted (storage st) = true -> StdMap.find nm (storage st) = Some e ->
  GetEntry nm st = Some (nm, e).
Proof.
  intros Hs Hfind. rewrite GetEntry_floor.
  apply (find_In _ _ _ Hs) in Hfind.
  rewrite (floor_exact _ _ _ Hs Hfind), String.eqb_refl. reflexivity.
Qed.

(** A resolved entry without provider sits at exactly the queried name. *)
Lemma GetEntry_inline nm st k e :
  GetEntry nm st = Some (k, e) -> provider e = None -> k = nm.
Proof.
  rewrite GetEntry_floor.
  destruct (StdMap.floor nm (storage st)) as [[k' e'] |]; [| discriminate].
  destruct (String.eqb_spec nm k') as [-> | Hne]; [congruence |].
  destruct (provider e') as [p |] eqn:Hp; [| discriminate].
  destruct (_ && _); [| discriminate]. intros [= <- <-]. congruence.
Qed.

Lemma GetEntry_None_find nm st :
  StdMap.sorted (storage st) = true -> GetEntry nm st = None ->
  StdMap.find nm (storage st) = None.
Proof.
  intros Hs H. destruct (StdMap.find nm (storage st)) as [e |] eqn:Hfind; [| reflexivity].
  rewrite (GetEntry_exact _ _ _ Hs Hfind) in H. discriminate.
Qed.

(** A resolved entry at another key is a prefix match. *)
Lemma GetEntry_prefix nm st k e :
  GetEntry nm st = Some (k, e) -> k <> nm ->
  exists p P, provider e = Some p /\ providers st !! p = Some P /\
              isPrefixProvider P = true /\ StdString.starts_with (name P) nm = true.
Proof.
  rewrite GetEntry_floor.
  destruct (StdMap.floor nm (storage st)) as [[k' e'] |]; [| discriminate].
  destruct (String.eqb_spec nm k') as [-> | Hne]; [congruence |].
  destruct (provider e') as [p |] eqn:Hp; [| discriminate].
  destruct (_ && _) eqn:Hc; [| discriminate]. intros [= <- <-] _.
  apply andb_prop in Hc as [Hc1 Hc2]. unfold provider_at in Hc1, Hc2.
  destruct (providers st !! p) as [P |] eqn:HP; simpl in *; [| discriminate].
  exists p, P. auto.
Qed.

(** A name that no entry holds and no prefix provider covers resolves to
    nothing. *)
Lemma GetEntry_uncovered nm st :
  StdMap.sorted (storage st) = true ->
  StdMap.find nm (storage st) = None ->
  covered_by_prefix nm st = false ->
  GetEntry nm st = None.
Proof.
  intros Hs Hfind Hcov.
  destruct (GetEntry nm st) as [[k e] |] eqn:HG; [| reflexivity]. exfalso.
  destruct (String.eqb_spec k nm) as [-> | Hne].
  - apply GetEntry_In in HG. apply (find_In _ _ _ Hs) in HG. congruence.
  - destruct (GetEntry_prefix _ _ _ _ HG Hne) as (p & P & _ & HP & Hpre & Hst).
    unfold covered_by_prefix in Hcov.
    assert (Hex : existsb
              (fun x => isPrefixProvider (snd x) && StdString.starts_with (name (snd x)) nm)
              (map_to_list (providers st)) = true).
    { apply existsb_exists. exists (p, P). split.
      - apply list_elem_of_In. apply elem_of_map_to_list. exact HP.
      - simpl. rewrite Hpre, Hst. reflexivity. }
    congruence.
Qed.

(** The prefix provider registered at [p] answers for [nm] when [nm]
    starts with [p] and nothing else sits between the two keys. *)
Lemma GetEntry_routed nm st p :
  StdMap.sorted (storage st) = true ->
  registered p true st = true ->
  StdString.starts_with p nm = true ->
  StdMap.find nm (storage st) = None ->
  unshadowed p nm st = true ->
  exists k e, GetEntry nm st = Some (k, e) /\ provider e = Some p.
Proof.
  intros Hs Hreg Hst Hfind Hun. unfold registered in Hreg.
  destruct (StdMap.find p (storage st)) as [ep |] eqn:Hp; [| discriminate].
  destruct (providers st !! p) as [P |] eqn:HP; [| discriminate].
  apply andb_prop in Hreg as [Hreg Hflag]. apply andb_prop in Hreg as [Hptr Hname].
  apply bool_decide_eq_true in Hptr. apply String.eqb_eq in Hname.
  apply Bool.eqb_prop in Hflag.
  apply (find_In _ _ _ Hs) in Hp.
  destruct (floor_from nm _ p ep Hs Hp (starts_with_le _ _ Hst)) as (k & e & Hf & Hkp).
  pose proof (floor_In _ _ _ _ Hf) as [Hin Hle].
  assert (Hne : k <> nm).
  { intros ->. apply (find_In _ _ _ Hs) in Hin. congruence. }
  assert (He : provider e = Some p).
  { destruct (le_cases _ _ Hkp) as [<- | Hlt].
    - apply (find_In _ _ _ Hs) in Hp, Hin. congruence.
    - unfold unshadowed in Hun. rewrite forallb_forall in Hun.
      specialize (Hun _ Hin). simpl in Hun. rewrite Hlt in Hun.
      destruct (le_cases _ _ Hle) as [-> | Hlt']; [contradiction |].
      rewrite Hlt' in Hun. apply bool_decide_eq_true in Hun. exact Hun. }
  exists k, e. split; [| exact He].
  rewrite GetEntry_floor, Hf.
  destruct (String.eqb_spec nm k) as [-> | _]; [contradiction |].
  rewrite He. unfold provider_at. rewrite HP. simpl.
  rewrite Hflag, Hname, Hst. reflexivity.
Qed.

End Resolution.

(** * The operations *)

Ltac run :=
  unfold Get, Has, Set_, Erase, Add, mbind, M_bind, bind, lookup_entry,
    deref_provider, get_store, put_storage, put_store, call, ret; simpl.

Section Operations.
Context {W : Type}.
Implicit Types (st : ConditionsStore W) (s : State W) (nm k p : string)
  (e : ConditionEntry) (v : Z).

Lemma Get_unresolved k s : GetEntry k (store s) = None -> Get k s = (0, tick s).
Proof. intros H. run. rewrite H. reflexivity. Qed.

Lemma Has_unresolved k s : GetEntry k (store s) = None -> Has k s = (false, tick s).
Proof. intros H. run. rewrite H. reflexivity. Qed.

Lemma Get_inline nm s k e :
  GetEntry nm (store s) = Some (k, e) -> provider e = None ->
  Get nm s = (value e, tick s).
Proof. intros H Hp. run. rewrite H, Hp. reflexivity. Qed.

Lemma Has_inline nm s k e :
  GetEntry nm (store s) = Some (k, e) -> provider e = None ->
  Has nm s = (true, tick s).
Proof. intros H Hp. run. rewrite H, Hp. reflexivity. Qed.

Lemma Get_derived nm s k e p :
  GetEntry nm (store s) = Some (k, e) -> provider e = Some p ->
  Get nm s = call (getFunction (provider_at (store s) p) nm) (tick s).
Proof. intros H Hp. run. rewrite H, Hp. reflexivity. Qed.

Lemma Has_derived nm s k e p :
  GetEntry nm (store s) = Some (k, e) -> provider e = Some p ->
  Has nm s = call (hasFunction (provider_at (store s) p) nm) (tick s).
Proof. intros H Hp. run. rewrite H, Hp. reflexivity. Qed.

Lemma Get_lookups nm s : lookups (snd (Get nm s)) = S (lookups s).
Proof.
  run. destruct (GetEntry nm (store s)) as [[k e] |]; [| reflexivity].
  destruct (provider e); [| reflexivity].
  match goal with |- context [getFunction ?P nm ?w] => destruct (getFunction P nm w) end.
  reflexivity.
Qed.

Lemma Set_lookups nm v s : lookups (snd (Set_ nm v s)) = S (lookups s).
Proof.
  run. destruct (GetEntry nm (store s)) as [[k e] |]; [| reflexivity].
  destruct (provider e); [| reflexivity].
  match goal with |- context [setFunction ?P nm v ?w] => destruct (setFunction P nm v w) end.
  reflexivity.
Qed.

(** C4: a key that was never set and that no registered provider covers
    reads as 0 and as absent, and neither [Get] nor [Has] changes the
    store (nor the providers' world). *)
Theorem C4_unset_key_reads_default (s : State W) (k : string) :
  StdMap.sorted (storage (store s)) = true ->
  StdMap.find k (storage (store s)) = None ->
  covered_by_prefix k (store s) = false ->
  fst (Get k s) = 0 /\ fst (Has k s) = false /\
  store (snd (Get k s)) = store s /\ world (snd (Get k s)) = world s /\
  store (snd (Has k s)) = store s /\ world (snd (Has k s)) = world s.
Proof.
  intros Hs Hfind Hcov.
  pose proof (GetEntry_uncovered _ _ Hs Hfind Hcov) as HG.
  rewrite (Get_unresolved _ _ HG), (Has_unresolved _ _ HG). simpl. auto 6.
Qed.

(** C5: [Set] on a key that does not resolve to a provider-backed entry
    succeeds, creating an inline entry when the key was absent, and
    afterwards [Get] returns the value set and [Has] returns true. *)
Theorem C5_set_then_get (s : State W) (k : string) (v : Z) :
  StdMap.sorted (storage (store s)) = true ->
  provider_backed (GetEntry k (store s)) = false ->
  let s' := snd (Set_ k v s) in
  fst (Set_ k v s) = true /\
  fst (Get k s') = v /\ fst (Has k s') = true /\
  (exists e, StdMap.find k (storage (store s')) = Some e /\
             provider e = None /\ value e = v) /\
  (StdMap.find k (storage (store s)) = None ->
   StdMap.find k (storage (store s')) = Some (set_value v ConditionEntry0)).
Proof.
  intros Hs Hpb s'.
  assert (Hres : fst (Set_ k v s) = true /\
            StdMap.sorted (storage (store s')) = true /\
            StdMap.find k (storage (store s'))
            = Some (set_value v (default ConditionEntry0
                                   (StdMap.find k (storage (store s))))) /\
            provider (default ConditionEntry0 (StdMap.find k (storage (store s)))) = None).
  { subst s'. run.
    destruct (GetEntry k (store s)) as [[k' e] |] eqn:HG.
    - simpl in Hpb. apply bool_decide_eq_false in Hpb.
      destruct (provider e) as [p |] eqn:Hp; [exfalso; apply Hpb; eauto |].
      pose proof (GetEntry_inline _ _ _ _ HG Hp) as ->.
      apply GetEntry_In in HG. apply (find_In _ _ _ Hs) in HG.
      simpl. rewrite find_modify, String.eqb_refl, HG. simpl.
      repeat split; auto using sorted_modify.
    - pose proof (GetEntry_None_find _ _ Hs HG) as Hfind.
      simpl. rewrite find_at_key_same, Hfind. simpl.
      repeat split; auto using sorted_at_key. }
  destruct Hres as (Hret & Hs' & Hfind' & Hprov).
  pose proof (GetEntry_exact _ _ _ Hs' Hfind') as HG'.
  split; [exact Hret |].
  rewrite (Get_inline _ _ _ _ HG'), (Has_inline _ _ _ _ HG') by exact Hprov.
  simpl. repeat split; [eauto |].
  intros Hnone. rewrite Hfind', Hnone. reflexivity.
Qed.

(** C6: [Erase] of a key that resolves to no entry returns true and
    leaves the index and the provider registry as they were. *)
Theorem C6_erase_absent (s : State W) (k : string) :
  GetEntry k (store s) = None ->
  fst (Erase k s) = true /\
  storage (store (snd (Erase k s))) = storage (store s) /\
  providers (store (snd (Erase k s))) = providers (store s) /\
  world (snd (Erase k s)) = world s.
Proof. intros H. run. rewrite H. simpl. auto. Qed.

(** C7: [Add] returns what [Set(name, Get(name) + delta)] returns and
    leaves the state that composite call leaves; it resolves the name
    twice. *)
Theorem C7_add_is_set_of_get (s : State W) (nm : string) (delta : Z) :
  Add nm delta s = Set_of_Get_plus nm delta s /\
  lookups (snd (Add nm delta s)) = S (S (lookups s)).
Proof.
  assert (H : Add nm delta s = Set_of_Get_plus nm delta s).
  { unfold Add, Set_of_Get_plus, mbind, M_bind, bind.
    destruct (Get nm s) as [g s1]. reflexivity. }
  split; [exact H |].
  rewrite H. unfold Set_of_Get_plus. rewrite Set_lookups, Get_lookups. reflexivity.
Qed.

(** C10: [Erase] of a name that resolves to a provider-backed entry calls
    the provider's erase callback with that name and returns its result;
    the index and the registry are unchanged whatever the callback
    returns. *)
Theorem C10_erase_derived_keeps_index (s : State W) (nm : string) :
  provider_backed (GetEntry nm (store s)) = true ->
  storage (store (snd (Erase nm s))) = storage (store s) /\
  providers (store (snd (Erase nm s))) = providers (store s) /\
  exists k e p, GetEntry nm (store s) = Some (k, e) /\ provider e = Some p /\
    fst (Erase nm s) = fst (eraseFunction (provider_at (store s) p) nm (world s)) /\
    world (snd (Erase nm s)) = snd (eraseFunction (provider_at (store s) p) nm (world s)).
Proof.
  intros Hpb. run.
  destruct (GetEntry nm (store s)) as [[k e] |] eqn:HG; [| discriminate].
  simpl in Hpb. apply bool_decide_eq_true in Hpb. destruct Hpb as [p Hp]. rewrite Hp.
  simpl.
  match goal with
  | |- context [eraseFunction ?P nm ?w] => destruct (eraseFunction P nm w) as [r w'] eqn:He
  end.
  simpl. repeat split. exists k, e, p. rewrite He. auto.
Qed.

Lemma emplace_lookup key (P : DerivedProvider W) (m : gmap string (DerivedProvider W)) q Q :
  m !! q = Some Q -> emplace key P m !! q = Some Q.
Proof.
  intros H. unfold emplace. destruct (m !! key) eqn:Hk; [exact H |].
  rewrite lookup_insert_ne; [exact H | congruence].
Qed.

Lemma emplace_lookup_same key (P : DerivedProvider W) (m : gmap string (DerivedProvider W)) :
  emplace key P m !! key = Some (default P (m !! key)).
Proof.
  unfold emplace. destruct (m !! key) eqn:Hk; simpl; [exact Hk |].
  apply lookup_insert_eq.
Qed.

Lemma registered_provider p b st :
  registered p b st = true ->
  exists e P, StdMap.find p (storage st) = Some e /\ provider e = Some p /\
              providers st !! p = Some P /\ name P = p /\ isPrefixProvider P = b.
Proof.
  unfold registered.
  destruct (StdMap.find p (storage st)) as [e |]; [| discriminate].
  destruct (providers st !! p) as [P |]; [| discriminate].
  intros H. apply andb_prop in H as [H Hflag]. apply andb_prop in H as [Hptr Hname].
  apply bool_decide_eq_true in Hptr. apply String.eqb_eq in Hname.
  apply Bool.eqb_prop in Hflag. exists e, P. auto.
Qed.


Section Registration.
Variable getFunction0 : string -> W -> Z * W.
Variable hasFunction0 : string -> W -> bool * W.
Variable setFunction0 : string -> Z -> W -> bool * W.
Variable eraseFunction0 : string -> W -> bool * W.

Local Abbreviation GetProviderNamed :=
  (GetProviderNamed getFunction0 hasFunction0 setFunction0 eraseFunction0).
Local Abbreviation GetProviderPrefixed :=
  (GetProviderPrefixed getFunction0 hasFunction0 setFunction0 eraseFunction0).

Lemma registered_GetProviderNamed p b n s :
  registered p b (store s) = true ->
  registered p b (store (snd (GetProviderNamed n s))) = true.
Proof.
  intros Hreg.
  destruct (registered_provider _ _ _ Hreg) as (e & P & Hfind & Hp & HP & Hname & Hflag).
  unfold registered. run.
  rewrite (emplace_lookup _ _ _ _ _ HP).
  destruct (String.eqb_spec p n) as [-> | Hne].
  - rewrite find_at_key_same. simpl.
    rewrite bool_decide_eq_true_2 by reflexivity.
    rewrite Hname, String.eqb_refl, Hflag, Bool.eqb_reflx. reflexivity.
  - rewrite find_at_key_other by assumption. rewrite Hfind.
    rewrite bool_decide_eq_true_2 by assumption.
    rewrite Hname, String.eqb_refl, Hflag, Bool.eqb_reflx. reflexivity.
Qed.

(** Registering a prefix provider under a free name makes it the
    provider of the entry at that name. *)
Lemma GetProviderPrefixed_registered p s :
  providers (store s) !! p = None ->
  registered p true (store (snd (GetProviderPrefixed p s))) = true.
Proof.
  intros Hfree. unfold registered. run.
  rewrite find_at_key_same, emplace_lookup_same, Hfree. simpl.
  rewrite bool_decide_eq_true_2 by reflexivity.
  rewrite String.eqb_refl. reflexivity.
Qed.


End Registration.

End Operations.

(** * The iterator over the primary conditions *)

Section Iteration.
Context {W : Type}.
Implicit Types (st : ConditionsStore W) (it : PrimariesIterator)
  (m acc : StdMap.t ConditionEntry).

Lemma skip_derived_step (endIt pos : CondMapItType) :
  skip_derived endIt pos =
  if negb (StdMap.iter_eqb pos endIt) && has_provider pos
  then skip_derived endIt (StdMap.incr pos) else pos.
Proof.
  rewrite skip_derived_equation_1.
  destruct (inspect (negb (StdMap.iter_eqb pos endIt) && has_provider pos)) as [b Hb].
  destruct b; simpl; rewrite Hb; reflexivity.
Qed.

Lemma for_primaries_step {A : Type} st (body : string * Z -> A -> A) it (a : A) :
  for_primaries st body it a =
  if operator_neq it (PrimariesEnd st)
  then for_primaries st body (operator_incr it) (body (operator_arrow it) a)
  else a.
Proof.
  rewrite for_primaries_equation_1.
  destruct (inspect (operator_neq it (PrimariesEnd st))) as [b Hb].
  destruct b; simpl; rewrite Hb; reflexivity.
Qed.

Lemma iter_eqb_end acc m (m' : StdMap.t ConditionEntry) :
  StdMap.iter_eqb (StdMap.Iterator acc m) (StdMap.end_ m')
  = match m with [] => true | _ => false end.
Proof. destruct m; reflexivity. Qed.

Lemma PrimariesEnd_position st :
  condMapIt (PrimariesEnd st) = StdMap.end_ (storage st).
Proof.
  unfold PrimariesEnd, PrimariesIterator_new, MoveToValueCondition. simpl.
  rewrite skip_derived_step.
  change (StdMap.iter_eqb (StdMap.end_ (storage st)) (StdMap.end_ (storage st)))
    with (StdMap.iter_eqb (StdMap.Iterator (rev (storage st)) []) (StdMap.end_ (storage st))).
  rewrite iter_eqb_end. reflexivity.
Qed.

(** Positioning on a derived entry is positioning on the next entry. *)
Lemma Move_skips st acc k e m itv :
  is_Some (provider e) ->
  MoveToValueCondition
    {| condMapIt := StdMap.Iterator acc ((k, e) :: m);
       condMapEnd := StdMap.end_ (storage st); itVal := itv |}
  = MoveToValueCondition
      {| condMapIt := StdMap.Iterator ((k, e) :: acc) m;
         condMapEnd := StdMap.end_ (storage st); itVal := itv |}.
Proof.
  intros Hp. unfold MoveToValueCondition. simpl.
  rewrite (skip_derived_step _ (StdMap.Iterator acc ((k, e) :: m))).
  rewrite iter_eqb_end. unfold has_provider. simpl.
  rewrite bool_decide_eq_true_2 by exact Hp. reflexivity.
Qed.

(** Positioning on a primary entry stays there and copies the pair. *)
Lemma Move_stays st acc k e m itv :
  provider e = None ->
  MoveToValueCondition
    {| condMapIt := StdMap.Iterator acc ((k, e) :: m);
       condMapEnd := StdMap.end_ (storage st); itVal := itv |}
  = {| condMapIt := StdMap.Iterator acc ((k, e) :: m);
       condMapEnd := StdMap.end_ (storage st); itVal := (k, value e) |}.
Proof.
  intros Hp. unfold MoveToValueCondition. simpl.
  rewrite (skip_derived_step _ (StdMap.Iterator acc ((k, e) :: m))).
  rewrite iter_eqb_end. unfold has_provider. simpl.
  rewrite bool_decide_eq_false_2 by (rewrite Hp; intros [? ?]; discriminate).
  simpl. reflexivity.
Qed.

Lemma Move_end st acc itv :
  MoveToValueCondition
    {| condMapIt := StdMap.Iterator acc [];
       condMapEnd := StdMap.end_ (storage st); itVal := itv |}
  = {| condMapIt := StdMap.Iterator acc [];
       condMapEnd := StdMap.end_ (storage st); itVal := itv |}.
Proof.
  unfold MoveToValueCondition. simpl.
  rewrite (skip_derived_step _ (StdMap.Iterator acc [])).
  rewrite iter_eqb_end. reflexivity.
Qed.

Lemma primary_pairs_cons k e m :
  primary_pairs ((k, e) :: m)
  = match provider e with
    | Some _ => primary_pairs m
    | None => (k, value e) :: primary_pairs m
    end.
Proof.
  unfold primary_pairs. simpl. destruct (provider e) as [p |]; reflexivity.
Qed.

(** The loop runs its body on the pairs of the primary entries from the
    position on, in order. *)
Lemma for_primaries_from {A : Type} st (body : string * Z -> A -> A) m :
  forall acc itv (a : A),
    for_primaries st body
      (MoveToValueCondition
         {| condMapIt := StdMap.Iterator acc m;
            condMapEnd := StdMap.end_ (storage st); itVal := itv |}) a
    = fold_left (fun a x => body x a) (primary_pairs m) a.
Proof.
  induction m as [| [k e] m IH]; intros acc itv a.
  - rewrite Move_end, for_primaries_step. unfold operator_neq.
    rewrite PrimariesEnd_position. cbn [condMapIt]. rewrite iter_eqb_end. reflexivity.
  - rewrite primary_pairs_cons. destruct (provider e) as [p |] eqn:Hp.
    + rewrite Move_skips by (rewrite Hp; eauto). apply IH.
    + rewrite Move_stays by exact Hp. rewrite for_primaries_step. unfold operator_neq.
      rewrite PrimariesEnd_position. cbn [condMapIt]. rewrite iter_eqb_end.
      cbn [negb]. unfold operator_incr, operator_arrow.
      cbn [condMapIt condMapEnd itVal StdMap.incr StdMap.rest StdMap.passed]. apply IH.
Qed.

Lemma begin_neq_end st m :
  forall acc itv,
    operator_neq
      (MoveToValueCondition
         {| condMapIt := StdMap.Iterator acc m;
            condMapEnd := StdMap.end_ (storage st); itVal := itv |})
      (PrimariesEnd st)
    = match primary_pairs m with [] => false | _ => true end.
Proof.
  induction m as [| [k e] m IH]; intros acc itv.
  - rewrite Move_end. unfold operator_neq. rewrite PrimariesEnd_position.
    cbn [condMapIt]. rewrite iter_eqb_end. reflexivity.
  - rewrite primary_pairs_cons. destruct (provider e) as [p |] eqn:Hp.
    + rewrite Move_skips by (rewrite Hp; eauto). apply IH.
    + rewrite Move_stays by exact Hp. unfold operator_neq.
      rewrite PrimariesEnd_position. cbn [condMapIt]. rewrite iter_eqb_end. reflexivity.
Qed.

Lemma fold_left_snoc {A : Type} (l acc : list A) :
  fold_left (fun a x => List.app a [x]) l acc = List.app acc l.
Proof.
  revert acc. induction l as [| x l IH]; intros acc; simpl.
  - rewrite List.app_nil_r. reflexivity.
  - rewrite IH, <- List.app_assoc. reflexivity.
Qed.

Lemma primaries_pairs st : primaries st = primary_pairs (storage st).
Proof.
  unfold primaries, PrimariesBegin, PrimariesIterator_new, StdMap.begin_.
  rewrite for_primaries_from, fold_left_snoc. reflexivity.
Qed.

Lemma In_primary_pairs m k v :
  In (k, v) (primary_pairs m) <->
  exists e, In (k, e) m /\ provider e = None /\ value e = v.
Proof.
  unfold primary_pairs. rewrite in_map_iff. split.
  - intros ([k' e] & [= <- <-] & Hin). apply filter_In in Hin as [Hin Hf].
    simpl in Hf. apply negb_true_iff, bool_decide_eq_false in Hf.
    exists e. repeat split; [exact Hin |].
    destruct (provider e); [exfalso; apply Hf; eauto | reflexivity].
  - intros (e & Hin & Hp & <-). exists (k, e). split; [reflexivity |].
    apply filter_In. split; [exact Hin |]. simpl.
    apply negb_true_iff, bool_decide_eq_false. rewrite Hp. intros [? ?]. discriminate.
Qed.

Lemma sorted_primary_pairs m :
  StdMap.sorted m = true -> StdMap.sorted (primary_pairs m) = true.
Proof.
  induction m as [| [k e] m IH]; intros Hs; [reflexivity |].
  pose proof (sorted_tail _ _ _ Hs) as Hs'.
  rewrite primary_pairs_cons. destruct (provider e); [exact (IH Hs') |].
  apply sorted_cons. split; [| exact (IH Hs')].
  apply List.Forall_forall. intros [k' v'] Hin. simpl.
  apply In_primary_pairs in Hin as (e' & Hin & _).
  exact (sorted_above _ _ _ _ _ Hs Hin).
Qed.

(** C8: iterating from [PrimariesBegin()] to [PrimariesEnd()] yields the
    (key, value) pairs of exactly the entries without provider, in
    ascending key order; what a dereference returns is the pair the
    iterator holds, copied when it was positioned. *)
Theorem C8_primaries_iteration (st : ConditionsStore W) :
  StdMap.sorted (storage st) = true ->
  primaries st = primary_pairs (storage st) /\
  (forall k v, In (k, v) (primaries st) <->
     exists e, In (k, e) (storage st) /\ provider e = None /\ value e = v) /\
  StdMap.sorted (primaries st) = true /\
  (forall it, operator_star it = itVal it /\ operator_arrow it = itVal it) /\
  (forall acc k e m itv, provider e = None ->
     operator_star
       (MoveToValueCondition
          {| condMapIt := StdMap.Iterator acc ((k, e) :: m);
             condMapEnd := StdMap.end_ (storage st); itVal := itv |})
     = (k, value e)).
Proof.
  intros Hs. rewrite primaries_pairs.
  split; [reflexivity |]. split; [intros k v; apply In_primary_pairs |].
  split; [apply sorted_primary_pairs; exact Hs |].
  split; [intros it; split; reflexivity |].
  intros acc k e m itv Hp. rewrite Move_stays by exact Hp. reflexivity.
Qed.

End Iteration.

(** * The invariant of the store *)

Section Invariant.
Context {W : Type}.
Variable getFunction0 : string -> W -> Z * W.
Variable hasFunction0 : string -> W -> bool * W.
Variable setFunction0 : string -> Z -> W -> bool * W.
Variable eraseFunction0 : string -> W -> bool * W.
Implicit Types (st : ConditionsStore W) (s : State W) (nm k p : string)
  (e : ConditionEntry) (v : Z).

Local Abbreviation GetProviderNamed :=
  (GetProviderNamed getFunction0 hasFunction0 setFunction0 eraseFunction0).
Local Abbreviation GetProviderPrefixed :=
  (GetProviderPrefixed getFunction0 hasFunction0 setFunction0 eraseFunction0).

Lemma registry_named_spec st :
  registry_namedb st = true <->
  (forall p P, providers st !! p = Some P -> name P = p).
Proof.
  unfold registry_namedb. rewrite forallb_forall. split.
  - intros H p P HP. apply String.eqb_eq.
    apply (H (p, P)). apply list_elem_of_In, elem_of_map_to_list. exact HP.
  - intros H [p P] Hin. apply String.eqb_eq. apply H.
    apply elem_of_map_to_list, list_elem_of_In. exact Hin.
Qed.

Lemma provider_inv_spec st : provider_invb st = true <-> provider_inv st.
Proof.
  unfold provider_invb, provider_inv, entry_ok. rewrite forallb_forall. split.
  - intros H k e p Hin Hp. specialize (H _ Hin). simpl in H. rewrite Hp in H.
    destruct (providers st !! p) as [P |]; [| discriminate].
    exists P. split; [reflexivity |].
    apply orb_prop in H as [H | H]; [left; apply String.eqb_eq; exact H | right; exact H].
  - intros H [k e] Hin. simpl. destruct (provider e) as [p |] eqn:Hp; [| reflexivity].
    destruct (H _ _ _ Hin Hp) as (P & -> & [<- | Hst]).
    + rewrite String.eqb_refl. reflexivity.
    + rewrite Hst. apply orb_true_r.
Qed.

Lemma store_ok_spec st :
  store_ok st = true <->
  StdMap.sorted (storage st) = true /\
  (forall p P, providers st !! p = Some P -> name P = p) /\
  provider_inv st.
Proof.
  unfold store_ok. rewrite !andb_true_iff, registry_named_spec, provider_inv_spec. tauto.
Qed.

(** Replacing the index by one whose entries carry no new pointers, or
    pointers that satisfy the invariant, keeps the store well formed. *)
Lemma store_ok_storage st m' :
  store_ok st = true ->
  StdMap.sorted m' = true ->
  (forall k e, In (k, e) m' ->
     provider e = None \/
     (exists e0, In (k, e0) (storage st) /\ provider e0 = provider e) \/
     (exists p P, provider e = Some p /\ providers st !! p = Some P /\
                  StdString.starts_with (name P) k = true)) ->
  store_ok {| storage := m'; providers := providers st |} = true.
Proof.
  intros Hok Hs' Hall. apply store_ok_spec in Hok as (Hs & Hnamed & Hinv).
  apply store_ok_spec. simpl. split; [exact Hs' |]. split; [exact Hnamed |].
  intros k e p Hin Hp. simpl in *.
  destruct (Hall _ _ Hin) as [Hnone | [(e0 & Hin0 & Hp0) | (q & Q & Hq & HQ & Hst)]].
  - congruence.
  - apply (Hinv k e0 p Hin0). congruence.
  - exists Q. split; [congruence | right; exact Hst].
Qed.

Lemma store_eta st : {| storage := storage st; providers := providers st |} = st.
Proof. destruct st. reflexivity. Qed.

Lemma store_ok_Set nm v s :
  store_ok (store s) = true -> store_ok (store (snd (Set_ nm v s))) = true.
Proof.
  intros Hok. pose proof (proj1 (store_ok_spec _) Hok) as (Hs & _ & _). run.
  destruct (GetEntry nm (store s)) as [[k' e'] |] eqn:HG.
  - destruct (provider e') as [p |] eqn:Hp; simpl.
    + match goal with
      | |- context [setFunction ?P nm v ?w] => destruct (setFunction P nm v w)
      end. exact Hok.
    + apply store_ok_storage; [exact Hok | apply sorted_modify; exact Hs |].
      intros k e Hin. right. left.
      apply In_modify in Hin as (e0 & Hin0 & [-> | [_ ->]]); exists e0; auto.
  - simpl. apply store_ok_storage; [exact Hok | apply sorted_at_key; exact Hs |].
    intros k e Hin. apply In_at_key in Hin; [| exact Hs].
    destruct Hin as [[-> ->] | [_ Hin]].
    + destruct (StdMap.find nm (storage (store s))) as [e0 |] eqn:Hfind; simpl.
      * right. left. exists e0. split; [| reflexivity].
        apply find_In; assumption.
      * left. reflexivity.
    + right. left. exists e. auto.
Qed.

Lemma store_ok_Erase nm s :
  store_ok (store s) = true -> store_ok (store (snd (Erase nm s))) = true.
Proof.
  intros Hok. pose proof (proj1 (store_ok_spec _) Hok) as (Hs & _ & _). run.
  destruct (GetEntry nm (store s)) as [[k' e'] |] eqn:HG; [| exact Hok].
  destruct (provider e') as [p |] eqn:Hp; simpl.
  - match goal with
    | |- context [eraseFunction ?P nm ?w] => destruct (eraseFunction P nm w)
    end. exact Hok.
  - apply store_ok_storage; [exact Hok | apply sorted_erase; exact Hs |].
    intros k e Hin. right. left. exists e. split; [| reflexivity].
    eapply In_erase. exact Hin.
Qed.

Lemma store_ok_brackets nm s :
  store_ok (store s) = true ->
  store_ok (store (snd (operator_brackets nm s))) = true.
Proof.
  intros Hok. pose proof (proj1 (store_ok_spec _) Hok) as (Hs & _ & _).
  unfold operator_brackets. run.
  destruct (StdMap.find nm (storage (store s))) as [e0 |] eqn:Hfind; [exact Hok |].
  destruct (GetEntry nm (store s)) as [[k' pe] |] eqn:HG; simpl.
  - apply store_ok_storage; [exact Hok | apply sorted_at_key; exact Hs |].
    intros k e Hin. apply In_at_key in Hin; [| exact Hs].
    destruct Hin as [[-> ->] | [_ Hin]]; [| right; left; exists e; auto].
    right. right. simpl.
    assert (Hne : k' <> nm).
    { intros ->. apply GetEntry_In in HG. apply (find_In _ _ _ Hs) in HG. congruence. }
    destruct (GetEntry_prefix _ _ _ _ HG Hne) as (p & P & Hp & HP & _ & Hst).
    exists p, P. auto.
  - apply store_ok_storage; [exact Hok | apply sorted_at_key; exact Hs |].
    intros k e Hin. apply In_at_key in Hin; [| exact Hs].
    destruct Hin as [[-> ->] | [_ Hin]]; [| right; left; exists e; auto].
    left. rewrite Hfind. reflexivity.
Qed.

Lemma store_ok_Load_children cs :
  forall s, store_ok (store s) = true ->
            store_ok (store (snd (Load_children cs s))) = true.
Proof.
  induction cs as [| child cs IH]; intros s Hok; [exact Hok |].
  simpl. unfold mbind, M_bind, bind.
  destruct (Set_ _ _ s) as [r s1] eqn:HS.
  apply IH. change s1 with (snd (r, s1)). rewrite <- HS. apply store_ok_Set. exact Hok.
Qed.

Lemma store_ok_register nm b s :
  store_ok (store s) = true ->
  store_ok
    {| storage := StdMap.at_key ConditionEntry0 nm (set_provider (Some nm))
                    (storage (store s));
       providers := emplace nm
                      (DerivedProvider_new getFunction0 hasFunction0 setFunction0
                         eraseFunction0 nm b)
                      (providers (store s)) |} = true.
Proof.
  intros Hok. apply store_ok_spec in Hok as (Hs & Hnamed & Hinv).
  apply store_ok_spec. simpl. split; [apply sorted_at_key; exact Hs |]. split.
  - intros p P. unfold emplace.
    destruct (providers (store s) !! nm) eqn:Hnm; [apply Hnamed |].
    destruct (String.eqb_spec nm p) as [-> | Hne].
    + rewrite lookup_insert_eq. intros [= <-]. reflexivity.
    + rewrite lookup_insert_ne by exact Hne. apply Hnamed.
  - intros k e p Hin Hp. simpl in *. apply In_at_key in Hin; [| exact Hs].
    destruct Hin as [[-> ->] | [_ Hin]].
    + simpl in Hp. injection Hp as <-. rewrite emplace_lookup_same.
      eexists. split; [reflexivity |]. left.
      destruct (providers (store s) !! nm) as [P |] eqn:HP; simpl; [| reflexivity].
      exact (Hnamed _ _ HP).
    + destruct (Hinv _ _ _ Hin Hp) as (P & HP & Hk).
      exists P. split; [| exact Hk]. apply emplace_lookup. exact HP.
Qed.

Lemma store_Get nm s : store (snd (Get nm s)) = store s.
Proof.
  run. destruct (GetEntry nm (store s)) as [[k e] |]; [| reflexivity].
  destruct (provider e); [| reflexivity].
  match goal with |- context [getFunction ?P nm ?w] => destruct (getFunction P nm w) end.
  reflexivity.
Qed.

Lemma store_Has nm s : store (snd (Has nm s)) = store s.
Proof.
  run. destruct (GetEntry nm (store s)) as [[k e] |]; [| reflexivity].
  destruct (provider e); [| reflexivity].
  match goal with |- context [hasFunction ?P nm ?w] => destruct (hasFunction P nm w) end.
  reflexivity.
Qed.

Lemma store_HasGet nm s : store (snd (HasGet nm s)) = store s.
Proof.
  unfold HasGet. run. destruct (GetEntry nm (store s)) as [[k e] |]; [| reflexivity].
  destruct (provider e); [| reflexivity]. simpl.
  match goal with |- context [hasFunction ?P nm ?w] => destruct (hasFunction P nm w) as [[] w'] end;
    simpl; [| reflexivity].
  match goal with |- context [getFunction ?P nm ?w] => destruct (getFunction P nm w) end.
  reflexivity.
Qed.

(** Rewiring a callback of a provider changes neither its name nor any
    pointer. *)
Lemma store_ok_put_provider p (f : DerivedProvider W -> DerivedProvider W) s :
  (forall P, name (f P) = name P) ->
  store_ok (store s) = true ->
  store_ok (store (snd (put_provider p f s))) = true.
Proof.
  intros Hf Hok. apply store_ok_spec in Hok as (Hs & Hnamed & Hinv).
  apply store_ok_spec. unfold put_provider. run.
  split; [exact Hs |]. split.
  - intros q Q. rewrite lookup_alter. case_decide as Hpq.
    + subst q. destruct (providers (store s) !! p) as [P |] eqn:HP; [| discriminate].
      simpl. intros [= <-]. rewrite Hf. exact (Hnamed _ _ HP).
    + apply Hnamed.
  - intros k e q Hin Hq. simpl in *.
    destruct (Hinv _ _ _ Hin Hq) as (Q & HQ & Hk).
    rewrite lookup_alter. case_decide as Hpq.
    + subst q. rewrite HQ. simpl. exists (f Q). rewrite Hf. auto.
    + exists Q. auto.
Qed.

(** Every store a program reaches is well formed. *)
Lemma reachable_store_ok s :
  reachable getFunction0 hasFunction0 setFunction0 eraseFunction0 s ->
  store_ok (store s) = true.
Proof.
  induction 1 as [w n | s w _ IH | nm s _ IH | nm s _ IH | nm s _ IH | nm v s _ IH
                 | nm v s _ IH | nm s _ IH | nm s _ IH | node s _ IH | prefix s _ IH
                 | nm s _ IH | s _ IH | p f s _ IH | p f s _ IH | p f s _ IH
                 | p f s _ IH].
  - apply store_ok_spec. simpl. split; [reflexivity |]. split.
    + intros p P. rewrite lookup_empty. discriminate.
    + intros k e p [].
  - exact IH.
  - rewrite store_Get. exact IH.
  - rewrite store_Has. exact IH.
  - rewrite store_HasGet. exact IH.
  - apply store_ok_Set, IH.
  - unfold Add, mbind, M_bind, bind. destruct (Get nm s) as [g s1] eqn:HG.
    apply store_ok_Set. change s1 with (snd (g, s1)). rewrite <- HG, store_Get. exact IH.
  - apply store_ok_Erase, IH.
  - apply store_ok_brackets, IH.
  - apply store_ok_Load_children, IH.
  - run. apply store_ok_register, IH.
  - run. apply store_ok_register, IH.
  - apply store_ok_spec. simpl. split; [reflexivity |]. split.
    + intros p P. rewrite lookup_empty. discriminate.
    + intros k e p [].
  - apply store_ok_put_provider; [reflexivity | exact IH].
  - apply store_ok_put_provider; [reflexivity | exact IH].
  - apply store_ok_put_provider; [reflexivity | exact IH].
  - apply store_ok_put_provider; [reflexivity | exact IH].
Qed.

(** C9: every operation of the store keeps the invariant: each entry
    whose provider pointer is set points to a provider of the registry
    whose name is the entry's key or a prefix of it. *)
Theorem C9_invariant_preserved (s : State W) :
  store_ok (store s) = true ->
  (forall nm v, provider_inv (store (snd (Set_ nm v s)))) /\
  (forall nm, provider_inv (store (snd (Erase nm s)))) /\
  (forall nm, provider_inv (store (snd (operator_brackets nm s)))) /\
  (forall node, provider_inv (store (snd (Load node s)))) /\
  (forall nm, provider_inv (store (snd (GetProviderNamed nm s)))) /\
  (forall prefix, provider_inv (store (snd (GetProviderPrefixed prefix s)))) /\
  provider_inv (store (snd (Clear s))).
Proof.
  intros Hok. repeat split.
  - intros nm v. apply store_ok_spec, store_ok_Set, Hok.
  - intros nm. apply store_ok_spec, store_ok_Erase, Hok.
  - intros nm. apply store_ok_spec, store_ok_brackets, Hok.
  - intros node. apply store_ok_spec, store_ok_Load_children, Hok.
  - intros nm. apply store_ok_spec. run. apply store_ok_register, Hok.
  - intros prefix. apply store_ok_spec. run. apply store_ok_register, Hok.
  - intros k e p Hin. destruct Hin.
Qed.

End Invariant.

(** * Saving and loading *)

Section Serialisation.
Context {W : Type}.
Implicit Types (st : ConditionsStore W) (s : State W) (nm k p : string)
  (e : ConditionEntry) (v : Z).

Lemma fold_write (pairs : list (string * Z)) (out : DataWriter) :
  fold_left
    (fun out x =>
       if Z.eqb (snd x) 1 then DataWriter.Write [Text (fst x)] out
       else if negb (Z.eqb (snd x) 0) then
         DataWriter.Write [Text (fst x); Number (snd x)] out
       else out) pairs out
  = {| level := List.app (level out) (flat_map condition_node pairs);
       outer := outer out |}.
Proof.
  revert out. induction pairs as [| [k v] pairs IH]; intros out; simpl.
  - rewrite List.app_nil_r. destruct out. reflexivity.
  - rewrite IH. unfold condition_node. simpl.
    destruct (Z.eqb v 1); [| destruct (Z.eqb v 0)]; simpl;
      rewrite <- ?List.app_assoc; reflexivity.
Qed.

(** What [Save] writes into a new writer: nothing when there is no
    primary entry, else one node ["conditions"] whose children are the
    nodes of the primary pairs. *)
Lemma Save_new st :
  Save st DataWriter.new =
  match primary_pairs (storage st) with
  | [] => DataWriter.new
  | _ => {| level := [Node [Text "conditions"]
                        (flat_map condition_node (primary_pairs (storage st)))];
            outer := [] |}
  end.
Proof.
  unfold Save, PrimariesBegin, PrimariesIterator_new, StdMap.begin_.
  rewrite begin_neq_end. destruct (primary_pairs (storage st)) as [| x l] eqn:Hpp.
  - reflexivity.
  - cbv zeta. rewrite for_primaries_from, Hpp, fold_write. reflexivity.
Qed.

Lemma only_primaries_In st k e :
  only_primaries st = true -> In (k, e) (storage st) -> provider e = None.
Proof.
  unfold only_primaries. rewrite forallb_forall. intros H Hin.
  specialize (H _ Hin). simpl in H.
  apply negb_true_iff, bool_decide_eq_false in H.
  destruct (provider e); [exfalso; apply H; eauto | reflexivity].
Qed.

(** Without providers, resolution is the exact search. *)
Lemma GetEntry_primary nm st :
  StdMap.sorted (storage st) = true -> only_primaries st = true ->
  GetEntry nm st = option_map (pair nm) (StdMap.find nm (storage st)).
Proof.
  intros Hs Hop. destruct (StdMap.find nm (storage st)) as [e |] eqn:Hfind; simpl.
  - apply GetEntry_exact; assumption.
  - destruct (GetEntry nm st) as [[k e] |] eqn:HG; [| reflexivity]. exfalso.
    pose proof (GetEntry_In _ _ _ _ HG) as Hin.
    pose proof (only_primaries_In _ _ _ Hop Hin) as Hp.
    pose proof (GetEntry_inline _ _ _ _ HG Hp) as ->.
    apply (find_In _ _ _ Hs) in Hin. congruence.
Qed.

Lemma Get_primary nm s :
  StdMap.sorted (storage (store s)) = true -> only_primaries (store s) = true ->
  fst (Get nm s) = default 0 (option_map value (StdMap.find nm (storage (store s)))) /\
  fst (Has nm s) = bool_decide (is_Some (StdMap.find nm (storage (store s)))).
Proof.
  intros Hs Hop. pose proof (GetEntry_primary nm _ Hs Hop) as HG.
  destruct (StdMap.find nm (storage (store s))) as [e |] eqn:Hfind; simpl in *.
  - assert (Hp : provider e = None).
    { eapply only_primaries_In; [exact Hop |]. apply find_In; eassumption. }
    rewrite (Get_inline _ _ _ _ HG Hp), (Has_inline _ _ _ _ HG Hp).
    split; reflexivity.
  - rewrite (Get_unresolved _ _ HG), (Has_unresolved _ _ HG).
    split; reflexivity.
Qed.

Lemma Set_primary nm v s :
  StdMap.sorted (storage (store s)) = true -> only_primaries (store s) = true ->
  let s' := snd (Set_ nm v s) in
  StdMap.sorted (storage (store s')) = true /\ only_primaries (store s') = true /\
  forall k, option_map value (StdMap.find k (storage (store s')))
            = if String.eqb nm k then Some v
              else option_map value (StdMap.find k (storage (store s))).
Proof.
  intros Hs Hop s'. subst s'. run. rewrite (GetEntry_primary nm _ Hs Hop).
  destruct (StdMap.find nm (storage (store s))) as [e |] eqn:Hfind; simpl.
  - assert (Hp : provider e = None).
    { eapply only_primaries_In; [exact Hop |]. apply find_In; eassumption. }
    rewrite Hp. simpl. split; [apply sorted_modify; exact Hs |]. split.
    + unfold only_primaries. simpl. apply forallb_forall. intros [k e'] Hin. simpl.
      apply In_modify in Hin as (e0 & Hin0 & He).
      pose proof (only_primaries_In _ _ _ Hop Hin0) as Hp0.
      assert (Hp' : provider e' = None) by (destruct He as [-> | [_ ->]]; exact Hp0).
      rewrite Hp'. apply negb_true_iff, bool_decide_eq_false.
      intros [? ?]. discriminate.
    + intros k. rewrite find_modify.
      destruct (String.eqb_spec nm k) as [<- | Hne]; [| reflexivity].
      rewrite Hfind. reflexivity.
  - split; [apply sorted_at_key; exact Hs |]. split.
    + unfold only_primaries. simpl. apply forallb_forall. intros [k e'] Hin. simpl.
      apply In_at_key in Hin; [| exact Hs].
      assert (Hp' : provider e' = None).
      { destruct Hin as [[-> ->] | [_ Hin]].
        - rewrite Hfind. reflexivity.
        - exact (only_primaries_In _ _ _ Hop Hin). }
      rewrite Hp'. apply negb_true_iff, bool_decide_eq_false.
      intros [? ?]. discriminate.
    + intros k. destruct (String.eqb_spec nm k) as [<- | Hne].
      * rewrite find_at_key_same. reflexivity.
      * rewrite find_at_key_other by congruence. reflexivity.
Qed.

Lemma sorted_NoDup {V : Type} (m : StdMap.t V) :
  StdMap.sorted m = true -> List.NoDup (map fst m).
Proof.
  induction m as [| [k v] m IH]; intros Hs; simpl; [constructor |].
  constructor; [| exact (IH (sorted_tail _ _ _ Hs))].
  intros Hin. apply in_map_iff in Hin as ([k' v'] & Hk & Hin). simpl in Hk. subst k'.
  pose proof (sorted_above _ _ _ _ _ Hs Hin) as Hlt.
  rewrite less_irrefl in Hlt. discriminate.
Qed.

(** Loading the node of one saved pair is one [Set], or nothing for the
    value 0. *)
Lemma Load_condition_node k v (cs : list DataNode) s :
  snd (Load_children (List.app (condition_node (k, v)) cs) s)
  = if Z.eqb v 0 then snd (Load_children cs s)
    else snd (Load_children cs (snd (Set_ k v s))).
Proof.
  unfold condition_node. simpl.
  destruct (Z.eqb_spec v 1) as [-> | Hne1]; simpl.
  - unfold mbind, M_bind, bind, DataNode.Token, DataNode.Size, DataNode.Value. simpl.
    destruct (Set_ k 1 s). reflexivity.
  - destruct (Z.eqb_spec v 0) as [-> | Hne0]; simpl; [reflexivity |].
    unfold mbind, M_bind, bind, DataNode.Token, DataNode.Size, DataNode.Value. simpl.
    destruct (Set_ k v s). reflexivity.
Qed.

Lemma Load_condition_nodes (pairs : list (string * Z)) :
  forall s,
    List.NoDup (map fst pairs) ->
    StdMap.sorted (storage (store s)) = true -> only_primaries (store s) = true ->
    let s' := snd (Load_children (flat_map condition_node pairs) s) in
    StdMap.sorted (storage (store s')) = true /\ only_primaries (store s') = true /\
    forall k,
      (forall v, In (k, v) pairs -> v <> 0 ->
         option_map value (StdMap.find k (storage (store s'))) = Some v) /\
      ((forall v, In (k, v) pairs -> v = 0) ->
         option_map value (StdMap.find k (storage (store s')))
         = option_map value (StdMap.find k (storage (store s)))).
Proof.
  induction pairs as [| [k0 v0] pairs IH]; intros s Hnd Hs Hop; cbv zeta.
  - simpl. repeat split; auto. intros v [].
  - change (flat_map condition_node ((k0, v0) :: pairs))
      with (List.app (condition_node (k0, v0)) (flat_map condition_node pairs)).
    rewrite Load_condition_node. simpl in Hnd.
    apply List.NoDup_cons_iff in Hnd as [Hfresh Hnd].
    destruct (Z.eqb_spec v0 0) as [-> | Hne0].
    + destruct (IH s Hnd Hs Hop) as (Hs' & Hop' & Hk).
      split; [exact Hs' |]. split; [exact Hop' |]. intros k.
      destruct (Hk k) as [Hk1 Hk2]. split.
      * intros v [[= <- <-] | Hin] Hv; [contradiction | exact (Hk1 _ Hin Hv)].
      * intros Hall. apply Hk2. intros v Hin. apply Hall. right. exact Hin.
    + destruct (Set_primary k0 v0 s Hs Hop) as (Hs1 & Hop1 & Hfind1).
      destruct (IH (snd (Set_ k0 v0 s)) Hnd Hs1 Hop1) as (Hs' & Hop' & Hk).
      split; [exact Hs' |]. split; [exact Hop' |]. intros k.
      destruct (Hk k) as [Hk1 Hk2]. split.
      * intros v [[= <- <-] | Hin] Hv; [| exact (Hk1 _ Hin Hv)].
        rewrite Hk2, Hfind1, String.eqb_refl; [reflexivity |].
        intros v Hin. exfalso. apply Hfresh.
        apply in_map_iff. exists (k0, v). auto.
      * intros Hall. rewrite Hk2 by (intros v Hin; apply Hall; right; exact Hin).
        rewrite Hfind1. destruct (String.eqb_spec k0 k) as [<- | Hne]; [| reflexivity].
        exfalso. apply Hne0. apply Hall. left. reflexivity.
Qed.

Lemma In_condition_nodes k (pairs : list (string * Z)) :
  In (k, 1) pairs -> In (Node [Text k] []) (flat_map condition_node pairs).
Proof. intros Hin. apply in_flat_map. exists (k, 1). split; [exact Hin | left; reflexivity]. Qed.

(** C2: a store with primary entries only, saved and loaded into a new
    store, gives the same [Get] for every key whose value was not 0 and
    [Get] 0 with [Has] false for every key whose value was 0; an entry
    with value 1 is written as a bare key and loads back as 1. *)
Theorem C2_save_load_round_trip (st : ConditionsStore W) (w w' : W) (n n' : nat) :
  StdMap.sorted (storage st) = true ->
  only_primaries st = true ->
  let before := {| store := st; world := w; lookups := n |} in
  let saved := level (Save st DataWriter.new) in
  let after :=
    snd (Load_nodes saved {| store := ConditionsStore0; world := w'; lookups := n' |}) in
  (forall k, fst (Get k before) <> 0 -> fst (Get k after) = fst (Get k before)) /\
  (forall k, fst (Get k before) = 0 ->
     fst (Get k after) = 0 /\ fst (Has k after) = false) /\
  (forall k e, In (k, e) (storage st) -> value e = 1 ->
     (exists cs, saved = [Node [Text "conditions"] cs] /\ In (Node [Text k] []) cs) /\
     fst (Get k after) = 1).
Proof.
  intros Hs Hop before saved after.
  set (fresh := {| store := ConditionsStore0; world := w'; lookups := n' |}) in *.
  set (pairs := primary_pairs (storage st)).
  assert (Hafter : after = snd (Load_children (flat_map condition_node pairs) fresh)).
  { subst after saved. rewrite Save_new. fold pairs.
    destruct pairs as [| x l]; [reflexivity |].
    simpl level. simpl Load_nodes. unfold Load. simpl DataNode.children.
    unfold mbind, M_bind, bind, ret.
    destruct (Load_children _ fresh). reflexivity. }
  assert (Hnd : List.NoDup (map fst pairs)).
  { apply sorted_NoDup. apply sorted_primary_pairs. exact Hs. }
  destruct (Load_condition_nodes pairs fresh Hnd eq_refl eq_refl) as (Hs' & Hop' & Hk).
  rewrite <- Hafter in Hs', Hop', Hk.
  assert (Hpairs : forall k v, In (k, v) pairs <->
            option_map value (StdMap.find k (storage st)) = Some v).
  { intros k v. unfold pairs. rewrite In_primary_pairs. split.
    - intros (e & Hin & _ & <-). apply (find_In _ _ _ Hs) in Hin. rewrite Hin. reflexivity.
    - destruct (StdMap.find k (storage st)) as [e |] eqn:Hfind; [| discriminate].
      intros [= <-]. apply (find_In _ _ _ Hs) in Hfind.
      exists e. repeat split; [exact Hfind |].
      exact (only_primaries_In _ _ _ Hop Hfind). }
  assert (Hbefore : forall k, fst (Get k before)
            = default 0 (option_map value (StdMap.find k (storage st)))).
  { intros k. apply (Get_primary k before); assumption. }
  assert (Hget : forall k, fst (Get k after)
            = default 0 (option_map value (StdMap.find k (storage (store after))))).
  { intros k. apply (Get_primary k after); assumption. }
  assert (Hnonzero : forall k, fst (Get k before) <> 0 ->
            fst (Get k after) = fst (Get k before)).
  { intros k Hne. rewrite Hbefore in Hne |- *. rewrite Hget.
    destruct (option_map value (StdMap.find k (storage st))) as [v |] eqn:Hv;
      simpl in *; [| contradiction].
    destruct (Hk k) as [Hk1 _]. rewrite (Hk1 v); [reflexivity | | exact Hne].
    apply Hpairs. exact Hv. }
  split; [exact Hnonzero |]. split.
  - intros k Hz. rewrite Hbefore in Hz.
    destruct (Hk k) as [_ Hk2].
    assert (Hnone : StdMap.find k (storage (store after)) = None).
    { assert (H0 : option_map value (StdMap.find k (storage (store after))) = None).
      { rewrite Hk2; [reflexivity |]. intros v Hin. apply Hpairs in Hin.
        rewrite Hin in Hz. exact Hz. }
      destruct (StdMap.find k (storage (store after))); [discriminate | reflexivity]. }
    rewrite Hget. destruct (Get_primary k after Hs' Hop') as [_ ->].
    rewrite Hnone. split; reflexivity.
  - intros k e Hin He.
    assert (Hp : In (k, 1) pairs).
    { apply In_primary_pairs. exists e. repeat split; [exact Hin | | exact He].
      exact (only_primaries_In _ _ _ Hop Hin). }
    split.
    + subst saved. rewrite Save_new. fold pairs.
      destruct pairs as [| x l] eqn:Hpp; [destruct Hp |].
      eexists. split; [reflexivity |]. apply In_condition_nodes. exact Hp.
    + rewrite Hnonzero; rewrite Hbefore;
        apply (find_In _ _ _ Hs) in Hin; rewrite Hin; simpl; rewrite He;
        [reflexivity | discriminate].
Qed.

End Serialisation.

(** * The theorems at concrete stores *)

Lemma C4_witness :
  (StdMap.sorted (storage (store Example.events)) = true /\
   StdMap.find "other" (storage (store Example.events)) = None /\
   covered_by_prefix "other" (store Example.events) = false) /\
  fst (Get "other" Example.events) = 0 /\
  fst (Has "other" Example.events) = false.
Proof.
  split; [vm_compute; auto |].
  destruct (C4_unset_key_reads_default Example.events "other") as (HG & HH & _);
    try (vm_compute; reflexivity).
  auto.
Defined.


(** C1, as stated, fails: the prefix provider ["a"] is registered and
    ["abc"] starts with ["a"] and is not in the index, yet the primary
    entry ["ab"] between them makes the resolution of ["abc"] find
    nothing; [Get] returns 0 without calling the provider. *)
Lemma C1_counterexample :
  StdMap.sorted (storage (store Example.shadowed)) = true /\
  registered "a" true (store Example.shadowed) = true /\
  StdString.starts_with "a" "abc" = true /\
  StdMap.find "abc" (storage (store Example.shadowed)) = None /\
  GetEntry "abc" (store Example.shadowed) = None /\
  routed_to "a" (GetEntry "abc" (store Example.shadowed)) <> true /\
  Get "abc" Example.shadowed = (0, tick Example.shadowed).
Proof. vm_compute. repeat split; discriminate. Qed.

Lemma C2_witness :
  (StdMap.sorted (storage (store Example.plain)) = true /\
   only_primaries (store Example.plain) = true) /\
  let after :=
    snd (Load_nodes (level (Save (store Example.plain) DataWriter.new)) Example.start) in
  fst (Get "b" after) = 2 /\ fst (Get "a" after) = 1 /\
  fst (Get "z" after) = 0 /\ fst (Has "z" after) = false.
Proof.
  split; [vm_compute; auto |].
  destruct (C2_save_load_round_trip (store Example.plain) [] [] 0 0 eq_refl eq_refl)
    as (Hnonzero & Hzero & _).
  cbv zeta. split; [| split].
  - rewrite Hnonzero; vm_compute; [reflexivity | discriminate].
  - rewrite Hnonzero; vm_compute; [reflexivity | discriminate].
  - apply Hzero. reflexivity.
Defined.


(** C3, as stated, fails: with the prefix provider ["events: "] and then
    the named provider ["events: won"], the key ["events: zero"] starts
    with the prefix, is not ["events: won"] and is not in the index, yet
    its resolution finds the named entry before it and matches nothing. *)
Lemma C3_counterexample :
  registered "events: " true (store Example.events) = true /\
  StdString.starts_with "events: " "events: won" = true /\
  StdString.starts_with "events: " "events: zero" = true /\
  let s1 := snd (Example.Named "events: won" Example.events) in
  StdMap.find "events: zero" (storage (store s1)) = None /\
  GetEntry "events: zero" (store s1) = None /\
  routed_to "events: " (GetEntry "events: zero" (store s1)) <> true /\
  Get "events: zero" s1 = (0, tick s1) /\ Has "events: zero" s1 = (false, tick s1).
Proof. vm_compute. repeat split; discriminate. Qed.

Lemma C5_witness :
  (StdMap.sorted (storage (store Example.events)) = true /\
   provider_backed (GetEntry "gold" (store Example.events)) = false) /\
  let s' := snd (Set_ "gold" 5 Example.events) in
  fst (Set_ "gold" 5 Example.events) = true /\
  fst (Get "gold" s') = 5 /\ fst (Has "gold" s') = true.
Proof.
  split; [vm_compute; auto |].
  destruct (C5_set_then_get Example.events "gold" 5 eq_refl eq_refl)
    as (Hret & HG & HH & _).
  auto.
Defined.

Lemma C6_witness :
  GetEntry "other" (store Example.events) = None /\
  fst (Erase "other" Example.events) = true /\
  storage (store (snd (Erase "other" Example.events))) = storage (store Example.events).
Proof.
  split; [vm_compute; reflexivity |].
  destruct (C6_erase_absent Example.events "other" eq_refl) as (Hret & Hst & _).
  auto.
Defined.

Lemma C8_witness :
  StdMap.sorted (storage (store Example.mixed)) = true /\
  primaries (store Example.mixed) = [("a", 1); ("b", 2)].
Proof.
  split; [vm_compute; reflexivity |].
  destruct (C8_primaries_iteration (store Example.mixed) eq_refl) as (Heq & _).
  rewrite Heq. reflexivity.
Defined.

Lemma C9_witness :
  store_ok (store Example.events) = true /\
  provider_inv (store (snd (operator_brackets "events: foo" Example.events))) /\
  provider_inv (store (snd (Example.Named "events: won" Example.events))).
Proof.
  split; [vm_compute; reflexivity |].
  destruct (C9_invariant_preserved Example.get_len Example.has_yes Example.set_no Example.erase_no Example.events eq_refl)
    as (_ & _ & Hb & _ & Hn & _).
  split; [apply Hb | apply Hn].
Defined.

Lemma C10_witness :
  provider_backed (GetEntry "events: foo" (store Example.events)) = true /\
  storage (store (snd (Erase "events: foo" Example.events)))
  = storage (store Example.events) /\
  providers (store (snd (Erase "events: foo" Example.events)))
  = providers (store Example.events).
Proof.
  split; [vm_compute; reflexivity |].
  destruct (C10_erase_derived_keeps_index Example.events "events: foo" eq_refl)
    as (Hst & Hpr & _).
  auto.
Defined.

(** * More about the order and the index *)

Section MoreOrder.

Lemma ascii_compare_refl c : Ascii.compare c c = Eq.
Proof. unfold Ascii.compare. apply N.compare_refl. Qed.

Lemma less_cons c a b :
  StdString.less (String c a) (String c b) = StdString.less a b.
Proof.
  unfold StdString.less, StdString.compare. simpl.
  rewrite ascii_compare_refl. reflexivity.
Qed.

(** A string between a prefix and a string with that prefix has the
    prefix too. *)
Lemma starts_with_between p a c :
  StdString.starts_with p c = true ->
  StdString.less a p = false -> StdString.less c a = false ->
  StdString.starts_with p a = true.
Proof.
  unfold StdString.starts_with. revert a c.
  induction p as [| x p IH]; intros a c Hpc Hpa Hac.
  - destruct a; reflexivity.
  - destruct c as [| y c]; simpl in Hpc; [discriminate |].
    destruct (Ascii.ascii_dec x y) as [<- | Hne]; [| discriminate].
    destruct a as [| z a]; [discriminate |].
    simpl. destruct (Ascii.ascii_dec x z) as [<- | Hxz].
    + rewrite less_cons in Hpa, Hac. exact (IH _ _ Hpc Hpa Hac).
    + exfalso. unfold StdString.less, StdString.compare in Hpa, Hac. simpl in Hpa, Hac.
      destruct (Ascii.compare z x) eqn:Hzx.
      * apply (proj1 (Ascii_as_OT.cmp_eq z x)) in Hzx. congruence.
      * discriminate.
      * pose proof (Ascii_as_OT.cmp_antisym x z) as Hanti.
        unfold Ascii_as_OT.cmp in Hanti. rewrite Hzx in Hanti. simpl in Hanti.
        rewrite Hanti in Hac. discriminate.
Qed.

End MoreOrder.

Section MoreMapFacts.
Context {V : Type} (dflt : V).
Implicit Types (m r : StdMap.t V) (k key : string) (v : V).

(** The predecessor search, by what it finds. *)
Lemma floor_Some key m k v :
  StdMap.sorted m = true ->
  (StdMap.floor key m = Some (k, v) <->
   In (k, v) m /\ StdString.less key k = false /\
   forall k' v', In (k', v') m -> StdString.less key k' = false ->
                 StdString.less k k' = false).
Proof.
  intros Hs. split.
  - intros Hf. destruct (floor_In _ _ _ _ Hf) as [Hin Hle].
    split; [exact Hin |]. split; [exact Hle |].
    intros k' v' Hin' Hle'.
    destruct (floor_from key m k' v' Hs Hin' Hle') as (k2 & v2 & Hf2 & H2).
    rewrite Hf in Hf2. injection Hf2 as <- <-. exact H2.
  - intros (Hin & Hle & Hmax).
    destruct (floor_from key m k v Hs Hin Hle) as (k2 & v2 & Hf2 & H2).
    destruct (floor_In _ _ _ _ Hf2) as [Hin2 Hle2].
    assert (k2 = k) by (apply less_total; [exact H2 | exact (Hmax _ _ Hin2 Hle2)]).
    subst k2. apply (find_In _ _ _ Hs) in Hin, Hin2. congruence.
Qed.

Lemma floor_None key m :
  StdMap.sorted m = true ->
  (StdMap.floor key m = None <->
   forall k v, In (k, v) m -> StdString.less key k = true).
Proof.
  intros Hs. split.
  - intros Hf k v Hin. destruct (StdString.less key k) eqn:Hlt; [reflexivity |].
    destruct (floor_from key m k v Hs Hin Hlt) as (k2 & v2 & Hf2 & _). congruence.
  - intros Hall. destruct (StdMap.floor key m) as [[k v] |] eqn:Hf; [| reflexivity].
    destruct (floor_In _ _ _ _ Hf) as [Hin Hle]. rewrite (Hall _ _ Hin) in Hle.
    discriminate.
Qed.

Lemma find_erase key key' m :
  StdMap.sorted m = true ->
  StdMap.find key' (StdMap.erase key m)
  = if String.eqb key key' then None else StdMap.find key' m.
Proof.
  induction m as [| [k v] m IH]; intros Hs; simpl.
  - destruct (String.eqb key key'); reflexivity.
  - pose proof (sorted_tail _ _ _ Hs) as Hs'.
    destruct (StdString.compare key k) eqn:Hc; simpl.
    + apply (proj1 (compare_Eq key k)) in Hc. subst k.
      destruct (String.eqb_spec key key') as [<- | Hne].
      * destruct (StdMap.find key m) as [v' |] eqn:Hf; [| reflexivity].
        apply (find_In _ _ _ Hs') in Hf.
        pose proof (sorted_above _ _ _ _ _ Hs Hf) as Hlt.
        rewrite less_irrefl in Hlt. discriminate.
      * destruct (StdString.compare key' key) eqn:Hc'.
        -- apply (proj1 (compare_Eq key' key)) in Hc'. congruence.
        -- destruct (StdMap.find key' m) as [v' |] eqn:Hf; [| reflexivity].
           apply (find_In _ _ _ Hs') in Hf.
           pose proof (sorted_above _ _ _ _ _ Hs Hf) as Hlt.
           apply less_Lt in Hc'. rewrite (less_asym _ _ Hlt) in Hc'. discriminate.
        -- reflexivity.
    + destruct (String.eqb_spec key key') as [<- | Hne]; [rewrite Hc; reflexivity |].
      reflexivity.
    + destruct (StdString.compare key' k) eqn:Hc'.
      * apply (proj1 (compare_Eq key' k)) in Hc'. subst k.
        destruct (String.eqb_spec key key') as [<- | Hne]; [| reflexivity].
        rewrite compare_refl in Hc. discriminate.
      * destruct (String.eqb_spec key key') as [<- | Hne]; [congruence | reflexivity].
      * exact (IH Hs').
Qed.

(** Erasing a key that was just inserted restores the index. *)
Lemma erase_at_key key f m :
  StdMap.find key m = None -> StdMap.erase key (StdMap.at_key dflt key f m) = m.
Proof.
  induction m as [| [k v] m IH]; simpl; intros Hf.
  - rewrite compare_refl. reflexivity.
  - destruct (StdString.compare key k) eqn:Hc; simpl.
    + discriminate.
    + rewrite compare_refl. reflexivity.
    + rewrite Hc, (IH Hf). reflexivity.
Qed.

Lemma at_key_idem key f m :
  (forall v, f (f v) = f v) ->
  StdMap.at_key dflt key f (StdMap.at_key dflt key f m) = StdMap.at_key dflt key f m.
Proof.
  intros Hf. induction m as [| [k v] m IH]; simpl.
  - rewrite compare_refl. simpl. rewrite Hf. reflexivity.
  - destruct (StdString.compare key k) eqn:Hc; simpl.
    + rewrite Hc. simpl. rewrite Hf. reflexivity.
    + rewrite compare_refl. simpl. rewrite Hf. reflexivity.
    + rewrite Hc, IH. reflexivity.
Qed.

Lemma In_find_some key v m :
  StdMap.find key m = Some v -> In (key, v) m.
Proof.
  induction m as [| [k v0] m IH]; simpl; [discriminate |].
  destruct (StdString.compare key k) eqn:Hc; [| discriminate |].
  - apply (proj1 (compare_Eq key k)) in Hc. subst k. intros [= ->]. left. reflexivity.
  - intros H. right. exact (IH H).
Qed.

End MoreMapFacts.

(** * More about the operations *)

Section MoreOperations.
Context {W : Type}.
Implicit Types (st : ConditionsStore W) (s : State W) (nm k p : string)
  (e : ConditionEntry) (v : Z).

Lemma Set_unresolved k v s :
  GetEntry k (store s) = None ->
  Set_ k v s
  = (true,
     {| store := {| storage := StdMap.at_key ConditionEntry0 k (set_value v)
                                 (storage (store s));
                    providers := providers (store s) |};
        world := world s; lookups := S (lookups s) |}).
Proof. intros H. run. rewrite H. reflexivity. Qed.

Lemma Set_inline nm v s k e :
  GetEntry nm (store s) = Some (k, e) -> provider e = None ->
  Set_ nm v s
  = (true,
     {| store := {| storage := StdMap.modify k (set_value v) (storage (store s));
                    providers := providers (store s) |};
        world := world s; lookups := S (lookups s) |}).
Proof. intros H Hp. run. rewrite H, Hp. reflexivity. Qed.

Lemma Set_derived nm v s k e p :
  GetEntry nm (store s) = Some (k, e) -> provider e = Some p ->
  Set_ nm v s = call (setFunction (provider_at (store s) p) nm v) (tick s).
Proof. intros H Hp. run. rewrite H, Hp. reflexivity. Qed.

Lemma Erase_inline nm s k e :
  GetEntry nm (store s) = Some (k, e) -> provider e = None ->
  Erase nm s
  = (true,
     {| store := {| storage := StdMap.erase nm (storage (store s));
                    providers := providers (store s) |};
        world := world s; lookups := S (lookups s) |}).
Proof. intros H Hp. run. rewrite H, Hp. reflexivity. Qed.

Lemma provider_backed_cases (ce : option (string * ConditionEntry)) :
  provider_backed ce = false ->
  ce = None \/ exists k e, ce = Some (k, e) /\ provider e = None.
Proof.
  destruct ce as [[k e] |]; [| auto]. simpl. intros H. right. exists k, e.
  split; [reflexivity |]. apply bool_decide_eq_false in H.
  destruct (provider e); [exfalso; apply H; eauto | reflexivity].
Qed.

Lemma call_store {A : Type} (f : W -> A * W) s : store (snd (call f s)) = store s.
Proof. unfold call. destruct (f (world s)). reflexivity. Qed.

Lemma call_world {A : Type} (f : W -> A * W) s :
  world (snd (call f s)) = snd (f (world s)).
Proof. unfold call. destruct (f (world s)). reflexivity. Qed.

Lemma call_fst {A : Type} (f : W -> A * W) s : fst (call f s) = fst (f (world s)).
Proof. unfold call. destruct (f (world s)). reflexivity. Qed.

(** X1: [Set] of a name that resolves to a provider-backed entry only calls
    the provider's set callback with that name and returns its answer:
    the index and the registry stay as they are, so no entry is created
    for the name. *)
Theorem Set_derived_keeps_index (s : State W) (nm : string) (v : Z) :
  provider_backed (GetEntry nm (store s)) = true ->
  store (snd (Set_ nm v s)) = store s /\
  exists k e p, GetEntry nm (store s) = Some (k, e) /\ provider e = Some p /\
    fst (Set_ nm v s) = fst (setFunction (provider_at (store s) p) nm v (world s)) /\
    world (snd (Set_ nm v s)) = snd (setFunction (provider_at (store s) p) nm v (world s)).
Proof.
  intros Hpb.
  destruct (GetEntry nm (store s)) as [[k e] |] eqn:HG; [| discriminate].
  simpl in Hpb. apply bool_decide_eq_true in Hpb. destruct Hpb as [p Hp].
  rewrite (Set_derived _ _ _ _ _ _ HG Hp), call_store, call_fst, call_world.
  split; [reflexivity |]. exists k, e, p. auto.
Qed.

(** X2: [HasGet] answers as [Has] followed, when [Has] says yes, by [Get] on
    the state [Has] left; otherwise the value is 0 and nothing more is
    called.  It resolves the name once. *)
Theorem HasGet_is_Has_then_Get (s : State W) (nm : string) :
  let h := Has nm s in
  let g := Get nm (snd h) in
  fst (HasGet nm s) = (fst h, if fst h then fst g else 0) /\
  world (snd (HasGet nm s)) = (if fst h then world (snd g) else world (snd h)) /\
  store (snd (HasGet nm s)) = store s /\
  lookups (snd (HasGet nm s)) = S (lookups s).
Proof.
  unfold HasGet. run.
  destruct (GetEntry nm (store s)) as [[k e] |] eqn:HG; simpl.
  - destruct (provider e) as [p |] eqn:Hp; simpl.
    + destruct (hasFunction (provider_at (store s) p) nm (world s)) as [[] w1] eqn:Hh;
        simpl; rewrite ?HG, ?Hp; simpl.
      * destruct (getFunction (provider_at (store s) p) nm w1) as [g w2]. simpl. auto.
      * auto.
    + rewrite HG, Hp. simpl. auto.
  - auto.
Qed.

(** X3: [Set] of a name that resolves to nothing, followed by [Erase] of that
    name, gives back the index and the registry as they were; both
    calls succeed and no callback runs. *)
Theorem Set_then_Erase_restores (s : State W) (k : string) (v : Z) :
  StdMap.sorted (storage (store s)) = true ->
  GetEntry k (store s) = None ->
  let s1 := snd (Set_ k v s) in
  fst (Set_ k v s) = true /\ fst (Erase k s1) = true /\
  store (snd (Erase k s1)) = store s /\ world (snd (Erase k s1)) = world s.
Proof.
  intros Hs HG s1. subst s1. rewrite (Set_unresolved _ _ _ HG). simpl.
  pose proof (GetEntry_None_find _ _ Hs HG) as Hfind.
  match goal with
  | |- context [Erase k ?s1] =>
      assert (HG1 : GetEntry k (store s1) = Some (k, set_value v ConditionEntry0))
  end.
  { apply GetEntry_exact; simpl.
    - apply sorted_at_key. exact Hs.
    - rewrite find_at_key_same, Hfind. reflexivity. }
  rewrite (Erase_inline _ _ _ _ HG1 eq_refl). simpl.
  rewrite erase_at_key by exact Hfind.
  split; [reflexivity |]. split; [reflexivity |]. split; [| reflexivity].
  destruct (store s). reflexivity.
Qed.

(** X4: [Erase] of a name that resolves to an inline entry succeeds and
    removes exactly that key: every other key keeps its entry, the
    registry and the providers' world are untouched; unless a prefix
    provider covers the name, it then reads as 0 and as absent. *)
Theorem Erase_inline_removes_key (s : State W) (k : string) :
  StdMap.sorted (storage (store s)) = true ->
  GetEntry k (store s) <> None ->
  provider_backed (GetEntry k (store s)) = false ->
  let s' := snd (Erase k s) in
  fst (Erase k s) = true /\
  StdMap.find k (storage (store s')) = None /\
  (forall k', k' <> k ->
     StdMap.find k' (storage (store s')) = StdMap.find k' (storage (store s))) /\
  providers (store s') = providers (store s) /\ world s' = world s /\
  (covered_by_prefix k (store s) = false ->
   fst (Get k s') = 0 /\ fst (Has k s') = false).
Proof.
  intros Hs Hsome Hpb s'.
  destruct (provider_backed_cases _ Hpb) as [Hnone | (k0 & e & HG & Hp)]; [contradiction |].
  subst s'. rewrite (Erase_inline _ _ _ _ HG Hp). simpl.
  split; [reflexivity |].
  assert (Hgone : StdMap.find k (StdMap.erase k (storage (store s))) = None).
  { rewrite find_erase by exact Hs. rewrite String.eqb_refl. reflexivity. }
  split; [exact Hgone |]. split.
  - intros k' Hne. rewrite find_erase by exact Hs.
    destruct (String.eqb_spec k k'); [congruence | reflexivity].
  - split; [reflexivity |]. split; [reflexivity |]. intros Hcov.
    match goal with
    | |- context [Get k ?s1] =>
        assert (HG1 : GetEntry k (store s1) = None)
    end.
    { apply GetEntry_uncovered; simpl.
      - apply sorted_erase. exact Hs.
      - exact Hgone.
      - exact Hcov. }
    rewrite (Get_unresolved _ _ HG1), (Has_unresolved _ _ HG1). auto.
Qed.

End MoreOperations.

(** * How a write changes the resolution of other names *)

Section FloorAfterWrite.
Context {V : Type} (dflt : V).
Implicit Types (m r : StdMap.t V) (k key : string) (v : V).

Lemma floor_modify key k f m :
  StdMap.sorted m = true ->
  StdMap.floor key (StdMap.modify k f m)
  = option_map (fun x => if String.eqb k (fst x) then (fst x, f (snd x)) else x)
               (StdMap.floor key m).
Proof.
  induction m as [| [k0 v0] m IH]; intros Hs; [reflexivity |].
  pose proof (sorted_tail _ _ _ Hs) as Hs'. simpl.
  destruct (String.eqb_spec k k0) as [-> | Hne]; simpl.
  - destruct (StdString.less key k0); [reflexivity |].
    destruct (StdMap.floor key m) as [[x vx] |] eqn:Hf; simpl.
    + apply floor_In in Hf as [Hin _].
      pose proof (sorted_above _ _ _ _ _ Hs Hin) as Hlt.
      destruct (String.eqb_spec k0 x) as [-> | _]; [| reflexivity].
      rewrite less_irrefl in Hlt. discriminate.
    + rewrite String.eqb_refl. reflexivity.
  - destruct (StdString.less key k0); [reflexivity |].
    rewrite (IH Hs'). destruct (StdMap.floor key m) as [[x vx] |]; simpl; [reflexivity |].
    destruct (String.eqb_spec k k0); [contradiction | reflexivity].
Qed.

(** After a key is inserted, the predecessor of a name is the new key
    when it lies between the old predecessor and the name. *)
Lemma floor_at_key_absent key k f m :
  StdMap.sorted m = true -> StdMap.find k m = None ->
  StdMap.floor key (StdMap.at_key dflt k f m)
  = if StdString.less key k then StdMap.floor key m
    else match StdMap.floor key m with
         | Some (x, vx) => if StdString.less x k then Some (k, f dflt) else Some (x, vx)
         | None => Some (k, f dflt)
         end.
Proof.
  induction m as [| [k0 v0] m IH]; intros Hs Hfind.
  - simpl. destruct (StdString.less key k); reflexivity.
  - pose proof (sorted_tail _ _ _ Hs) as Hs'.
    cbn [StdMap.find StdMap.at_key] in Hfind |- *.
    destruct (StdString.compare k k0) eqn:Hc; [discriminate | |].
    + apply less_Lt in Hc.
      change (StdMap.floor key ((k, f dflt) :: (k0, v0) :: m))
        with (if StdString.less key k then None
              else match StdMap.floor key ((k0, v0) :: m) with
                   | Some x => Some x
                   | None => Some (k, f dflt)
                   end).
      destruct (StdString.less key k) eqn:Hkey.
      * simpl. rewrite (less_trans _ _ _ Hkey Hc). reflexivity.
      * destruct (StdMap.floor key ((k0, v0) :: m)) as [[x vx] |] eqn:Hf; [| reflexivity].
        apply floor_In in Hf as [Hin _].
        assert (Hx : StdString.less x k = false).
        { apply less_asym. destruct Hin as [[= <- <-] | Hin]; [exact Hc |].
          eapply less_trans; [exact Hc |]. exact (sorted_above _ _ _ _ _ Hs Hin). }
        rewrite Hx. reflexivity.
    + assert (Hlt : StdString.less k0 k = true).
      { apply less_Lt. apply compare_Gt_Lt. exact Hc. }
      simpl. destruct (StdString.less key k0) eqn:Hkey0.
      * rewrite (less_trans _ _ _ Hkey0 Hlt). reflexivity.
      * rewrite (IH Hs' Hfind). destruct (StdString.less key k) eqn:Hkey; [reflexivity |].
        destruct (StdMap.floor key m) as [[x vx] |]; [destruct (StdString.less x k) |];
          try reflexivity.
        rewrite Hlt. reflexivity.
Qed.

End FloorAfterWrite.

Section Frame.
Context {W : Type}.
Implicit Types (st : ConditionsStore W) (s : State W) (nm k p : string)
  (e : ConditionEntry) (v : Z).

Lemma GetEntry_is_floor nm st x :
  GetEntry nm st = Some x -> StdMap.floor nm (storage st) = Some x.
Proof.
  rewrite GetEntry_floor.
  destruct (StdMap.floor nm (storage st)) as [[k e] |]; [| discriminate].
  destruct (String.eqb nm k); [auto |].
  destruct (provider e); [| discriminate].
  destruct (_ && _); [auto | discriminate].
Qed.

(** The name of the provider of an entry sorts at or before the entry's
    key. *)
Lemma provider_name_le st k e p P :
  store_ok st = true -> In (k, e) (storage st) -> provider e = Some p ->
  providers st !! p = Some P -> StdString.less k (name P) = false.
Proof.
  intros Hok Hin Hp HP. apply store_ok_spec in Hok as (_ & _ & Hinv).
  destruct (Hinv _ _ _ Hin Hp) as (P' & HP' & [Hn | Hst]).
  - rewrite HP in HP'. injection HP' as <-. rewrite Hn. apply less_irrefl.
  - rewrite HP in HP'. injection HP' as <-. apply starts_with_le. exact Hst.
Qed.

(** A name that resolves through an entry also makes every name between
    the entry and itself resolve through that entry. *)
Lemma GetEntry_between st nm k x ex :
  store_ok st = true ->
  GetEntry nm st = Some (x, ex) -> x <> nm ->
  StdString.less x k = true -> StdString.less nm k = false ->
  StdMap.find k (storage st) = None ->
  GetEntry k st = Some (x, ex).
Proof.
  intros Hok HG Hne Hxk Hknm Hfind.
  pose proof (proj1 (store_ok_spec _) Hok) as (Hs & _ & _).
  pose proof (GetEntry_is_floor _ _ _ HG) as Hf.
  destruct (GetEntry_prefix _ _ _ _ HG Hne) as (p & P & Hp & HP & Hflag & Hst).
  apply (floor_Some _ _ _ _ Hs) in Hf as (Hin & Hle & Hmax).
  assert (Hfk : StdMap.floor k (storage st) = Some (x, ex)).
  { apply (floor_Some _ _ _ _ Hs). split; [exact Hin |].
    split; [apply less_asym; exact Hxk |].
    intros k' v' Hin' Hle'. apply (Hmax _ _ Hin').
    destruct (StdString.less nm k') eqn:Hc; [| reflexivity].
    rewrite (le_less_trans _ _ _ Hknm Hc) in Hle'. discriminate. }
  rewrite GetEntry_floor, Hfk.
  destruct (String.eqb_spec k x) as [-> | _].
  - rewrite less_irrefl in Hxk. discriminate.
  - rewrite Hp. unfold provider_at. rewrite HP. simpl. rewrite Hflag.
    rewrite (starts_with_between (name P) k nm Hst); [reflexivity | | exact Hknm].
    apply less_asym. eapply le_less_trans; [| exact Hxk].
    exact (provider_name_le _ _ _ _ _ Hok Hin Hp HP).
Qed.

(** Inserting an inline entry at a name that resolved to nothing changes
    the resolution of no other name. *)
Lemma GetEntry_insert_inline st k f k' :
  store_ok st = true ->
  GetEntry k st = None ->
  provider (f ConditionEntry0) = None ->
  k' <> k ->
  GetEntry k' {| storage := StdMap.at_key ConditionEntry0 k f (storage st);
                 providers := providers st |}
  = GetEntry k' st.
Proof.
  intros Hok HG Hf Hne.
  pose proof (proj1 (store_ok_spec _) Hok) as (Hs & _ & _).
  pose proof (GetEntry_None_find _ _ Hs HG) as Hfind.
  rewrite (GetEntry_floor k' st).
  rewrite GetEntry_floor. simpl storage.
  rewrite (floor_at_key_absent _ _ _ _ _ Hs Hfind).
  destruct (StdString.less k' k) eqn:Hk'k; [reflexivity |].
  assert (Hkk' : StdString.less k k' = true).
  { destruct (le_cases _ _ Hk'k) as [-> | H]; [contradiction | exact H]. }
  assert (Hnew : (if String.eqb k' k then Some (k, f ConditionEntry0)
                  else match provider (f ConditionEntry0) with
                       | Some p =>
                           if isPrefixProvider
                                (provider_at
                                   {| storage := StdMap.at_key ConditionEntry0 k f (storage st);
                                      providers := providers st |} p)
                              && StdString.starts_with
                                   (name (provider_at
                                      {| storage := StdMap.at_key ConditionEntry0 k f (storage st);
                                         providers := providers st |} p)) k'
                           then Some (k, f ConditionEntry0) else None
                       | None => None
                       end) = None).
  { destruct (String.eqb_spec k' k); [contradiction |]. rewrite Hf. reflexivity. }
  destruct (StdMap.floor k' (storage st)) as [[x ex] |] eqn:Hfl.
  - destruct (StdString.less x k) eqn:Hxk; [| reflexivity].
    rewrite Hnew. symmetry.
    match goal with |- ?lhs = None => destruct lhs as [y |] eqn:Hold; [| reflexivity] end.
    exfalso.
    assert (HG' : GetEntry k' st = Some (x, ex)).
    { rewrite GetEntry_floor, Hfl.
      destruct (String.eqb k' x); [reflexivity |].
      destruct (provider ex); [| discriminate].
      destruct (_ && _); [reflexivity | discriminate]. }
    assert (Hxk' : x <> k').
    { intros ->. rewrite (less_asym _ _ Hkk') in Hxk. discriminate. }
    rewrite (GetEntry_between _ _ _ _ _ Hok HG' Hxk' Hxk Hk'k Hfind) in HG. discriminate.
  - exact Hnew.
Qed.

(** X5: [Set] changes how no other name resolves: for every name other than
    the one set, [GetEntry] finds what it found before. *)
Theorem Set_keeps_other_resolutions (s : State W) (k k' : string) (v : Z) :
  store_ok (store s) = true ->
  k' <> k ->
  GetEntry k' (store (snd (Set_ k v s))) = GetEntry k' (store s).
Proof.
  intros Hok Hne.
  pose proof (proj1 (store_ok_spec _) Hok) as (Hs & _ & _).
  destruct (GetEntry k (store s)) as [[k0 e] |] eqn:HG.
  - destruct (provider e) as [p |] eqn:Hp.
    + rewrite (Set_derived _ _ _ _ _ _ HG Hp), call_store. reflexivity.
    + rewrite (Set_inline _ _ _ _ _ HG Hp). simpl.
      pose proof (GetEntry_inline _ _ _ _ HG Hp) as ->.
      rewrite (GetEntry_floor k' (store s)). rewrite GetEntry_floor. simpl storage.
      rewrite (floor_modify _ _ _ _ Hs).
      destruct (StdMap.floor k' (storage (store s))) as [[x ex] |] eqn:Hfl; [| reflexivity].
      simpl. destruct (String.eqb_spec k x) as [<- | Hkx]; [| reflexivity].
      simpl. destruct (String.eqb_spec k' k); [contradiction |].
      apply floor_In in Hfl as [Hin _].
      pose proof (GetEntry_In _ _ _ _ HG) as Hin'.
      apply (find_In _ _ _ Hs) in Hin, Hin'.
      assert (ex = e) by congruence. subst ex. rewrite Hp. reflexivity.
  - rewrite (Set_unresolved _ _ _ HG). simpl.
    apply GetEntry_insert_inline; auto.
Qed.

End Frame.

(** * The indexing operator *)

Section Brackets.
Context {W : Type}.
Implicit Types (st : ConditionsStore W) (s : State W) (nm k p : string)
  (e : ConditionEntry) (v : Z).

Lemma brackets_existing nm s e :
  StdMap.find nm (storage (store s)) = Some e -> operator_brackets nm s = (nm, s).
Proof.
  intros H. unfold operator_brackets. run. rewrite H. reflexivity.
Qed.

Lemma brackets_unresolved nm s :
  StdMap.find nm (storage (store s)) = None -> GetEntry nm (store s) = None ->
  operator_brackets nm s
  = (nm, {| store := {| storage := StdMap.at_key ConditionEntry0 nm id (storage (store s));
                        providers := providers (store s) |};
            world := world s; lookups := S (lookups s) |}).
Proof.
  intros H HG. unfold operator_brackets. run. rewrite H, HG. reflexivity.
Qed.

Lemma brackets_prefixed nm s x pe :
  StdMap.find nm (storage (store s)) = None -> GetEntry nm (store s) = Some (x, pe) ->
  operator_brackets nm s
  = (nm, {| store := {| storage := StdMap.at_key ConditionEntry0 nm
                                     (fun ce => set_fullKey nm (set_provider (provider pe) ce))
                                     (storage (store s));
                        providers := providers (store s) |};
            world := world s; lookups := S (lookups s) |}).
Proof.
  intros H HG. unfold operator_brackets. run. rewrite H, HG. reflexivity.
Qed.

Lemma primary_pairs_at_key_derived nm f (m : StdMap.t ConditionEntry) p :
  StdMap.find nm m = None -> provider (f ConditionEntry0) = Some p ->
  primary_pairs (StdMap.at_key ConditionEntry0 nm f m) = primary_pairs m.
Proof.
  intros Hfind Hp. induction m as [| [k e] m IH]; simpl in Hfind |- *.
  - rewrite primary_pairs_cons, Hp. reflexivity.
  - destruct (StdString.compare nm k) eqn:Hc; [discriminate | |].
    + rewrite (primary_pairs_cons nm), Hp. reflexivity.
    + rewrite !(primary_pairs_cons k), (IH Hfind). reflexivity.
Qed.

(** X6: [operator[]] on a name that resolves to nothing creates an inline
    entry with value 0: the name, absent before, is present afterwards
    and reads as 0, and it is among the primary conditions. *)
Theorem brackets_creates_zero_entry (s : State W) (nm : string) :
  StdMap.sorted (storage (store s)) = true ->
  GetEntry nm (store s) = None ->
  let s' := snd (operator_brackets nm s) in
  fst (Has nm s) = false /\
  StdMap.find nm (storage (store s')) = Some ConditionEntry0 /\
  fst (Has nm s') = true /\ fst (Get nm s') = 0 /\
  In (nm, 0) (primaries (store s')).
Proof.
  intros Hs HG s'. pose proof (GetEntry_None_find _ _ Hs HG) as Hfind.
  subst s'. rewrite (brackets_unresolved _ _ Hfind HG). simpl.
  rewrite (Has_unresolved _ _ HG).
  assert (Hnew : StdMap.find nm (StdMap.at_key ConditionEntry0 nm id (storage (store s)))
                 = Some ConditionEntry0).
  { rewrite find_at_key_same, Hfind. reflexivity. }
  match goal with
  | |- context [Has nm ?s1] =>
      assert (HG1 : GetEntry nm (store s1) = Some (nm, ConditionEntry0))
  end.
  { apply GetEntry_exact; simpl; [apply sorted_at_key; exact Hs | exact Hnew]. }
  rewrite (Has_inline _ _ _ _ HG1 eq_refl), (Get_inline _ _ _ _ HG1 eq_refl).
  repeat split; try reflexivity; try exact Hnew.
  rewrite primaries_pairs. apply In_primary_pairs. exists ConditionEntry0. simpl.
  repeat split. apply In_find_some. exact Hnew.
Qed.

(** X7: [operator[]] on a name that has no entry of its own but is covered by
    a prefix provider creates an entry at that name with the same
    provider pointer and the name as [fullKey].  [Get] and [Has] of the
    name answer as before, and the primary conditions are the same. *)
Theorem brackets_materialises_prefix_entry (s : State W) (nm x : string)
    (pe : ConditionEntry) :
  StdMap.sorted (storage (store s)) = true ->
  StdMap.find nm (storage (store s)) = None ->
  GetEntry nm (store s) = Some (x, pe) ->
  let s' := snd (operator_brackets nm s) in
  StdMap.find nm (storage (store s'))
  = Some {| value := 0; provider := provider pe; fullKey := nm |} /\
  is_Some (provider pe) /\
  providers (store s') = providers (store s) /\ world s' = world s /\
  fst (Get nm s') = fst (Get nm s) /\
  world (snd (Get nm s')) = world (snd (Get nm s)) /\
  fst (Has nm s') = fst (Has nm s) /\
  world (snd (Has nm s')) = world (snd (Has nm s)) /\
  primaries (store s') = primaries (store s).
Proof.
  intros Hs Hfind HG s'.
  assert (Hne : x <> nm).
  { intros ->. apply GetEntry_In in HG. apply (find_In _ _ _ Hs) in HG. congruence. }
  destruct (GetEntry_prefix _ _ _ _ HG Hne) as (p & P & Hp & HP & Hflag & Hst).
  subst s'. rewrite (brackets_prefixed _ _ _ _ Hfind HG). simpl.
  assert (Hnew : StdMap.find nm
                   (StdMap.at_key ConditionEntry0 nm
                      (fun ce => set_fullKey nm (set_provider (provider pe) ce))
                      (storage (store s)))
                 = Some {| value := 0; provider := provider pe; fullKey := nm |}).
  { rewrite find_at_key_same, Hfind. reflexivity. }
  split; [exact Hnew |]. split; [rewrite Hp; eauto |].
  split; [reflexivity |]. split; [reflexivity |].
  match goal with
  | |- context [Get nm ?s1] =>
      assert (HG1 : GetEntry nm (store s1)
                    = Some (nm, {| value := 0; provider := provider pe; fullKey := nm |}))
  end.
  { apply GetEntry_exact; simpl; [apply sorted_at_key; exact Hs | exact Hnew]. }
  rewrite (Get_derived _ _ _ _ p HG1 Hp), (Has_derived _ _ _ _ p HG1 Hp).
  rewrite (Get_derived _ _ _ _ p HG Hp), (Has_derived _ _ _ _ p HG Hp).
  rewrite !call_fst, !call_world. simpl.
  repeat split; try reflexivity.
  rewrite !primaries_pairs. simpl.
  apply (primary_pairs_at_key_derived _ _ _ p); [exact Hfind |]. simpl. exact Hp.
Qed.

(** X8: [operator[]] changes how names resolve in one way only: a name that
    resolved to nothing resolves to its new inline entry.  Every other
    name, and a name that resolved before, still goes to nothing, to an
    inline entry or to the same provider as before. *)
Theorem brackets_keeps_targets (s : State W) (nm k' : string) :
  store_ok (store s) = true ->
  target k' (store (snd (operator_brackets nm s)))
  = match GetEntry nm (store s) with
    | None => if String.eqb k' nm then Some None else target k' (store s)
    | Some _ => target k' (store s)
    end.
Proof.
  intros Hok. pose proof (proj1 (store_ok_spec _) Hok) as (Hs & _ & _).
  destruct (StdMap.find nm (storage (store s))) as [e0 |] eqn:Hfind.
  - rewrite (brackets_existing _ _ _ Hfind), (GetEntry_exact _ _ _ Hs Hfind). reflexivity.
  - destruct (GetEntry nm (store s)) as [[x pe] |] eqn:HG.
    + rewrite (brackets_prefixed _ _ _ _ Hfind HG). simpl snd. simpl store.
      assert (Hne : x <> nm).
      { intros ->. apply GetEntry_In in HG. apply (find_In _ _ _ Hs) in HG. congruence. }
      destruct (GetEntry_prefix _ _ _ _ HG Hne) as (p & P & Hp & HP & Hflag & Hst).
      pose proof (GetEntry_is_floor _ _ _ HG) as Hfx.
      unfold target. rewrite (GetEntry_floor k' (store s)). rewrite GetEntry_floor.
      simpl storage. rewrite (floor_at_key_absent _ _ _ _ _ Hs Hfind).
      change (provider_at {| storage := _; providers := providers (store s) |})
        with (provider_at (store s)).
      destruct (StdString.less k' nm) eqn:Hk'nm; [reflexivity |].
      destruct (String.eqb_spec k' nm) as [-> | Hk'ne].
      * (* the name itself: its own new entry *)
        assert (Hfl : StdMap.floor nm (storage (store s)) = Some (x, pe)) by exact Hfx.
        rewrite Hfl.
        assert (Hxnm : StdString.less x nm = true).
        { apply (floor_Some _ _ _ _ Hs) in Hfl as (_ & Hle & _).
          destruct (le_cases _ _ Hle) as [-> | H]; [contradiction | exact H]. }
        rewrite Hxnm. rewrite String.eqb_refl.
        destruct (String.eqb_spec nm x) as [-> | _]; [contradiction |].
        rewrite Hp. unfold provider_at. rewrite HP. simpl. rewrite Hflag, Hst.
        simpl. rewrite Hp. reflexivity.
      * assert (Hnmk' : StdString.less nm k' = true).
        { destruct (le_cases _ _ Hk'nm) as [-> | H]; [contradiction | exact H]. }
        apply (floor_Some _ _ _ _ Hs) in Hfx as (Hinx & Hlex & Hmaxx).
        destruct (StdMap.floor k' (storage (store s))) as [[y ey] |] eqn:Hfl.
        -- destruct (StdString.less y nm) eqn:Hynm; [| reflexivity].
           apply (floor_Some _ _ _ _ Hs) in Hfl as (Hiny & Hley & Hmaxy).
           assert (y = x).
           { apply less_total.
             - apply (Hmaxy _ _ Hinx). destruct (StdString.less k' x) eqn:Hc; [| reflexivity].
               rewrite (less_trans _ _ _ Hnmk' Hc) in Hlex. discriminate.
             - apply (Hmaxx _ _ Hiny). apply less_asym. exact Hynm. }
           subst y. apply (find_In _ _ _ Hs) in Hinx, Hiny.
           assert (ey = pe) by congruence. subst ey.
           destruct (String.eqb_spec k' nm); [contradiction |].
           destruct (String.eqb_spec k' x) as [-> | _].
           ++ rewrite (less_asym _ _ Hnmk') in Hynm. discriminate.
           ++ simpl provider. rewrite Hp.
              destruct (_ && _); simpl; rewrite ?Hp; reflexivity.
        -- exfalso. pose proof (proj1 (floor_None _ _ Hs) Hfl) as Hall. clear Hfl.
           pose proof (Hall _ _ Hinx) as Hfl.
           destruct (le_cases _ _ Hlex) as [-> | Hxnm].
           ++ rewrite (less_asym _ _ Hnmk') in Hfl. discriminate.
           ++ rewrite (less_asym _ _ (less_trans _ _ _ Hxnm Hnmk')) in Hfl. discriminate.
    + rewrite (brackets_unresolved _ _ Hfind HG). simpl snd. simpl store.
      destruct (String.eqb_spec k' nm) as [-> | Hne].
      * unfold target. rewrite (GetEntry_exact _ _ ConditionEntry0); [reflexivity | |].
        -- simpl. apply sorted_at_key. exact Hs.
        -- simpl. rewrite find_at_key_same, Hfind. reflexivity.
      * unfold target. rewrite GetEntry_insert_inline; auto.
Qed.

End Brackets.

(** * Entry handles *)

Section FullKey.
Context {W : Type}.
Variable getFunction0 : string -> W -> Z * W.
Variable hasFunction0 : string -> W -> bool * W.
Variable setFunction0 : string -> Z -> W -> bool * W.
Variable eraseFunction0 : string -> W -> bool * W.
Implicit Types (st : ConditionsStore W) (s : State W) (nm k p : string)
  (e : ConditionEntry) (v : Z).

Lemma fullKey_ok_spec st :
  fullKey_ok st = true <->
  forall k e, In (k, e) (storage st) ->
    fullKey e = k \/
    (fullKey e = "" /\
     (provider e = None \/
      exists p, provider e = Some p /\ name (provider_at st p) = k)).
Proof.
  unfold fullKey_ok, fullKey_entry_ok. rewrite forallb_forall. split.
  - intros H k e Hin. specialize (H _ Hin). simpl in H.
    apply orb_prop in H as [H | H]; [left; apply String.eqb_eq; exact H | right].
    apply andb_prop in H as [H1 H2]. split; [apply String.eqb_eq; exact H1 |].
    destruct (provider e) as [p |]; [right | left; reflexivity].
    exists p. split; [reflexivity | apply String.eqb_eq; exact H2].
  - intros H [k e] Hin. simpl. destruct (H _ _ Hin) as [-> | [-> Hp]].
    + rewrite String.eqb_refl. reflexivity.
    + apply orb_true_iff. right. simpl.
      destruct Hp as [-> | (p & -> & <-)]; [reflexivity | apply String.eqb_refl].
Qed.

(** Replacing the index by one whose entries keep the [fullKey] and the
    pointer they had, or are new with their own key or no [fullKey] and
    no pointer, keeps the [fullKey]s well formed. *)
Lemma fullKey_ok_storage st m' :
  fullKey_ok st = true ->
  (forall k e, In (k, e) m' ->
     fullKey e = k \/ (fullKey e = "" /\ provider e = None) \/
     (exists e0, In (k, e0) (storage st) /\ fullKey e0 = fullKey e /\
                 provider e0 = provider e)) ->
  fullKey_ok {| storage := m'; providers := providers st |} = true.
Proof.
  intros Hok Hall. rewrite fullKey_ok_spec in Hok. apply fullKey_ok_spec.
  intros k e Hin. simpl in Hin.
  destruct (Hall _ _ Hin) as [Hk | [[Hk Hp] | (e0 & Hin0 & Hfk & Hp)]]; [auto | auto |].
  rewrite <- Hfk, <- Hp. exact (Hok _ _ Hin0).
Qed.

Lemma fullKey_ok_Set nm v s :
  StdMap.sorted (storage (store s)) = true ->
  fullKey_ok (store s) = true -> fullKey_ok (store (snd (Set_ nm v s))) = true.
Proof.
  intros Hs Hok.
  destruct (GetEntry nm (store s)) as [[k0 e0] |] eqn:HG.
  - destruct (provider e0) as [p |] eqn:Hp.
    + rewrite (Set_derived _ _ _ _ _ _ HG Hp), call_store. exact Hok.
    + rewrite (Set_inline _ _ _ _ _ HG Hp). simpl.
      apply fullKey_ok_storage; [exact Hok |]. intros k e Hin. right. right.
      apply In_modify in Hin as (e1 & Hin1 & [-> | [_ ->]]); exists e1; auto.
  - rewrite (Set_unresolved _ _ _ HG). simpl.
    apply fullKey_ok_storage; [exact Hok |]. intros k e Hin.
    apply In_at_key in Hin; [| exact Hs]. destruct Hin as [[-> ->] | [_ Hin]].
    + destruct (StdMap.find nm (storage (store s))) as [e1 |] eqn:Hfind; simpl.
      * right. right. exists e1. split; [apply find_In; assumption | auto].
      * right. left. auto.
    + right. right. exists e. auto.
Qed.

Lemma fullKey_ok_Erase nm s :
  fullKey_ok (store s) = true -> fullKey_ok (store (snd (Erase nm s))) = true.
Proof.
  intros Hok.
  destruct (GetEntry nm (store s)) as [[k0 e0] |] eqn:HG.
  - destruct (provider e0) as [p |] eqn:Hp.
    + unfold Erase. run. rewrite HG, Hp. simpl.
      match goal with
      | |- context [eraseFunction ?P nm ?w] => destruct (eraseFunction P nm w)
      end. exact Hok.
    + rewrite (Erase_inline _ _ _ _ HG Hp). simpl.
      apply fullKey_ok_storage; [exact Hok |]. intros k e Hin. right. right.
      exists e. split; [eapply In_erase; exact Hin | auto].
  - unfold Erase. run. rewrite HG. exact Hok.
Qed.

Lemma fullKey_ok_brackets nm s :
  StdMap.sorted (storage (store s)) = true ->
  fullKey_ok (store s) = true ->
  fullKey_ok (store (snd (operator_brackets nm s))) = true.
Proof.
  intros Hs Hok.
  destruct (StdMap.find nm (storage (store s))) as [e0 |] eqn:Hfind.
  - rewrite (brackets_existing _ _ _ Hfind). exact Hok.
  - destruct (GetEntry nm (store s)) as [[x pe] |] eqn:HG.
    + rewrite (brackets_prefixed _ _ _ _ Hfind HG). simpl.
      apply fullKey_ok_storage; [exact Hok |]. intros k e Hin.
      apply In_at_key in Hin; [| exact Hs]. destruct Hin as [[-> ->] | [_ Hin]].
      * left. reflexivity.
      * right. right. exists e. auto.
    + rewrite (brackets_unresolved _ _ Hfind HG). simpl.
      apply fullKey_ok_storage; [exact Hok |]. intros k e Hin.
      apply In_at_key in Hin; [| exact Hs]. destruct Hin as [[-> ->] | [_ Hin]].
      * right. left. rewrite Hfind. auto.
      * right. right. exists e. auto.
Qed.

Lemma fullKey_ok_Load_children cs :
  forall s, store_ok (store s) = true -> fullKey_ok (store s) = true ->
            fullKey_ok (store (snd (Load_children cs s))) = true.
Proof.
  induction cs as [| child cs IH]; intros s Hok Hfk; [exact Hfk |].
  simpl. unfold mbind, M_bind, bind.
  destruct (Set_ _ _ s) as [r s1] eqn:HS.
  apply IH; change s1 with (snd (r, s1)); rewrite <- HS.
  - apply store_ok_Set. exact Hok.
  - apply fullKey_ok_Set; [| exact Hfk].
    apply store_ok_spec in Hok. tauto.
Qed.

Lemma fullKey_ok_register nm b s :
  store_ok (store s) = true -> fullKey_ok (store s) = true ->
  fullKey_ok
    {| storage := StdMap.at_key ConditionEntry0 nm (set_provider (Some nm))
                    (storage (store s));
       providers := emplace nm
                      (DerivedProvider_new getFunction0 hasFunction0 setFunction0
                         eraseFunction0 nm b)
                      (providers (store s)) |} = true.
Proof.
  intros Hok Hfk. apply store_ok_spec in Hok as (Hs & Hnamed & Hinv).
  rewrite fullKey_ok_spec in Hfk. apply fullKey_ok_spec. simpl.
  intros k e Hin. apply In_at_key in Hin; [| exact Hs].
  assert (Hnm : name (provider_at
                        {| storage := StdMap.at_key ConditionEntry0 nm
                                        (set_provider (Some nm)) (storage (store s));
                           providers := emplace nm
                                          (DerivedProvider_new getFunction0 hasFunction0
                                             setFunction0 eraseFunction0 nm b)
                                          (providers (store s)) |} nm) = nm).
  { unfold provider_at. simpl. rewrite emplace_lookup_same. simpl.
    destruct (providers (store s) !! nm) as [P |] eqn:HP; simpl; [| reflexivity].
    exact (Hnamed _ _ HP). }
  destruct Hin as [[-> ->] | [_ Hin]].
  - destruct (StdMap.find nm (storage (store s))) as [e1 |] eqn:Hfind; simpl.
    + apply (find_In _ _ _ Hs) in Hfind.
      destruct (Hfk _ _ Hfind) as [Hk | [Hk _]]; [left; exact Hk |].
      right. split; [exact Hk |]. right. exists nm. auto.
    + right. split; [reflexivity |]. right. exists nm. auto.
  - destruct (Hfk _ _ Hin) as [Hk | [Hk [Hp | (p & Hp & Hn)]]]; [auto | auto |].
    right. split; [exact Hk |]. right. exists p. split; [exact Hp |].
    destruct (Hinv _ _ _ Hin Hp) as (P & HP & _).
    unfold provider_at in Hn |- *. simpl. rewrite HP in Hn.
    rewrite (emplace_lookup _ _ _ _ _ HP). exact Hn.
Qed.

Lemma fullKey_ok_put_provider p (f : DerivedProvider W -> DerivedProvider W) s :
  (forall P, name (f P) = name P) ->
  store_ok (store s) = true -> fullKey_ok (store s) = true ->
  fullKey_ok (store (snd (put_provider p f s))) = true.
Proof.
  intros Hf Hok Hfk. apply store_ok_spec in Hok as (Hs & Hnamed & Hinv).
  rewrite fullKey_ok_spec in Hfk. apply fullKey_ok_spec. unfold put_provider. run.
  intros k e Hin.
  destruct (Hfk _ _ Hin) as [Hk | [Hk [Hp | (q & Hp & Hn)]]]; [auto | auto |].
  right. split; [exact Hk |]. right. exists q. split; [exact Hp |].
  destruct (Hinv _ _ _ Hin Hp) as (Q & HQ & _).
  unfold provider_at in Hn |- *. simpl. rewrite HQ in Hn. rewrite lookup_alter.
  case_decide as Hpq.
  - subst q. rewrite HQ. simpl. rewrite Hf. exact Hn.
  - rewrite HQ. exact Hn.
Qed.

(** In every store a program reaches, the [fullKey] of an entry is empty
    or the entry's own key. *)
Lemma reachable_fullKey_ok s :
  reachable getFunction0 hasFunction0 setFunction0 eraseFunction0 s ->
  fullKey_ok (store s) = true.
Proof.
  intros Hr.
  induction Hr as [w n | s w Hr IH | nm s Hr IH | nm s Hr IH | nm s Hr IH
                  | nm v s Hr IH | nm v s Hr IH | nm s Hr IH | nm s Hr IH
                  | node s Hr IH | prefix s Hr IH | nm s Hr IH | s Hr IH
                  | p f s Hr IH | p f s Hr IH | p f s Hr IH | p f s Hr IH];
    try pose proof (reachable_store_ok _ _ _ _ _ Hr) as Hok;
    try (pose proof (proj1 (store_ok_spec _) Hok) as (Hs & _ & _)).
  - reflexivity.
  - exact IH.
  - rewrite store_Get. exact IH.
  - rewrite store_Has. exact IH.
  - rewrite store_HasGet. exact IH.
  - apply fullKey_ok_Set; assumption.
  - unfold Add, mbind, M_bind, bind. destruct (Get nm s) as [g s1] eqn:HG.
    assert (Hst : store s1 = store s).
    { change s1 with (snd (g, s1)). rewrite <- HG. apply store_Get. }
    apply fullKey_ok_Set; rewrite Hst; assumption.
  - apply fullKey_ok_Erase. exact IH.
  - apply fullKey_ok_brackets; assumption.
  - apply fullKey_ok_Load_children; assumption.
  - run. apply fullKey_ok_register; assumption.
  - run. apply fullKey_ok_register; assumption.
  - reflexivity.
  - apply fullKey_ok_put_provider; [reflexivity | assumption | assumption].
  - apply fullKey_ok_put_provider; [reflexivity | assumption | assumption].
  - apply fullKey_ok_put_provider; [reflexivity | assumption | assumption].
  - apply fullKey_ok_put_provider; [reflexivity | assumption | assumption].
Qed.

End FullKey.

Section Handles.
Context {W : Type}.
Implicit Types (st : ConditionsStore W) (s : State W) (nm k p : string)
  (e : ConditionEntry) (v : Z).

Lemma starts_with_empty q : StdString.starts_with q "" = true -> q = "".
Proof. destruct q; [reflexivity | discriminate]. Qed.

(** In a well-formed store the key an entry passes to its provider is the
    entry's own key. *)
Lemma provider_key_own st k e p :
  store_ok st = true -> fullKey_ok st = true ->
  In (k, e) (storage st) -> provider e = Some p ->
  provider_key e (provider_at st p) = k.
Proof.
  intros Hok Hfk Hin Hp. apply store_ok_spec in Hok as (_ & _ & Hinv).
  rewrite fullKey_ok_spec in Hfk. unfold provider_key.
  destruct (Hfk _ _ Hin) as [Hk | [Hk [Hnone | (q & Hq & Hn)]]].
  - rewrite Hk. destruct (String.eqb_spec k "") as [-> | _]; [| reflexivity].
    destruct (Hinv _ _ _ Hin Hp) as (P & HP & [Hn | Hst]);
      unfold provider_at; rewrite HP; simpl; [exact Hn |].
    apply starts_with_empty. exact Hst.
  - congruence.
  - rewrite Hk. simpl. congruence.
Qed.

Lemma read_entry k s e :
  StdMap.find k (storage (store s)) = Some e ->
  operator_int64 k s
  = match provider e with
    | None => (value e, s)
    | Some p =>
        call (getFunction (provider_at (store s) p)
                (provider_key e (provider_at (store s) p))) s
    end.
Proof.
  intros H. unfold operator_int64, with_entry. run. rewrite H.
  destruct (provider e); reflexivity.
Qed.

Lemma brackets_fst nm s : fst (operator_brackets nm s) = nm.
Proof.
  unfold operator_brackets. run.
  destruct (StdMap.find nm (storage (store s))); [reflexivity |].
  destruct (GetEntry nm (store s)) as [[x pe] |]; reflexivity.
Qed.

(** After [operator[]] the name has an entry of its own. *)
Lemma brackets_find nm s :
  exists e, StdMap.find nm (storage (store (snd (operator_brackets nm s)))) = Some e.
Proof.
  destruct (StdMap.find nm (storage (store s))) as [e0 |] eqn:Hfind.
  - rewrite (brackets_existing _ _ _ Hfind). eauto.
  - destruct (GetEntry nm (store s)) as [[x pe] |] eqn:HG.
    + rewrite (brackets_prefixed _ _ _ _ Hfind HG). simpl.
      rewrite find_at_key_same. eauto.
    + rewrite (brackets_unresolved _ _ Hfind HG). simpl.
      rewrite find_at_key_same. eauto.
Qed.

Lemma brackets_world nm s : world (snd (operator_brackets nm s)) = world s.
Proof.
  unfold operator_brackets. run.
  destruct (StdMap.find nm (storage (store s))); [reflexivity |].
  destruct (GetEntry nm (store s)) as [[x pe] |]; reflexivity.
Qed.

(** [operator[]] does not change what [Get] of the name answers. *)
Lemma Get_after_brackets nm s :
  StdMap.sorted (storage (store s)) = true ->
  let s' := snd (operator_brackets nm s) in
  fst (Get nm s') = fst (Get nm s) /\ world (snd (Get nm s')) = world (snd (Get nm s)).
Proof.
  intros Hs s'. subst s'.
  destruct (StdMap.find nm (storage (store s))) as [e0 |] eqn:Hfind.
  - rewrite (brackets_existing _ _ _ Hfind). auto.
  - destruct (GetEntry nm (store s)) as [[x pe] |] eqn:HG.
    + assert (Hne : x <> nm).
      { intros ->. apply GetEntry_In in HG. apply (find_In _ _ _ Hs) in HG. congruence. }
      destruct (GetEntry_prefix _ _ _ _ HG Hne) as (p & P & Hp & _).
      rewrite (brackets_prefixed _ _ _ _ Hfind HG). simpl.
      match goal with
      | |- context [Get nm ?s1] =>
          assert (HG1 : GetEntry nm (store s1)
                        = Some (nm, {| value := 0; provider := provider pe; fullKey := nm |}))
      end.
      { apply GetEntry_exact; simpl; [apply sorted_at_key; exact Hs |].
        rewrite find_at_key_same, Hfind. reflexivity. }
      rewrite (Get_derived _ _ _ _ p HG1 Hp), (Get_derived _ _ _ _ p HG Hp).
      rewrite !call_fst, !call_world. auto.
    + rewrite (brackets_unresolved _ _ Hfind HG). simpl.
      match goal with
      | |- context [Get nm ?s1] =>
          assert (HG1 : GetEntry nm (store s1) = Some (nm, ConditionEntry0))
      end.
      { apply GetEntry_exact; simpl; [apply sorted_at_key; exact Hs |].
        rewrite find_at_key_same, Hfind. reflexivity. }
      rewrite (Get_inline _ _ _ _ HG1 eq_refl), (Get_unresolved _ _ HG). auto.
Qed.

(** X9: Reading a condition through the handle [operator[]] returns gives
    what [Get] gives: the same value, after the same calls of the
    provider. *)
Theorem handle_read_is_Get (s : State W) (nm : string) :
  store_ok (store s) = true -> fullKey_ok (store s) = true ->
  let h := operator_brackets nm s in
  let r := operator_int64 (fst h) (snd h) in
  fst r = fst (Get nm s) /\ world (snd r) = world (snd (Get nm s)) /\
  store (snd r) = store (snd h).
Proof.
  intros Hok Hfk h r. subst h r. rewrite brackets_fst.
  pose proof (proj1 (store_ok_spec _) Hok) as (Hs & _ & _).
  pose proof (store_ok_brackets nm s Hok) as Hok'.
  pose proof (fullKey_ok_brackets nm s Hs Hfk) as Hfk'.
  destruct (Get_after_brackets nm s Hs) as [<- <-].
  destruct (brackets_find nm s) as [e He].
  set (s' := snd (operator_brackets nm s)) in *.
  pose proof (proj1 (store_ok_spec _) Hok') as (Hs' & _ & _).
  pose proof (GetEntry_exact _ _ _ Hs' He) as HG.
  rewrite (read_entry _ _ _ He).
  destruct (provider e) as [p |] eqn:Hp.
  - rewrite (Get_derived _ _ _ _ p HG Hp).
    rewrite (provider_key_own _ _ _ _ Hok' Hfk' (proj1 (find_In _ _ _ Hs') He) Hp).
    rewrite !call_fst, !call_world, call_store. auto.
  - rewrite (Get_inline _ _ _ _ HG Hp). auto.
Qed.

End Handles.

Section HandleWrites.
Context {W : Type}.
Implicit Types (st : ConditionsStore W) (s : State W) (nm k p : string)
  (e : ConditionEntry) (v : Z).

Lemma modify_at_key {V : Type} (dflt : V) k (g f : V -> V) (m : StdMap.t V) :
  StdMap.modify k g (StdMap.at_key dflt k f m)
  = StdMap.at_key dflt k (fun x => g (f x)) m.
Proof.
  induction m as [| [k0 v0] m IH]; simpl.
  - rewrite String.eqb_refl. reflexivity.
  - destruct (StdString.compare k k0) eqn:Hc; simpl.
    + apply (proj1 (compare_Eq k k0)) in Hc. subst k0.
      rewrite String.eqb_refl. reflexivity.
    + rewrite String.eqb_refl. reflexivity.
    + destruct (String.eqb_spec k k0) as [-> | _].
      * rewrite compare_refl in Hc. discriminate.
      * rewrite IH. reflexivity.
Qed.

Lemma modify_ext {V : Type} k (f g : V -> V) (m : StdMap.t V) x :
  StdMap.find k m = Some x -> f x = g x -> StdMap.modify k f m = StdMap.modify k g m.
Proof.
  intros Hfind Hfg. induction m as [| [k0 v0] m IH]; simpl in *; [reflexivity |].
  destruct (StdString.compare k k0) eqn:Hc.
  - apply (proj1 (compare_Eq k k0)) in Hc. subst k0. rewrite String.eqb_refl.
    injection Hfind as ->. rewrite Hfg. reflexivity.
  - discriminate.
  - destruct (String.eqb_spec k k0) as [-> | _].
    + rewrite compare_refl in Hc. discriminate.
    + rewrite (IH Hfind). reflexivity.
Qed.

Lemma at_key_ext_absent {V : Type} (dflt : V) k (f g : V -> V) (m : StdMap.t V) :
  StdMap.find k m = None -> f dflt = g dflt ->
  StdMap.at_key dflt k f m = StdMap.at_key dflt k g m.
Proof.
  intros Hfind Hfg. induction m as [| [k0 v0] m IH]; simpl in *.
  - rewrite Hfg. reflexivity.
  - destruct (StdString.compare k k0); [discriminate | |].
    + rewrite Hfg. reflexivity.
    + rewrite (IH Hfind). reflexivity.
Qed.

Lemma compound_entry ref f s e :
  StdMap.find ref (storage (store s)) = Some e ->
  compound ref f s
  = match provider e with
    | None =>
        (ref, {| store := {| storage := StdMap.modify ref
                                          (fun e => set_value (f (value e)) e)
                                          (storage (store s));
                             providers := providers (store s) |};
                 world := world s; lookups := lookups s |})
    | Some p =>
        let P := provider_at (store s) p in
        let g := getFunction P (provider_key e P) (world s) in
        let r := setFunction P (provider_key e P) (f (fst g)) (snd g) in
        (ref, {| store := store s; world := snd r; lookups := lookups s |})
    end.
Proof.
  intros H. unfold compound, with_entry, update_value, read_modify_write. run. rewrite H.
  destruct (provider e) as [p |]; simpl; [| reflexivity].
  destruct (getFunction _ _ (world s)) as [g w1]. simpl.
  destruct (setFunction _ _ (f g) w1) as [r w2]. reflexivity.
Qed.

Lemma assign_entry ref v s e :
  StdMap.find ref (storage (store s)) = Some e ->
  operator_assign ref v s
  = match provider e with
    | None =>
        (ref, {| store := {| storage := StdMap.modify ref (set_value v) (storage (store s));
                             providers := providers (store s) |};
                 world := world s; lookups := lookups s |})
    | Some p =>
        let P := provider_at (store s) p in
        let r := setFunction P (provider_key e P) v (world s) in
        (ref, {| store := store s; world := snd r; lookups := lookups s |})
    end.
Proof.
  intros H. unfold operator_assign, with_entry, update_value. run. rewrite H.
  destruct (provider e) as [p |]; simpl; [| reflexivity].
  destruct (setFunction _ _ v (world s)) as [r w1]. reflexivity.
Qed.

(** A read-modify-write [Set(name, f(Get(name)))], as [Add] does it. *)
Lemma Get_then_Set nm (f : Z -> Z) s :
  StdMap.sorted (storage (store s)) = true ->
  let r := snd (Set_ nm (f (fst (Get nm s))) (snd (Get nm s))) in
  match GetEntry nm (store s) with
  | None =>
      store r = {| storage := StdMap.at_key ConditionEntry0 nm (set_value (f 0))
                                (storage (store s));
                   providers := providers (store s) |} /\ world r = world s
  | Some (k, e) =>
      match provider e with
      | None =>
          store r = {| storage := StdMap.modify nm (set_value (f (value e)))
                                    (storage (store s));
                       providers := providers (store s) |} /\ world r = world s
      | Some p =>
          let P := provider_at (store s) p in
          let g := getFunction P nm (world s) in
          store r = store s /\ world r = snd (setFunction P nm (f (fst g)) (snd g))
      end
  end.
Proof.
  intros Hs r. subst r.
  destruct (GetEntry nm (store s)) as [[k e] |] eqn:HG.
  - destruct (provider e) as [p |] eqn:Hp.
    + rewrite (Get_derived _ _ _ _ _ HG Hp).
      assert (HG1 : GetEntry nm (store (snd (call (getFunction (provider_at (store s) p) nm)
                                               (tick s)))) = Some (k, e)).
      { rewrite call_store. exact HG. }
      rewrite (Set_derived _ _ _ _ _ _ HG1 Hp).
      rewrite !call_store, !call_world, !call_fst. simpl.
      rewrite ?call_store, ?call_world. auto.
    + rewrite (Get_inline _ _ _ _ HG Hp). simpl.
      assert (HG1 : GetEntry nm (store (tick s)) = Some (k, e)) by exact HG.
      rewrite (Set_inline _ _ _ _ _ HG1 Hp). simpl.
      rewrite (GetEntry_inline _ _ _ _ HG Hp). auto.
  - rewrite (Get_unresolved _ _ HG). simpl.
    assert (HG1 : GetEntry nm (store (tick s)) = None) by exact HG.
    rewrite (Set_unresolved _ _ _ HG1). simpl. auto.
Qed.

(** A compound operator through the handle of [operator[]] against the
    read-modify-write [Set(name, f(Get(name)))]. *)
Lemma compound_after_brackets nm (f : Z -> Z) s :
  store_ok (store s) = true -> fullKey_ok (store s) = true ->
  let a := snd (compound nm f (snd (operator_brackets nm s))) in
  let b := snd (Set_ nm (f (fst (Get nm s))) (snd (Get nm s))) in
  world a = world b /\ providers (store a) = providers (store b) /\
  primary_pairs (storage (store a)) = primary_pairs (storage (store b)) /\
  ((is_Some (StdMap.find nm (storage (store s))) \/ GetEntry nm (store s) = None) ->
   store a = store b).
Proof.
  intros Hok Hfk a b. subst a b.
  pose proof (proj1 (store_ok_spec _) Hok) as (Hs & _ & _).
  pose proof (Get_then_Set nm f s Hs) as Hb. cbv zeta in Hb.
  destruct (StdMap.find nm (storage (store s))) as [e0 |] eqn:Hfind.
  - rewrite (brackets_existing _ _ _ Hfind). simpl snd.
    rewrite (compound_entry _ _ _ _ Hfind).
    rewrite (GetEntry_exact _ _ _ Hs Hfind) in Hb.
    destruct (provider e0) as [p |] eqn:Hp.
    + cbv zeta.
      rewrite (provider_key_own _ _ _ _ Hok Hfk (proj1 (find_In _ _ _ Hs) Hfind) Hp).
      cbv zeta in Hb |- *. simpl. destruct Hb as [-> ->]. auto.
    + simpl. destruct Hb as [-> ->]. simpl.
      rewrite (modify_ext nm (fun e => set_value (f (value e)) e)
                 (set_value (f (value e0))) _ e0 Hfind eq_refl). auto.
  - destruct (GetEntry nm (store s)) as [[x pe] |] eqn:HG.
    + assert (Hne : x <> nm).
      { intros ->. apply GetEntry_In in HG. apply (find_In _ _ _ Hs) in HG. congruence. }
      destruct (GetEntry_prefix _ _ _ _ HG Hne) as (p & P & Hp & HP & Hflag & Hst).
      destruct pe as [pv pp pf]. simpl in Hp. subst pp.
      cbv zeta in Hb. simpl provider in Hb. destruct Hb as [Hb1 Hb2]. rewrite Hb1, Hb2.
      pose proof (store_ok_brackets nm s Hok) as Hok'.
      pose proof (fullKey_ok_brackets nm s Hs Hfk) as Hfk'.
      rewrite (brackets_prefixed _ _ _ _ Hfind HG) in Hok', Hfk' |- *.
      simpl snd in *. simpl provider in *. simpl store in Hok', Hfk'.
      match goal with
      | |- context [compound nm f ?s1] =>
          assert (Hnew : StdMap.find nm (storage (store s1))
                         = Some {| value := 0; provider := Some p; fullKey := nm |})
      end.
      { simpl. rewrite find_at_key_same, Hfind. reflexivity. }
      rewrite (compound_entry _ _ _ _ Hnew).
      cbn [provider store storage providers world lookups].
      assert (Hin : In (nm, {| value := 0; provider := Some p; fullKey := nm |})
                       (StdMap.at_key ConditionEntry0 nm
                          (fun ce => set_fullKey nm (set_provider (Some p) ce))
                          (storage (store s)))).
      { apply In_find_some. exact Hnew. }
      rewrite (provider_key_own _ _ _ p Hok' Hfk' Hin eq_refl).
      simpl.
      split; [reflexivity |]. split; [reflexivity |]. split.
      * apply (primary_pairs_at_key_derived _ _ _ p); [exact Hfind | reflexivity].
      * intros [[? ?] | ?]; discriminate.
    + destruct Hb as [Hb1 Hb2]. rewrite Hb1, Hb2.
      rewrite (brackets_unresolved _ _ Hfind HG). simpl snd.
      match goal with
      | |- context [compound nm f ?s1] =>
          assert (Hnew : StdMap.find nm (storage (store s1)) = Some ConditionEntry0)
      end.
      { simpl. rewrite find_at_key_same, Hfind. reflexivity. }
      rewrite (compound_entry _ _ _ _ Hnew). simpl.
      rewrite modify_at_key.
      rewrite (at_key_ext_absent ConditionEntry0 nm
                 (fun x => set_value (f (value (id x))) (id x)) (set_value (f 0)) _
                 Hfind eq_refl).
      auto.
Qed.

(** X10: [store[name] += v] against [Add(name, v)]: the providers' world, the
    registry and the primary conditions end up the same; the whole store
    is the same unless the name had no entry of its own and is covered
    by a prefix provider (then [operator[]] has created one). *)
Theorem handle_add_assign_is_Add (s : State W) (nm : string) (v : Z) :
  store_ok (store s) = true -> fullKey_ok (store s) = true ->
  let a := snd (operator_add_assign nm v (snd (operator_brackets nm s))) in
  let b := snd (Add nm v s) in
  world a = world b /\ providers (store a) = providers (store b) /\
  primaries (store a) = primaries (store b) /\
  ((is_Some (StdMap.find nm (storage (store s))) \/ GetEntry nm (store s) = None) ->
   store a = store b).
Proof.
  intros Hok Hfk a b. subst a b. rewrite !primaries_pairs.
  assert (HAdd : snd (Add nm v s)
                 = snd (Set_ nm (add64 (fst (Get nm s)) v) (snd (Get nm s)))).
  { unfold Add, mbind, M_bind, bind. destruct (Get nm s). reflexivity. }
  rewrite HAdd. unfold operator_add_assign.
  exact (compound_after_brackets nm (fun g => add64 g v) s Hok Hfk).
Qed.

(** X11: [store[name] = v] against [Set(name, v)]: the same, for plain
    assignment. *)
Theorem handle_assign_is_Set (s : State W) (nm : string) (v : Z) :
  store_ok (store s) = true -> fullKey_ok (store s) = true ->
  let a := snd (operator_assign nm v (snd (operator_brackets nm s))) in
  let b := snd (Set_ nm v s) in
  world a = world b /\ providers (store a) = providers (store b) /\
  primaries (store a) = primaries (store b) /\
  ((is_Some (StdMap.find nm (storage (store s))) \/ GetEntry nm (store s) = None) ->
   store a = store b).
Proof.
  intros Hok Hfk a b. subst a b. rewrite !primaries_pairs.
  pose proof (proj1 (store_ok_spec _) Hok) as (Hs & _ & _).
  destruct (StdMap.find nm (storage (store s))) as [e0 |] eqn:Hfind.
  - rewrite (brackets_existing _ _ _ Hfind). simpl snd.
    rewrite (assign_entry _ _ _ _ Hfind).
    pose proof (GetEntry_exact _ _ _ Hs Hfind) as HG.
    destruct (provider e0) as [p |] eqn:Hp.
    + cbv zeta.
      rewrite (provider_key_own _ _ _ _ Hok Hfk (proj1 (find_In _ _ _ Hs) Hfind) Hp).
      rewrite (Set_derived _ _ _ _ _ _ HG Hp), call_store, call_world. simpl. auto.
    + rewrite (Set_inline _ _ _ _ _ HG Hp). simpl. auto.
  - destruct (GetEntry nm (store s)) as [[x pe] |] eqn:HG.
    + assert (Hne : x <> nm).
      { intros ->. apply GetEntry_In in HG. apply (find_In _ _ _ Hs) in HG. congruence. }
      destruct (GetEntry_prefix _ _ _ _ HG Hne) as (p & P & Hp & HP & Hflag & Hst).
      destruct pe as [pv pp pf]. simpl in Hp. subst pp.
      pose proof (store_ok_brackets nm s Hok) as Hok'.
      pose proof (fullKey_ok_brackets nm s Hs Hfk) as Hfk'.
      rewrite (brackets_prefixed _ _ _ _ Hfind HG) in Hok', Hfk' |- *.
      simpl snd in *. simpl provider in *. simpl store in Hok', Hfk'.
      match goal with
      | |- context [operator_assign nm v ?s1] =>
          assert (Hnew : StdMap.find nm (storage (store s1))
                         = Some {| value := 0; provider := Some p; fullKey := nm |})
      end.
      { simpl. rewrite find_at_key_same, Hfind. reflexivity. }
      rewrite (assign_entry _ _ _ _ Hnew).
      cbn [provider store storage providers world lookups].
      assert (Hin : In (nm, {| value := 0; provider := Some p; fullKey := nm |})
                       (StdMap.at_key ConditionEntry0 nm
                          (fun ce => set_fullKey nm (set_provider (Some p) ce))
                          (storage (store s)))).
      { apply In_find_some. exact Hnew. }
      rewrite (provider_key_own _ _ _ p Hok' Hfk' Hin eq_refl).
      rewrite (Set_derived _ _ _ _ _ _ HG eq_refl), call_store, call_world.
      simpl.
      split; [reflexivity |]. split; [reflexivity |]. split.
      * apply (primary_pairs_at_key_derived _ _ _ p); [exact Hfind | reflexivity].
      * intros [[? ?] | ?]; discriminate.
    + rewrite (brackets_unresolved _ _ Hfind HG). simpl snd.
      match goal with
      | |- context [operator_assign nm v ?s1] =>
          assert (Hnew : StdMap.find nm (storage (store s1)) = Some ConditionEntry0)
      end.
      { simpl. rewrite find_at_key_same, Hfind. reflexivity. }
      rewrite (assign_entry _ _ _ _ Hnew). simpl.
      rewrite (Set_unresolved _ _ _ HG). simpl.
      rewrite modify_at_key. auto.
Qed.

End HandleWrites.

(** * Construction and loading *)

Section Construction.
Context {W : Type}.
Implicit Types (st : ConditionsStore W) (s : State W) (nm k p : string)
  (e : ConditionEntry) (v : Z).

Lemma last_value_acc k (l : list (string * Z)) (acc : option Z) :
  fold_left (fun acc x => if String.eqb (fst x) k then Some (snd x) else acc) l acc
  = match last_value k l with Some v => Some v | None => acc end.
Proof.
  unfold last_value. revert acc. induction l as [| x l IH]; intros acc; simpl.
  - reflexivity.
  - rewrite IH. rewrite (IH (if String.eqb (fst x) k then Some (snd x) else None)).
    destruct (fold_left _ l None); [reflexivity |].
    destruct (String.eqb (fst x) k); reflexivity.
Qed.

Lemma last_value_cons k x (l : list (string * Z)) :
  last_value k (x :: l)
  = match last_value k l with
    | Some v => Some v
    | None => if String.eqb (fst x) k then Some (snd x) else None
    end.
Proof. unfold last_value at 1. simpl. apply last_value_acc. Qed.

Lemma Set_primary_frame nm v s :
  StdMap.sorted (storage (store s)) = true -> only_primaries (store s) = true ->
  world (snd (Set_ nm v s)) = world s /\
  providers (store (snd (Set_ nm v s))) = providers (store s).
Proof.
  intros Hs Hop. pose proof (GetEntry_primary nm _ Hs Hop) as HG.
  destruct (StdMap.find nm (storage (store s))) as [e |] eqn:Hfind; simpl in HG.
  - assert (Hp : provider e = None).
    { eapply only_primaries_In; [exact Hop |]. apply find_In; eassumption. }
    rewrite (Set_inline _ _ _ _ _ HG Hp). auto.
  - rewrite (Set_unresolved _ _ _ HG). auto.
Qed.

Lemma Set_each_primary (l : list (string * Z)) :
  forall s,
    StdMap.sorted (storage (store s)) = true -> only_primaries (store s) = true ->
    let s' := snd (Set_each l s) in
    StdMap.sorted (storage (store s')) = true /\ only_primaries (store s') = true /\
    world s' = world s /\ providers (store s') = providers (store s) /\
    forall k, option_map value (StdMap.find k (storage (store s')))
              = match last_value k l with
                | Some v => Some v
                | None => option_map value (StdMap.find k (storage (store s)))
                end.
Proof.
  induction l as [| [k0 v0] l IH]; intros s Hs Hop; cbv zeta.
  - simpl. auto.
  - simpl Set_each. unfold mbind, M_bind, bind.
    destruct (Set_ k0 v0 s) as [r s1] eqn:HS.
    assert (Hs1 : s1 = snd (Set_ k0 v0 s)) by (rewrite HS; reflexivity).
    destruct (Set_primary k0 v0 s Hs Hop) as (Hsa & Hopa & Hfa).
    destruct (Set_primary_frame k0 v0 s Hs Hop) as (Hwa & Hpa).
    rewrite <- Hs1 in Hsa, Hopa, Hfa, Hwa, Hpa.
    destruct (IH s1 Hsa Hopa) as (Hsb & Hopb & Hwb & Hpb & Hfb).
    split; [exact Hsb |]. split; [exact Hopb |].
    split; [congruence |]. split; [congruence |].
    intros k. rewrite Hfb, last_value_cons, Hfa. simpl.
    destruct (last_value k l); [reflexivity |].
    destruct (String.eqb k0 k); reflexivity.
Qed.

Lemma Get_Has_primary k s :
  StdMap.sorted (storage (store s)) = true -> only_primaries (store s) = true ->
  fst (Get k s) = default 0 (option_map value (StdMap.find k (storage (store s)))) /\
  fst (Has k s)
  = match option_map value (StdMap.find k (storage (store s))) with
    | Some _ => true
    | None => false
    end.
Proof.
  intros Hs Hop. destruct (Get_primary k s Hs Hop) as [-> ->].
  split; [reflexivity |].
  destruct (StdMap.find k (storage (store s))); reflexivity.
Qed.

(** X12: A store built from a list of initial conditions holds, for each key,
    the value of the last pair with that key; a key is present exactly
    when the list names it, even with the value 0.  No provider is
    registered and nothing is called. *)
Theorem ConditionsStore_of_list_last_wins (l : list (string * Z)) (w : W) (k : string) :
  let s := ConditionsStore_of_list l w in
  fst (Get k s) = default 0 (last_value k l) /\
  fst (Has k s) = match last_value k l with Some _ => true | None => false end /\
  world s = w /\ providers (store s) = ∅.
Proof.
  cbv zeta. unfold ConditionsStore_of_list.
  destruct (Set_each_primary l (new_store w) eq_refl eq_refl)
    as (Hs & Hop & Hw & Hp & Hf).
  destruct (Get_Has_primary k _ Hs Hop) as [-> ->]. rewrite Hf. simpl.
  destruct (last_value k l); auto.
Qed.

Lemma last_value_absent k (l : list (string * Z)) :
  ~ In k (map fst l) -> last_value k l = None.
Proof.
  induction l as [| [k0 v0] l IH]; intros Hnin; [reflexivity |].
  rewrite last_value_cons, IH by (intros H; apply Hnin; right; exact H). simpl.
  destruct (String.eqb_spec k0 k) as [-> | _]; [| reflexivity].
  exfalso. apply Hnin. left. reflexivity.
Qed.

Lemma last_value_sorted k (m : StdMap.t Z) :
  StdMap.sorted m = true -> last_value k m = StdMap.find k m.
Proof.
  induction m as [| [k0 v0] m IH]; intros Hs; [reflexivity |].
  pose proof (sorted_tail _ _ _ Hs) as Hs'.
  rewrite last_value_cons, (IH Hs'). simpl.
  destruct (StdString.compare k k0) eqn:Hc.
  - apply (proj1 (compare_Eq k k0)) in Hc. subst k0. rewrite String.eqb_refl.
    destruct (StdMap.find k m) as [v |] eqn:Hf; [| reflexivity].
    apply (find_In _ _ _ Hs') in Hf.
    pose proof (sorted_above _ _ _ _ _ Hs Hf) as Hlt.
    rewrite less_irrefl in Hlt. discriminate.
  - destruct (StdMap.find k m) as [v |] eqn:Hf.
    + apply (find_In _ _ _ Hs') in Hf.
      pose proof (sorted_above _ _ _ _ _ Hs Hf) as Hlt.
      apply less_Lt in Hc. rewrite (less_asym _ _ Hc) in Hlt. discriminate.
    + destruct (String.eqb_spec k0 k) as [-> | _]; [| reflexivity].
      rewrite compare_refl in Hc. discriminate.
  - destruct (StdMap.find k m); [reflexivity |].
    destruct (String.eqb_spec k0 k) as [-> | _]; [| reflexivity].
    rewrite compare_refl in Hc. discriminate.
Qed.

(** X13: A store built from a map of initial conditions reads, for every key,
    as the map does: the mapped value, or 0 and absent for a key the map
    does not hold. *)
Theorem ConditionsStore_of_map_reads_map (m : StdMap.t Z) (w : W) (k : string) :
  StdMap.sorted m = true ->
  let s := ConditionsStore_of_map m w in
  fst (Get k s) = default 0 (StdMap.find k m) /\
  fst (Has k s) = match StdMap.find k m with Some _ => true | None => false end.
Proof.
  intros Hm. cbv zeta. unfold ConditionsStore_of_map.
  destruct (Set_each_primary m (new_store w) eq_refl eq_refl)
    as (Hs & Hop & Hw & Hp & Hf).
  destruct (Get_Has_primary k _ Hs Hop) as [-> ->]. rewrite Hf. simpl.
  rewrite (last_value_sorted k m Hm).
  destruct (StdMap.find k m); auto.
Qed.

Lemma Load_children_Set_each (cs : list DataNode) s :
  Load_children cs s = Set_each (map child_pair cs) s.
Proof.
  revert s. induction cs as [| c cs IH]; intros s; [reflexivity |].
  simpl. unfold mbind, M_bind, bind.
  match goal with |- context [Set_ ?a ?b s] => destruct (Set_ a b s) as [r s1] end.
  apply IH.
Qed.

(** X14: Loading a node into a store without providers sets, for each key,
    the value of the last child with that key, a child without a value
    token counting as 1; keys the node does not name keep what they
    read before. *)
Theorem Load_last_child_wins (node : DataNode) (s : State W) (k : string) :
  StdMap.sorted (storage (store s)) = true -> only_primaries (store s) = true ->
  let s' := snd (Load node s) in
  fst (Get k s')
  = match last_value k (map child_pair (DataNode.children node)) with
    | Some v => v
    | None => fst (Get k s)
    end /\
  fst (Has k s')
  = match last_value k (map child_pair (DataNode.children node)) with
    | Some _ => true
    | None => fst (Has k s)
    end /\
  world s' = world s.
Proof.
  intros Hs Hop. cbv zeta. unfold Load. rewrite Load_children_Set_each.
  destruct (Set_each_primary (map child_pair (DataNode.children node)) s Hs Hop)
    as (Hs' & Hop' & Hw & Hp & Hf).
  destruct (Get_Has_primary k _ Hs' Hop') as [-> ->].
  destruct (Get_Has_primary k _ Hs Hop) as [-> ->].
  rewrite Hf. destruct (last_value k _); auto.
Qed.

End Construction.

(** * Iteration from a lower bound *)

Section LowerBound.
Context {W : Type}.
Implicit Types (st : ConditionsStore W) (m acc : StdMap.t ConditionEntry).

Lemma filter_at_or_above {V : Type} key k (v : V) (m : StdMap.t V) :
  StdMap.sorted ((k, v) :: m) = true -> StdString.less k key = false ->
  List.filter (fun x => negb (StdString.less (fst x) key)) ((k, v) :: m) = (k, v) :: m.
Proof.
  intros Hs Hk. apply forallb_filter_id. apply forallb_forall.
  intros [k' v'] [[= <- <-] | Hin]; simpl.
  - rewrite Hk. reflexivity.
  - pose proof (sorted_above _ _ _ _ _ Hs Hin) as Hlt.
    destruct (StdString.less k' key) eqn:Hc; [| reflexivity].
    pose proof (less_trans _ _ _ Hlt Hc) as Hkk. congruence.
Qed.

(** [lower_bound] stops in front of the nodes whose key is not below
    the bound. *)
Lemma lower_bound_rest {V : Type} key (m : StdMap.t V) :
  StdMap.sorted m = true ->
  forall passed : StdMap.t V, exists passed' : StdMap.t V,
    StdMap.seek (fun k => negb (StdString.less k key)) passed m
    = StdMap.Iterator passed'
        (List.filter (fun x => negb (StdString.less (fst x) key)) m).
Proof.
  induction m as [| [k v] m IH]; intros Hs passed.
  - exists passed. reflexivity.
  - cbn [StdMap.seek]. destruct (StdString.less k key) eqn:Hk; cbn [negb].
    + destruct (IH (sorted_tail _ _ _ Hs) ((k, v) :: passed)) as [passed' ->].
      exists passed'. simpl. rewrite Hk. reflexivity.
    + exists passed. rewrite (filter_at_or_above key k v m Hs Hk). reflexivity.
Qed.

Lemma primary_pairs_filter (f : string -> bool) m :
  primary_pairs (List.filter (fun x => f (fst x)) m)
  = List.filter (fun x => f (fst x)) (primary_pairs m).
Proof.
  induction m as [| [k e] m IH]; [reflexivity |].
  simpl List.filter at 1. rewrite (primary_pairs_cons k e m).
  destruct (f k) eqn:Hf.
  - rewrite primary_pairs_cons. destruct (provider e); [exact IH |].
    simpl. rewrite Hf, IH. reflexivity.
  - destruct (provider e); [exact IH |]. simpl. rewrite Hf. exact IH.
Qed.

(** X15: Iterating from [PrimariesLowerBound(key)] to [PrimariesEnd()] yields
    the primary conditions whose key is not below [key], in ascending
    key order: the iteration from [PrimariesBegin()] without the pairs
    that sort before [key]. *)
Theorem PrimariesLowerBound_iteration (st : ConditionsStore W) (key : string) :
  StdMap.sorted (storage st) = true ->
  primaries_from key st
  = List.filter (fun x => negb (StdString.less (fst x) key)) (primaries st) /\
  (forall k v, In (k, v) (primaries_from key st) <->
     StdString.less k key = false /\ In (k, v) (primaries st)).
Proof.
  intros Hs.
  assert (Heq : primaries_from key st
                = List.filter (fun x => negb (StdString.less (fst x) key)) (primaries st)).
  { unfold primaries_from, PrimariesLowerBound, PrimariesIterator_new, StdMap.lower_bound.
    destruct (lower_bound_rest key (storage st) Hs []) as [passed' ->].
    rewrite for_primaries_from, fold_left_snoc, primaries_pairs.
    apply (primary_pairs_filter (fun k => negb (StdString.less k key))). }
  split; [exact Heq |].
  intros k v. rewrite Heq, filter_In. simpl. rewrite negb_true_iff. tauto.
Qed.

End LowerBound.

(** * Registration *)

Section MoreRegistration.
Context {W : Type}.
Variable getFunction0 : string -> W -> Z * W.
Variable hasFunction0 : string -> W -> bool * W.
Variable setFunction0 : string -> Z -> W -> bool * W.
Variable eraseFunction0 : string -> W -> bool * W.
Implicit Types (st : ConditionsStore W) (s : State W) (nm k p : string)
  (e : ConditionEntry) (v : Z).

Local Abbreviation Prefixed :=
  (GetProviderPrefixed getFunction0 hasFunction0 setFunction0 eraseFunction0).
Local Abbreviation Named :=
  (GetProviderNamed getFunction0 hasFunction0 setFunction0 eraseFunction0).

Lemma emplace_taken key (P Q : DerivedProvider W) (m : gmap string (DerivedProvider W)) :
  m !! key = Some Q -> emplace key P m = m.
Proof. intros H. unfold emplace. rewrite H. reflexivity. Qed.

(** X16: Registering under a name that is already in the registry keeps the
    provider that is there, with its prefix flag and its callbacks,
    whichever of the two functions is called; the index entry at the
    name points to it afterwards. *)
Theorem registration_keeps_existing_provider (s : State W) (p : string)
    (P : DerivedProvider W) :
  providers (store s) !! p = Some P ->
  let a := snd (Named p s) in
  let b := snd (Prefixed p s) in
  a = b /\ fst (Named p s) = p /\ fst (Prefixed p s) = p /\
  providers (store a) = providers (store s) /\
  provider_at (store a) p = P /\
  option_map provider (StdMap.find p (storage (store a))) = Some (Some p) /\
  world a = world s.
Proof.
  intros HP a b. subst a b. unfold GetProviderNamed, GetProviderPrefixed. run.
  rewrite !(emplace_taken _ _ _ _ HP).
  split; [reflexivity |]. split; [reflexivity |]. split; [reflexivity |].
  split; [reflexivity |]. split.
  - unfold provider_at. simpl. rewrite HP. reflexivity.
  - split; [| reflexivity]. rewrite find_at_key_same.
    destruct (StdMap.find p (storage (store s))); reflexivity.
Qed.

Lemma emplace_idem key (P : DerivedProvider W) (m : gmap string (DerivedProvider W)) :
  emplace key P (emplace key P m) = emplace key P m.
Proof.
  unfold emplace at 1. rewrite emplace_lookup_same. reflexivity.
Qed.

(** X17: Asking twice for the provider of a name is asking once: the second
    call returns the same reference and changes nothing. *)
Theorem registration_idempotent (s : State W) (p : string) :
  Named p (snd (Named p s)) = (p, snd (Named p s)) /\
  Prefixed p (snd (Prefixed p s)) = (p, snd (Prefixed p s)).
Proof.
  unfold GetProviderNamed, GetProviderPrefixed. run.
  rewrite !emplace_idem, !at_key_idem by reflexivity. split; reflexivity.
Qed.

Lemma primary_pairs_at_key_hide nm p (m : StdMap.t ConditionEntry) :
  StdMap.sorted m = true ->
  primary_pairs (StdMap.at_key ConditionEntry0 nm (set_provider (Some p)) m)
  = List.filter (fun x => negb (String.eqb (fst x) nm)) (primary_pairs m).
Proof.
  induction m as [| [k e] m IH]; intros Hs; [reflexivity |].
  pose proof (sorted_tail _ _ _ Hs) as Hs'.
  assert (Hrest : forall k' v', In (k', v') (primary_pairs m) -> StdString.less k k' = true).
  { intros k' v' Hin. apply In_primary_pairs in Hin as (e' & Hin & _).
    exact (sorted_above _ _ _ _ _ Hs Hin). }
  assert (Hkeep : StdString.less nm k = true \/ nm = k ->
                  List.filter (fun x => negb (String.eqb (fst x) nm)) (primary_pairs m)
                  = primary_pairs m).
  { intros Hle. apply forallb_filter_id. apply forallb_forall. intros [k' v'] Hin. simpl.
    apply negb_true_iff. apply String.eqb_neq. intros ->.
    pose proof (Hrest _ _ Hin) as Hlt.
    destruct Hle as [Hle | ->].
    - rewrite (less_asym _ _ Hle) in Hlt. discriminate.
    - rewrite less_irrefl in Hlt. discriminate. }
  cbn [StdMap.at_key]. destruct (StdString.compare nm k) eqn:Hc.
  - apply (proj1 (compare_Eq nm k)) in Hc. subst k.
    rewrite !primary_pairs_cons. simpl.
    destruct (provider e); [symmetry; apply Hkeep; auto |].
    simpl. rewrite String.eqb_refl. simpl. symmetry. apply Hkeep. auto.
  - apply less_Lt in Hc. rewrite (primary_pairs_cons nm). simpl.
    rewrite (primary_pairs_cons k e m).
    destruct (provider e).
    + symmetry. apply Hkeep. auto.
    + simpl. destruct (String.eqb_spec k nm) as [-> | _].
      * rewrite less_irrefl in Hc. discriminate.
      * simpl. f_equal. symmetry. apply Hkeep. auto.
  - rewrite !(primary_pairs_cons k). destruct (provider e); [exact (IH Hs') |].
    simpl. destruct (String.eqb_spec k nm) as [-> | _].
    + rewrite compare_refl in Hc. discriminate.
    + simpl. f_equal. exact (IH Hs').
Qed.

(** X18: Registering a provider for a name, through [GetProviderNamed] or
    through [GetProviderPrefixed], turns the entry at that name into a
    derived one: the name is no longer among the primary conditions,
    the other primary conditions are untouched, the value the entry
    held stays in the index, unread, and the other index nodes are as
    they were. *)
Theorem registration_hides_primary (s : State W) (p : string) :
  StdMap.sorted (storage (store s)) = true ->
  let held := default 0 (option_map value (StdMap.find p (storage (store s)))) in
  let hidden (s' : State W) :=
    primaries (store s')
    = List.filter (fun x => negb (String.eqb (fst x) p)) (primaries (store s)) /\
    option_map value (StdMap.find p (storage (store s'))) = Some held /\
    option_map provider (StdMap.find p (storage (store s'))) = Some (Some p) /\
    provider_backed (GetEntry p (store s')) = true /\
    (forall k, k <> p ->
       StdMap.find k (storage (store s')) = StdMap.find k (storage (store s))) /\
    world s' = world s in
  hidden (snd (Named p s)) /\ hidden (snd (Prefixed p s)).
Proof.
  intros Hs held hidden. subst held hidden. cbv beta. rewrite !primaries_pairs.
  unfold GetProviderNamed, GetProviderPrefixed. run.
  assert (Hfind : StdMap.find p (StdMap.at_key ConditionEntry0 p (set_provider (Some p))
                                   (storage (store s)))
                  = Some (set_provider (Some p)
                            (default ConditionEntry0 (StdMap.find p (storage (store s)))))).
  { rewrite find_at_key_same. reflexivity. }
  assert (Hside : forall providers' : gmap string (DerivedProvider W),
    primary_pairs (StdMap.at_key ConditionEntry0 p (set_provider (Some p))
                     (storage (store s)))
    = List.filter (fun x => negb (String.eqb (fst x) p))
        (primary_pairs (storage (store s))) /\
    option_map value
      (StdMap.find p (StdMap.at_key ConditionEntry0 p (set_provider (Some p))
                        (storage (store s))))
    = Some (default 0 (option_map value (StdMap.find p (storage (store s))))) /\
    option_map provider
      (StdMap.find p (StdMap.at_key ConditionEntry0 p (set_provider (Some p))
                        (storage (store s))))
    = Some (Some p) /\
    provider_backed
      (GetEntry p {| storage := StdMap.at_key ConditionEntry0 p (set_provider (Some p))
                                  (storage (store s));
                     providers := providers' |}) = true /\
    (forall k, k <> p ->
       StdMap.find k (StdMap.at_key ConditionEntry0 p (set_provider (Some p))
                        (storage (store s)))
       = StdMap.find k (storage (store s))) /\
    world s = world s).
  { intros providers'.
    split; [apply primary_pairs_at_key_hide; exact Hs |].
    split; [rewrite Hfind; destruct (StdMap.find p (storage (store s))); reflexivity |].
    split; [rewrite Hfind; reflexivity |].
    split.
    - match goal with
      | |- context [GetEntry p ?st'] =>
          rewrite (GetEntry_exact p st' _ (sorted_at_key _ _ _ _ Hs) Hfind)
      end.
      reflexivity.
    - split; [| reflexivity]. intros k Hk. apply find_at_key_other. congruence. }
  split; apply Hside.
Qed.

End MoreRegistration.

(** * The callbacks of a provider *)

Section Callbacks.
Context {W : Type}.
Implicit Types (st : ConditionsStore W) (s : State W) (nm k p : string)
  (e : ConditionEntry) (v : Z).

Lemma provider_at_alter st p q (f : DerivedProvider W -> DerivedProvider W) :
  (forall P, name (f P) = name P /\ isPrefixProvider (f P) = isPrefixProvider P) ->
  let st' := {| storage := storage st; providers := alter f p (providers st) |} in
  name (provider_at st' q) = name (provider_at st q) /\
  isPrefixProvider (provider_at st' q) = isPrefixProvider (provider_at st q).
Proof.
  intros Hf. unfold provider_at. simpl. rewrite lookup_alter. case_decide as Hpq.
  - subst q. destruct (providers st !! p) as [P |]; simpl; [apply Hf | auto].
  - auto.
Qed.

(** Resolution reads the name and the prefix flag of a provider only. *)
Lemma GetEntry_put_provider nm p (f : DerivedProvider W -> DerivedProvider W) s :
  (forall P, name (f P) = name P /\ isPrefixProvider (f P) = isPrefixProvider P) ->
  GetEntry nm (store (snd (put_provider p f s))) = GetEntry nm (store s).
Proof.
  intros Hf. unfold put_provider. run. unfold GetEntry. cbn [storage].
  destruct (StdMap.empty (storage (store s))); [reflexivity |].
  destruct (StdMap.iter_eqb _ _); [reflexivity |].
  destruct (StdMap.deref _) as [[k e] |]; [| reflexivity].
  destruct (StdString.is_zero (StdString.compare nm k)); [reflexivity |].
  destruct (provider e) as [q |]; [| reflexivity].
  destruct (provider_at_alter (store s) p q f Hf) as [-> ->]. reflexivity.
Qed.

Lemma provider_at_put p (f : DerivedProvider W -> DerivedProvider W) s P :
  providers (store s) !! p = Some P ->
  provider_at (store (snd (put_provider p f s))) p = f P.
Proof.
  intros HP. unfold put_provider, provider_at. run.
  rewrite lookup_alter. case_decide; [| congruence]. rewrite HP. reflexivity.
Qed.

Lemma alter_is_insert (f : DerivedProvider W -> DerivedProvider W) p
    (m : gmap string (DerivedProvider W)) (P : DerivedProvider W) :
  m !! p = Some P -> alter f p m = <[p := f P]> m.
Proof.
  intros HP. apply map_eq. intros q. rewrite lookup_alter. case_decide as Hpq.
  - subst q. rewrite HP, lookup_insert_eq. reflexivity.
  - rewrite lookup_insert_ne by exact Hpq. reflexivity.
Qed.

Lemma Erase_derived nm s k e p :
  GetEntry nm (store s) = Some (k, e) -> provider e = Some p ->
  Erase nm s = call (eraseFunction (provider_at (store s) p) nm) (tick s).
Proof. intros H Hp. run. rewrite H, Hp. reflexivity. Qed.

(** X19: Replacing a callback of a provider ([SetGetFunction],
    [SetHasFunction], [SetSetFunction], [SetEraseFunction]) replaces that
    one callback of that one provider and nothing else: the index, the
    providers' world, the other providers and the provider's name, flag
    and other callbacks are as they were, and no name resolves
    differently.  Afterwards [Get], [Has], [Set] and [Erase] of a name
    routed to that provider return what the new function returns when
    called with the queried name. *)
Theorem Set_Function_takes_effect (s : State W) (p nm k : string) (e : ConditionEntry)
    (P : DerivedProvider W) (v : Z)
    (newGetFun : string -> W -> Z * W) (newSetFun : string -> Z -> W -> bool * W)
    (newHasFun : string -> W -> bool * W) (newEraseFun : string -> W -> bool * W) :
  GetEntry nm (store s) = Some (k, e) -> provider e = Some p ->
  providers (store s) !! p = Some P ->
  let sg := snd (SetGetFunction p newGetFun s) in
  let ss := snd (SetSetFunction p newSetFun s) in
  let sh := snd (SetHasFunction p newHasFun s) in
  let se := snd (SetEraseFunction p newEraseFun s) in
  let with_provider (P' : DerivedProvider W) : State W :=
    {| store := {| storage := storage (store s);
                   providers := <[p := P']> (providers (store s)) |};
       world := world s; lookups := lookups s |} in
  (sg = with_provider
          {| name := name P; isPrefixProvider := isPrefixProvider P;
             getFunction := newGetFun; hasFunction := hasFunction P;
             setFunction := setFunction P; eraseFunction := eraseFunction P |} /\
   sh = with_provider
          {| name := name P; isPrefixProvider := isPrefixProvider P;
             getFunction := getFunction P; hasFunction := newHasFun;
             setFunction := setFunction P; eraseFunction := eraseFunction P |} /\
   ss = with_provider
          {| name := name P; isPrefixProvider := isPrefixProvider P;
             getFunction := getFunction P; hasFunction := hasFunction P;
             setFunction := newSetFun; eraseFunction := eraseFunction P |} /\
   se = with_provider
          {| name := name P; isPrefixProvider := isPrefixProvider P;
             getFunction := getFunction P; hasFunction := hasFunction P;
             setFunction := setFunction P; eraseFunction := newEraseFun |}) /\
  (forall nm', GetEntry nm' (store sg) = GetEntry nm' (store s) /\
               GetEntry nm' (store ss) = GetEntry nm' (store s) /\
               GetEntry nm' (store sh) = GetEntry nm' (store s) /\
               GetEntry nm' (store se) = GetEntry nm' (store s)) /\
  (fst (Get nm sg) = fst (newGetFun nm (world s)) /\
   world (snd (Get nm sg)) = snd (newGetFun nm (world s))) /\
  (fst (Has nm sh) = fst (newHasFun nm (world s)) /\
   world (snd (Has nm sh)) = snd (newHasFun nm (world s))) /\
  (fst (Set_ nm v ss) = fst (newSetFun nm v (world s)) /\
   world (snd (Set_ nm v ss)) = snd (newSetFun nm v (world s))) /\
  (fst (Erase nm se) = fst (newEraseFun nm (world s)) /\
   world (snd (Erase nm se)) = snd (newEraseFun nm (world s))) /\
  (fst (Has nm sg) = fst (hasFunction P nm (world s)) /\
   fst (Get nm sh) = fst (getFunction P nm (world s))).
Proof.
  intros HG Hp HP sg ss sh se with_provider. subst sg ss sh se with_provider.
  unfold SetGetFunction, SetSetFunction, SetHasFunction, SetEraseFunction.
  split.
  { unfold put_provider. run. rewrite !(alter_is_insert _ _ _ _ HP).
    repeat split; reflexivity. }
  split.
  { intros nm'. repeat split; apply GetEntry_put_provider; intros Q; split; reflexivity. }
  match goal with
  | |- context [Get nm (snd (put_provider p ?f s))] =>
      pose proof (GetEntry_put_provider nm p f s (fun Q => conj eq_refl eq_refl)) as HGg;
      pose proof (provider_at_put p f s P HP) as HPg
  end.
  match goal with
  | |- context [Set_ nm v (snd (put_provider p ?f s))] =>
      pose proof (GetEntry_put_provider nm p f s (fun Q => conj eq_refl eq_refl)) as HGs;
      pose proof (provider_at_put p f s P HP) as HPs
  end.
  match goal with
  | |- context [Has nm (snd (put_provider p ?f s))] =>
      pose proof (GetEntry_put_provider nm p f s (fun Q => conj eq_refl eq_refl)) as HGh;
      pose proof (provider_at_put p f s P HP) as HPh
  end.
  match goal with
  | |- context [Erase nm (snd (put_provider p ?f s))] =>
      pose proof (GetEntry_put_provider nm p f s (fun Q => conj eq_refl eq_refl)) as HGe;
      pose proof (provider_at_put p f s P HP) as HPe
  end.
  rewrite HG in HGg, HGs, HGh, HGe.
  rewrite (Get_derived _ _ _ _ _ HGg Hp), (Set_derived _ _ _ _ _ _ HGs Hp),
    (Has_derived _ _ _ _ _ HGh Hp), (Erase_derived _ _ _ _ _ HGe Hp),
    (Has_derived _ _ _ _ _ HGg Hp), (Get_derived _ _ _ _ _ HGh Hp).
  rewrite HPg, HPs, HPh, HPe. rewrite !call_fst, !call_world. simpl.
  repeat split; reflexivity.
Qed.

End Callbacks.

(** * What [Save] writes *)

Section SaveOutput.
Context {W : Type}.
Implicit Types (st : ConditionsStore W) (out : DataWriter).

(** X20: [Save] appends one node ["conditions"] to the current level of the
    writer, whose children are the primary conditions in key order: a
    bare key for the value 1, the key and the value otherwise, and
    nothing for the value 0.  A store without primary conditions writes
    nothing; derived conditions are never written. *)
Theorem Save_appends_conditions_node (st : ConditionsStore W) (out : DataWriter) :
  Save st out
  = match primaries st with
    | [] => out
    | l => {| level := List.app (level out)
                         [Node [Text "conditions"] (flat_map condition_node l)];
              outer := outer out |}
    end.
Proof.
  rewrite primaries_pairs.
  unfold Save, PrimariesBegin, PrimariesIterator_new, StdMap.begin_.
  rewrite begin_neq_end. destruct (primary_pairs (storage st)) as [| x l] eqn:Hpp.
  - reflexivity.
  - cbv zeta. rewrite for_primaries_from, Hpp, fold_write.
    unfold DataWriter.EndChild, DataWriter.BeginChild, DataWriter.Write, DataWriter.adopt.
    cbn [level outer]. rewrite List.rev_app_distr. cbn [rev List.app].
    rewrite List.rev_involutive. reflexivity.
Qed.

End SaveOutput.

(** * The other compound operators of a handle *)

Section HandleSteps.
Context {W : Type}.
Implicit Types (s : State W) (nm : string) (v : Z).

(** X21: [++store[name]] against [Add(name, 1)] and [--store[name]] against
    [Add(name, -1)]: the providers' world, the registry and the primary
    conditions end up the same; the whole store is the same unless the
    name had no entry of its own and is covered by a prefix provider. *)
Theorem handle_incr_decr_is_Add (s : State W) (nm : string) :
  store_ok (store s) = true -> fullKey_ok (store s) = true ->
  let up := snd (operator_pre_incr nm (snd (operator_brackets nm s))) in
  let down := snd (operator_pre_decr nm (snd (operator_brackets nm s))) in
  (world up = world (snd (Add nm 1 s)) /\
   providers (store up) = providers (store (snd (Add nm 1 s))) /\
   primaries (store up) = primaries (store (snd (Add nm 1 s)))) /\
  (world down = world (snd (Add nm (-1) s)) /\
   providers (store down) = providers (store (snd (Add nm (-1) s))) /\
   primaries (store down) = primaries (store (snd (Add nm (-1) s)))) /\
  ((is_Some (StdMap.find nm (storage (store s))) \/ GetEntry nm (store s) = None) ->
   store up = store (snd (Add nm 1 s)) /\ store down = store (snd (Add nm (-1) s))).
Proof.
  intros Hok Hfk up down. subst up down. rewrite !primaries_pairs.
  assert (HAdd : forall v, snd (Add nm v s)
                 = snd (Set_ nm (add64 (fst (Get nm s)) v) (snd (Get nm s)))).
  { intros v. unfold Add, mbind, M_bind, bind. destruct (Get nm s). reflexivity. }
  rewrite !HAdd. unfold operator_pre_incr, operator_pre_decr.
  destruct (compound_after_brackets nm (fun g => add64 g 1) s Hok Hfk)
    as (Hw1 & Hp1 & Hq1 & Hs1).
  destruct (compound_after_brackets nm (fun g => add64 g (-1)) s Hok Hfk)
    as (Hw2 & Hp2 & Hq2 & Hs2).
  split; [auto |]. split; [auto |]. intros H. split; [exact (Hs1 H) | exact (Hs2 H)].
Qed.

(** X22: [store[name] -= v] against [Set(name, Get(name) - v)], the
    difference reduced to 64 bits: the same. *)
Theorem handle_sub_assign_is_Set_of_Get_minus (s : State W) (nm : string) (v : Z) :
  store_ok (store s) = true -> fullKey_ok (store s) = true ->
  let a := snd (operator_sub_assign nm v (snd (operator_brackets nm s))) in
  let b := snd (Set_ nm (sub64 (fst (Get nm s)) v) (snd (Get nm s))) in
  world a = world b /\ providers (store a) = providers (store b) /\
  primaries (store a) = primaries (store b) /\
  ((is_Some (StdMap.find nm (storage (store s))) \/ GetEntry nm (store s) = None) ->
   store a = store b).
Proof.
  intros Hok Hfk a b. subst a b. rewrite !primaries_pairs.
  unfold operator_sub_assign.
  exact (compound_after_brackets nm (fun g => sub64 g v) s Hok Hfk).
Qed.

End HandleSteps.

(** * The panel stack *)

Section PanelStack.
Context {Panel : Type} `{EqDecision Panel}.
Context {PW Rectangle Point : Type}.
Implicit Types (u : UI.t Panel) (panel : UI.ptr Panel) (q : Panel)
  (stk lo hi : list Panel) (queue : list (UI.ptr Panel)).

Lemma push_queued_app queue stk :
  UI.push_queued queue stk = List.app stk (omap id queue).
Proof.
  unfold UI.push_queued. revert stk.
  induction queue as [| [q |] queue IH]; intros stk; simpl.
  - rewrite List.app_nil_r. reflexivity.
  - rewrite IH, <- List.app_assoc. reflexivity.
  - apply IH.
Qed.

Lemma filter_keep (P : Panel -> Prop) `{forall x, Decision (P x)} (l : list Panel) :
  (forall x, x ∈ l -> P x) -> filter P l = l.
Proof.
  intros Hall. induction l as [| x l IH]; [reflexivity |].
  rewrite filter_cons, decide_True by (apply Hall; left).
  rewrite IH; [reflexivity |]. intros y Hy. apply Hall. right. exact Hy.
Qed.

Lemma filter_drop (P : Panel -> Prop) `{forall x, Decision (P x)} (l : list Panel) :
  (forall x, x ∈ l -> ~ P x) -> filter P l = [].
Proof.
  intros Hall. induction l as [| x l IH]; [reflexivity |].
  rewrite filter_cons, decide_False by (apply Hall; left).
  apply IH. intros y Hy. apply Hall. right. exact Hy.
Qed.

Lemma erase_first_filter panel stk :
  NoDup stk -> UI.erase_first panel stk = filter (fun q => Some q <> panel) stk.
Proof.
  induction 1 as [| q r Hq Hr IH]; [reflexivity |].
  simpl. rewrite filter_cons. destruct (decide (Some q = panel)) as [Heq | Hne].
  - rewrite decide_False by (intros Hn; apply Hn; exact Heq).
    symmetry. apply filter_keep.
    intros x Hx <-. injection Heq as ->. exact (Hq Hx).
  - rewrite decide_True by exact Hne. rewrite IH. reflexivity.
Qed.

(** Popping a queue off a stack without duplicates removes the panels
    of the queue. *)
Lemma pop_queued_filter queue :
  forall stk, NoDup stk ->
    UI.pop_queued queue stk = filter (fun q => Some q ∉ queue) stk.
Proof.
  unfold UI.pop_queued.
  induction queue as [| panel queue IH]; intros stk Hnd; simpl.
  - symmetry. apply filter_keep. intros x _. apply not_elem_of_nil.
  - rewrite IH by (rewrite erase_first_filter by exact Hnd; apply NoDup_filter; exact Hnd).
    rewrite erase_first_filter by exact Hnd. rewrite list_filter_filter.
    apply list_filter_iff. intros x. rewrite not_elem_of_cons. tauto.
Qed.

(** X23: [PushOrPop] applies the queued pushes, then the queued pops: when no
    panel is on the stack or in the push queue twice, the stack
    afterwards holds the old stack followed by the queued panels that
    are not null, without the panels queued for popping, and both
    queues are empty.  So a panel pushed and popped in the same step
    never reaches the stack. *)
Theorem PushOrPop_applies_queues (u : UI.t Panel) :
  NoDup (List.app (UI.stack u) (omap id (UI.toPush u))) ->
  let u' := UI.PushOrPop u in
  UI.stack u'
  = filter (fun q => Some q ∉ UI.toPop u)
      (List.app (UI.stack u) (omap id (UI.toPush u))) /\
  (forall q, q ∈ UI.stack u' <->
     (q ∈ UI.stack u \/ Some q ∈ UI.toPush u) /\ Some q ∉ UI.toPop u) /\
  UI.toPush u' = [] /\ UI.toPop u' = [] /\
  UI.isDone u' = UI.isDone u /\ UI.canSave u' = UI.canSave u.
Proof.
  intros Hnd u'. subst u'. unfold UI.PushOrPop. cbn [UI.stack UI.toPush UI.toPop
    UI.isDone UI.canSave].
  rewrite push_queued_app, (pop_queued_filter _ _ Hnd).
  split; [reflexivity |]. split; [| auto].
  intros q. rewrite list_elem_of_filter, elem_of_app, list_elem_of_omap.
  split.
  - intros [Hn [Hin | (x & Hx & Hq)]]; (split; [| exact Hn]); [left; exact Hin |].
    right. simpl in Hq. subst x. exact Hx.
  - intros [[Hin | Hin] Hn]; (split; [exact Hn |]); [left; exact Hin |].
    right. exists (Some q). split; [exact Hin | reflexivity].
Qed.

Lemma PopThrough_loop_found panel q (above below : list Panel) queue :
  Some q = panel -> (forall x, x ∈ above -> Some x <> panel) ->
  UI.PopThrough_loop panel (List.app above (q :: below)) queue
  = List.app queue (map Some (List.app above [q])).
Proof.
  intros Hq. revert queue. induction above as [| x above IH]; intros queue Hab; simpl.
  - rewrite decide_True by exact Hq. reflexivity.
  - rewrite decide_False by (apply Hab; left).
    rewrite IH by (intros y Hy; apply Hab; right; exact Hy).
    rewrite <- List.app_assoc. reflexivity.
Qed.

Lemma PopThrough_loop_missing panel (rstack : list Panel) queue :
  (forall x, x ∈ rstack -> Some x <> panel) ->
  UI.PopThrough_loop panel rstack queue = List.app queue (map Some rstack).
Proof.
  revert queue. induction rstack as [| x r IH]; intros queue Hab; simpl.
  - rewrite List.app_nil_r. reflexivity.
  - rewrite decide_False by (apply Hab; left).
    rewrite IH by (intros y Hy; apply Hab; right; exact Hy).
    rewrite <- List.app_assoc. reflexivity.
Qed.

Lemma elem_of_rev (x : Panel) (l : list Panel) : x ∈ rev l <-> x ∈ l.
Proof. rewrite !list_elem_of_In. symmetry. apply in_rev. Qed.

Lemma elem_of_map_Some (x : Panel) (l : list Panel) : Some x ∈ map Some l <-> x ∈ l.
Proof.
  rewrite !list_elem_of_In, in_map_iff. split.
  - intros (y & [= ->] & Hy). exact Hy.
  - intros Hx. exists x. auto.
Qed.

(** X24: [PopThrough(panel)], once the queues are applied, leaves the panels
    below [panel] and the panels queued for pushing; a panel that is
    not on the stack, or a null pointer, pops every panel of the
    stack. *)
Theorem PopThrough_pops_panel_and_above (u : UI.t Panel) (panel : UI.ptr Panel) :
  NoDup (List.app (UI.stack u) (omap id (UI.toPush u))) -> UI.toPop u = [] ->
  let u' := UI.PushOrPop (UI.PopThrough panel u) in
  (forall lo q hi, UI.stack u = List.app lo (q :: hi) -> panel = Some q ->
     UI.stack u' = List.app lo (omap id (UI.toPush u))) /\
  ((forall q, q ∈ UI.stack u -> Some q <> panel) ->
   UI.stack u' = omap id (UI.toPush u)).
Proof.
  intros Hnd Hpop u'. subst u'. unfold UI.PushOrPop, UI.PopThrough.
  cbn [UI.stack UI.toPush UI.toPop UI.isDone UI.canSave].
  rewrite push_queued_app, (pop_queued_filter _ _ Hnd), Hpop.
  split.
  - intros lo q hi Hst ->. rewrite Hst in Hnd |- *.
    rewrite List.rev_app_distr. cbn [rev]. rewrite <- List.app_assoc. cbn [List.app].
    rewrite <- List.app_assoc in Hnd.
    apply NoDup_app in Hnd as (Hlo & Hlo_rest & Hrest).
    cbn [List.app] in Hrest, Hlo_rest. apply NoDup_cons in Hrest as (Hq & Hrest).
    apply NoDup_app in Hrest as (Hhi & Hhi_push & Hpush).
    rewrite (PopThrough_loop_found (Some q) q (rev hi) (rev lo) [] eq_refl).
    2:{ intros x Hx [= ->]. apply Hq. apply elem_of_app. left.
        apply elem_of_rev. exact Hx. }
    cbn [List.app].
    assert (Hmem : forall x, Some x ∈ map Some (List.app (rev hi) [q]) <-> x = q \/ x ∈ hi).
    { intros x. rewrite elem_of_map_Some, elem_of_app, elem_of_rev, list_elem_of_singleton.
      tauto. }
    rewrite <- List.app_assoc. cbn [List.app].
    change (List.app lo (q :: List.app hi (omap id (UI.toPush u))))
      with (lo ++ q :: hi ++ omap id (UI.toPush u))%list.
    rewrite filter_app, filter_cons, filter_app.
    rewrite decide_False by (intros Hn; apply Hn; apply Hmem; left; reflexivity).
    rewrite (filter_keep _ lo).
    2:{ intros x Hx Hin. apply Hmem in Hin. apply (Hlo_rest x Hx).
        destruct Hin as [-> | Hin]; [left | right; apply elem_of_app; left; exact Hin]. }
    rewrite (filter_drop _ hi).
    2:{ intros x Hx Hn. apply Hn. apply Hmem. right. exact Hx. }
    rewrite (filter_keep _ (omap id (UI.toPush u))).
    2:{ intros x Hx Hin. apply Hmem in Hin. destruct Hin as [-> | Hin].
        - apply Hq. apply elem_of_app. right. exact Hx.
        - exact (Hhi_push x Hin Hx). }
    reflexivity.
  - intros Hmiss.
    rewrite (PopThrough_loop_missing panel (rev (UI.stack u)) []).
    2:{ intros x Hx. apply Hmiss. apply elem_of_rev. exact Hx. }
    cbn [List.app].
    assert (Hmem : forall x, Some x ∈ map Some (rev (UI.stack u)) <-> x ∈ UI.stack u).
    { intros x. rewrite elem_of_map_Some, elem_of_rev. tauto. }
    apply NoDup_app in Hnd as (Hst & Hst_push & Hpush).
    change (List.app (UI.stack u) (omap id (UI.toPush u)))
      with (UI.stack u ++ omap id (UI.toPush u))%list.
    rewrite filter_app, (filter_drop _ (UI.stack u)).
    2:{ intros x Hx Hn. apply Hn. apply Hmem. exact Hx. }
    rewrite (filter_keep _ (omap id (UI.toPush u))).
    2:{ intros x Hx Hin. apply Hmem in Hin. exact (Hst_push x Hin Hx). }
    reflexivity.
Qed.

End PanelStack.

Section PanelQueries.
Context {Panel : Type} `{EqDecision Panel}.
Context {PW : Type}.
Variable SetUI : Panel -> PW -> PW.
Implicit Types (u : UI.t Panel) (panel : UI.ptr Panel) (q : Panel)
  (stk : list Panel) (queue : list (UI.ptr Panel)) (w : PW).

Lemma rev_snoc {A : Type} (l : list A) (x : A) : rev (List.app l [x]) = x :: rev l.
Proof. rewrite List.rev_app_distr. reflexivity. Qed.

Lemma omap_id_snoc queue q :
  omap id (List.app queue [Some q]) = List.app (omap id queue) [q].
Proof.
  induction queue as [| [x |] queue IH]; simpl; [reflexivity | | exact IH].
  f_equal. exact IH.
Qed.

Lemma omap_id_all queue :
  Forall is_Some queue -> map Some (omap id queue) = queue.
Proof.
  induction 1 as [| panel queue [x ->] _ IH]; [reflexivity |].
  simpl. f_equal. exact IH.
Qed.

(** X25: A pushed panel waits in the queue, whatever else is queued:
    [Push] calls the panel's [SetUI] and appends it to the push queue,
    so [Top] returns it at once and [IsEmpty] is false, while the stack,
    the pop queue, the flags and [IsTop] of every panel are as before.
    Once the queues are applied, with nothing queued for popping, the
    panel is the top of the stack. *)
Theorem Push_is_deferred (u : UI.t Panel) (q : Panel) (w : PW) :
  let u1 := fst (UI.Push SetUI q u w) in
  snd (UI.Push SetUI q u w) = SetUI q w /\
  UI.toPush u1 = List.app (UI.toPush u) [Some q] /\
  UI.stack u1 = UI.stack u /\ UI.toPop u1 = UI.toPop u /\
  UI.isDone u1 = UI.isDone u /\ UI.canSave u1 = UI.canSave u /\
  UI.Top u1 = Some q /\
  (forall panel, UI.IsTop panel u1 = UI.IsTop panel u) /\
  UI.IsEmpty u1 = false /\
  (UI.toPop u = [] ->
   UI.IsTop (Some q) (UI.PushOrPop u1) = true /\
   UI.Top (UI.PushOrPop u1) = Some q).
Proof.
  intros u1. subst u1. unfold UI.Push, UI.Top, UI.IsTop, UI.IsEmpty, UI.PushOrPop.
  cbn [fst snd UI.stack UI.toPush UI.toPop UI.isDone UI.canSave].
  rewrite rev_snoc.
  repeat (split; [reflexivity |]).
  split; [destruct (UI.stack u), (UI.toPush u); reflexivity |].
  intros Hpop. rewrite Hpop, push_queued_app, omap_id_snoc. cbn [UI.pop_queued fold_left].
  rewrite List.app_assoc, rev_snoc.
  split; [apply bool_decide_eq_true; reflexivity | reflexivity].
Qed.

(** X26: Applying the queues when nothing is queued for popping and no
    queued panel is null changes nothing a caller can see through
    [Top], [Root] and [IsEmpty]. *)
Theorem PushOrPop_keeps_Top_and_Root (u : UI.t Panel) :
  UI.toPop u = [] -> Forall is_Some (UI.toPush u) ->
  UI.Top (UI.PushOrPop u) = UI.Top u /\
  UI.Root (UI.PushOrPop u) = UI.Root u /\
  UI.IsEmpty (UI.PushOrPop u) = UI.IsEmpty u.
Proof.
  intros Hpop Hall. unfold UI.Top, UI.Root, UI.IsEmpty, UI.PushOrPop.
  cbn [UI.stack UI.toPush UI.toPop]. rewrite Hpop, push_queued_app.
  cbn [UI.pop_queued fold_left rev].
  pose proof (omap_id_all _ Hall) as Hq.
  destruct (UI.toPush u) as [| panel queue] using List.rev_ind.
  - simpl. rewrite List.app_nil_r. split; [reflexivity |].
    destruct (UI.stack u); split; reflexivity.
  - clear IHqueue. apply Forall_app in Hall as [Hall Hlast].
    inversion Hlast as [| ? ? [x ->] _]; subst.
    rewrite omap_id_snoc, List.app_assoc, !rev_snoc.
    split; [reflexivity |].
    destruct (UI.stack u) as [| b stk]; [| split; reflexivity].
    cbn [List.app]. rewrite omap_id_snoc in Hq.
    destruct queue as [| [y |] queue]; simpl in *.
    + split; reflexivity.
    + split; reflexivity.
    + apply Forall_cons in Hall as [[? ?] _]. discriminate.
Qed.

End PanelQueries.

Section PanelDrawing.
Context {Panel : Type} `{EqDecision Panel}.
Context {PW Rectangle Point : Type}.
Variable ClearZones : Panel -> PW -> PW.
Variable IsFullScreen : Panel -> PW -> bool.
Variable Draw : Panel -> PW -> PW.
Variable zones : Panel -> PW -> list Rectangle.
Variable TrapAllEvents : Panel -> PW -> bool.
Variable Contains : Rectangle -> Point -> bool.
Implicit Types (u : UI.t Panel) (q : Panel) (lo hi : list Panel) (w : PW)
  (mouse : Point) (zs pre post : list Rectangle).

Lemma topmost_full_screen_skip w (above below from : list Panel) :
  (forall x, In x above -> IsFullScreen x w = false) ->
  UI.topmost_full_screen IsFullScreen w (List.app above below) from
  = UI.topmost_full_screen IsFullScreen w below (List.app (rev above) from).
Proof.
  revert from. induction above as [| x above IH]; intros from Hab; [reflexivity |].
  simpl. rewrite (Hab x) by (left; reflexivity).
  rewrite IH by (intros y Hy; apply Hab; right; exact Hy).
  rewrite <- List.app_assoc. reflexivity.
Qed.

(** X27: [DrawAll] clears the zones of every panel, then draws the topmost
    full-screen panel and the panels above it, bottom first; the panels
    below it are not drawn.  Without a full-screen panel every panel is
    drawn. *)
Theorem DrawAll_from_topmost_full_screen (u : UI.t Panel) (w : PW)
    (lo hi : list Panel) :
  UI.stack u = List.app lo hi ->
  let w1 := fold_left (fun w q => ClearZones q w) (UI.stack u) w in
  (forall x, In x (tl hi) -> IsFullScreen x w1 = false) ->
  (lo = [] \/ exists q, hd_error hi = Some q /\ IsFullScreen q w1 = true) ->
  UI.DrawAll ClearZones IsFullScreen Draw u w = fold_left (fun w q => Draw q w) hi w1.
Proof.
  intros Hst w1 Hhi Hlo. unfold UI.DrawAll. fold w1. cbv zeta. f_equal.
  rewrite Hst, List.rev_app_distr.
  destruct hi as [| q hi].
  - destruct Hlo as [-> | (q & Hq & _)]; [reflexivity | discriminate].
  - cbn [tl] in Hhi. cbn [rev]. rewrite <- List.app_assoc.
    rewrite topmost_full_screen_skip
      by (intros x Hx; apply Hhi; apply in_rev; exact Hx).
    rewrite rev_involutive, List.app_nil_r. cbn [List.app UI.topmost_full_screen].
    destruct Hlo as [-> | (q' & [= <-] & Hq)].
    + simpl. destruct (IsFullScreen q w1); reflexivity.
    + rewrite Hq. reflexivity.
Qed.

Lemma AllZones_loop_skip w (above below : list Panel) zs :
  (forall x, In x above -> TrapAllEvents x w = false) ->
  UI.AllZones_loop zones TrapAllEvents w (List.app above below) zs
  = UI.AllZones_loop zones TrapAllEvents w below
      (List.app zs (flat_map (fun q => zones q w) above)).
Proof.
  revert zs. induction above as [| x above IH]; intros zs Hab; simpl.
  - rewrite List.app_nil_r. reflexivity.
  - rewrite (Hab x) by (left; reflexivity).
    rewrite IH by (intros y Hy; apply Hab; right; exact Hy).
    rewrite <- List.app_assoc. reflexivity.
Qed.

(** X28: [AllZones] lists the zones of the panels from the top of the stack
    down to the topmost panel that traps all events, that panel
    included; the zones of the panels below it are left out.  When no
    panel traps, the zones of every panel are listed, top panel
    first. *)
Theorem AllZones_down_to_trapping_panel (u : UI.t Panel) (w : PW)
    (lo hi : list Panel) :
  UI.stack u = List.app lo hi ->
  (forall x, In x (tl hi) -> TrapAllEvents x w = false) ->
  (lo = [] \/ exists q, hd_error hi = Some q /\ TrapAllEvents q w = true) ->
  UI.AllZones zones TrapAllEvents u w = flat_map (fun q => zones q w) (rev hi).
Proof.
  intros Hst Hhi Hlo. unfold UI.AllZones. rewrite Hst, List.rev_app_distr.
  destruct hi as [| q hi].
  - destruct Hlo as [-> | (q & Hq & _)]; [reflexivity | discriminate].
  - cbn [tl] in Hhi. cbn [rev]. rewrite <- List.app_assoc.
    rewrite AllZones_loop_skip by (intros x Hx; apply Hhi; apply in_rev; exact Hx).
    rewrite flat_map_app. cbn [List.app UI.AllZones_loop flat_map].
    rewrite List.app_nil_r.
    destruct Hlo as [-> | (q' & [= <-] & Hq)].
    + simpl. destruct (TrapAllEvents q w); reflexivity.
    + rewrite Hq. reflexivity.
Qed.

Lemma find_zone_found mouse pre z post :
  (forall x, In x pre -> Contains x mouse = false) -> Contains z mouse = true ->
  UI.find_zone Contains mouse (List.app pre (z :: post)) = (true, post).
Proof.
  intros Hpre Hz. induction pre as [| x pre IH]; simpl.
  - rewrite Hz. reflexivity.
  - rewrite (Hpre x) by (left; reflexivity).
    apply IH. intros y Hy. apply Hpre. right. exact Hy.
Qed.

Lemma find_zone_missing mouse zs :
  (forall x, In x zs -> Contains x mouse = false) ->
  UI.find_zone Contains mouse zs = (false, []).
Proof.
  intros Hzs. induction zs as [| x zs IH]; [reflexivity |]. simpl.
  rewrite (Hzs x) by (left; reflexivity).
  apply IH. intros y Hy. apply Hzs. right. exact Hy.
Qed.

(** X29: [CursorToNextZone] moves to the zone listed after the first zone
    that contains the mouse, and does not move when that zone is the
    last one; [CursorToPrevZone] moves to the zone listed before the
    last zone that contains the mouse, and does not move when that zone
    is the first one.  With the mouse in no zone both move to the first
    zone listed. *)
Theorem cursor_zone_steps (u : UI.t Panel) (w : PW) (mouse : Point)
    (pre post : list Rectangle) (z : Rectangle) :
  UI.AllZones zones TrapAllEvents u w = List.app pre (z :: post) ->
  Contains z mouse = true ->
  ((forall x, In x pre -> Contains x mouse = false) ->
   UI.CursorToNextZone zones TrapAllEvents Contains mouse u w = hd_error post) /\
  ((forall x, In x post -> Contains x mouse = false) ->
   UI.CursorToPrevZone zones TrapAllEvents Contains mouse u w = hd_error (rev pre)).
Proof.
  intros Hzs Hz. unfold UI.CursorToNextZone, UI.CursorToPrevZone. cbv zeta.
  rewrite Hzs. split.
  - intros Hpre. rewrite (find_zone_found _ _ _ _ Hpre Hz). reflexivity.
  - intros Hpost. rewrite List.rev_app_distr. cbn [rev]. rewrite <- List.app_assoc.
    cbn [List.app].
    rewrite (find_zone_found mouse (rev post) z (rev pre)); [reflexivity | | exact Hz].
    intros x Hx. apply Hpost. apply in_rev. exact Hx.
Qed.

(** X30: With the mouse in no zone, [CursorToNextZone] and [CursorToPrevZone]
    both do what [CursorToFirstZone] does: they move to the first zone
    of the topmost panel that has one, and do not move when there is no
    zone. *)
Theorem cursor_outside_goes_to_first_zone (u : UI.t Panel) (w : PW) (mouse : Point) :
  (forall x, In x (UI.AllZones zones TrapAllEvents u w) -> Contains x mouse = false) ->
  UI.CursorToNextZone zones TrapAllEvents Contains mouse u w
  = hd_error (UI.AllZones zones TrapAllEvents u w) /\
  UI.CursorToPrevZone zones TrapAllEvents Contains mouse u w
  = hd_error (UI.AllZones zones TrapAllEvents u w).
Proof.
  intros Hout. unfold UI.CursorToNextZone, UI.CursorToPrevZone, UI.CursorToFirstZone.
  cbv zeta. rewrite (find_zone_missing _ _ Hout).
  rewrite find_zone_missing by (intros x Hx; apply Hout; apply in_rev; exact Hx).
  split; reflexivity.
Qed.

End PanelDrawing.

(** * The properties at concrete stores and stacks *)

Lemma Set_derived_keeps_index_witness :
  provider_backed (GetEntry "events: foo" (store Example.events)) = true /\
  store (snd (Set_ "events: foo" 3 Example.events)) = store Example.events.
Proof.
  split; [vm_compute; reflexivity |].
  destruct (Set_derived_keeps_index Example.events "events: foo" 3 eq_refl) as (Hst & _).
  exact Hst.
Defined.

Lemma Set_then_Erase_restores_witness :
  (StdMap.sorted (storage (store Example.events)) = true /\
   GetEntry "gold" (store Example.events) = None) /\
  store (snd (Erase "gold" (snd (Set_ "gold" 5 Example.events)))) = store Example.events.
Proof.
  split; [vm_compute; auto |].
  destruct (Set_then_Erase_restores Example.events "gold" 5 eq_refl eq_refl)
    as (_ & _ & Hst & _).
  exact Hst.
Defined.

Lemma Erase_inline_removes_key_witness :
  (StdMap.sorted (storage (store Example.mixed)) = true /\
   GetEntry "a" (store Example.mixed) <> None /\
   provider_backed (GetEntry "a" (store Example.mixed)) = false) /\
  fst (Erase "a" Example.mixed) = true /\
  StdMap.find "a" (storage (store (snd (Erase "a" Example.mixed)))) = None.
Proof.
  assert (Hne : GetEntry "a" (store Example.mixed) <> None) by (vm_compute; discriminate).
  split; [split; [reflexivity | split; [exact Hne | reflexivity]] |].
  destruct (Erase_inline_removes_key Example.mixed "a" eq_refl Hne eq_refl)
    as (Hret & Hfind & _).
  auto.
Defined.

Lemma Set_keeps_other_resolutions_witness :
  (store_ok (store Example.events) = true /\ "events: foo" <> "gold") /\
  GetEntry "events: foo" (store (snd (Set_ "gold" 5 Example.events)))
  = GetEntry "events: foo" (store Example.events).
Proof.
  assert (Hne : "events: foo" <> "gold") by discriminate.
  split; [split; [reflexivity | exact Hne] |].
  exact (Set_keeps_other_resolutions Example.events "gold" "events: foo" 5 eq_refl Hne).
Defined.

Lemma brackets_creates_zero_entry_witness :
  (StdMap.sorted (storage (store Example.events)) = true /\
   GetEntry "gold" (store Example.events) = None) /\
  fst (Has "gold" (snd (operator_brackets "gold" Example.events))) = true /\
  fst (Get "gold" (snd (operator_brackets "gold" Example.events))) = 0.
Proof.
  split; [vm_compute; auto |].
  destruct (brackets_creates_zero_entry Example.events "gold" eq_refl eq_refl)
    as (_ & _ & HH & HG & _).
  auto.
Defined.

Lemma brackets_materialises_prefix_entry_witness :
  (StdMap.sorted (storage (store Example.events)) = true /\
   StdMap.find "events: foo" (storage (store Example.events)) = None /\
   GetEntry "events: foo" (store Example.events)
   = Some ("events: ", {| value := 0; provider := Some "events: "; fullKey := "" |})) /\
  StdMap.find "events: foo"
    (storage (store (snd (operator_brackets "events: foo" Example.events))))
  = Some {| value := 0; provider := Some "events: "; fullKey := "events: foo" |} /\
  primaries (store (snd (operator_brackets "events: foo" Example.events)))
  = primaries (store Example.events).
Proof.
  split; [vm_compute; auto |].
  destruct (brackets_materialises_prefix_entry Example.events "events: foo" "events: "
              {| value := 0; provider := Some "events: "; fullKey := "" |}
              eq_refl eq_refl eq_refl)
    as (Hfind & _ & _ & _ & _ & _ & _ & _ & Hprim).
  auto.
Defined.

Lemma brackets_keeps_targets_witness :
  store_ok (store Example.events) = true /\
  target "events: foo" (store (snd (operator_brackets "gold" Example.events)))
  = target "events: foo" (store Example.events).
Proof.
  split; [vm_compute; reflexivity |].
  exact (brackets_keeps_targets Example.events "gold" "events: foo" eq_refl).
Defined.

Lemma handle_read_is_Get_witness :
  (store_ok (store Example.events) = true /\ fullKey_ok (store Example.events) = true) /\
  fst (operator_int64 (fst (operator_brackets "events: foo" Example.events))
         (snd (operator_brackets "events: foo" Example.events)))
  = fst (Get "events: foo" Example.events).
Proof.
  split; [vm_compute; auto |].
  destruct (handle_read_is_Get Example.events "events: foo" eq_refl eq_refl) as (Hr & _).
  exact Hr.
Defined.

Lemma handle_add_assign_is_Add_witness :
  (store_ok (store Example.mixed) = true /\ fullKey_ok (store Example.mixed) = true) /\
  store (snd (operator_add_assign "a" 5 (snd (operator_brackets "a" Example.mixed))))
  = store (snd (Add "a" 5 Example.mixed)).
Proof.
  split; [vm_compute; auto |].
  destruct (handle_add_assign_is_Add Example.mixed "a" 5 eq_refl eq_refl)
    as (_ & _ & _ & Hst).
  apply Hst. left. vm_compute. eauto.
Defined.

Lemma handle_assign_is_Set_witness :
  (store_ok (store Example.events) = true /\ fullKey_ok (store Example.events) = true) /\
  world (snd (operator_assign "events: foo" 5
                (snd (operator_brackets "events: foo" Example.events))))
  = world (snd (Set_ "events: foo" 5 Example.events)).
Proof.
  split; [vm_compute; auto |].
  destruct (handle_assign_is_Set Example.events "events: foo" 5 eq_refl eq_refl)
    as (Hw & _).
  exact Hw.
Defined.

Lemma handle_incr_decr_is_Add_witness :
  (store_ok (store Example.mixed) = true /\ fullKey_ok (store Example.mixed) = true) /\
  primaries (store (snd (operator_pre_incr "b" (snd (operator_brackets "b" Example.mixed)))))
  = primaries (store (snd (Add "b" 1 Example.mixed))) /\
  primaries (store (snd (operator_pre_decr "b" (snd (operator_brackets "b" Example.mixed)))))
  = primaries (store (snd (Add "b" (-1) Example.mixed))).
Proof.
  split; [vm_compute; auto |].
  destruct (handle_incr_decr_is_Add Example.mixed "b" eq_refl eq_refl)
    as ((_ & _ & Hup) & (_ & _ & Hdown) & _).
  auto.
Defined.

Lemma handle_sub_assign_is_Set_of_Get_minus_witness :
  (store_ok (store Example.mixed) = true /\ fullKey_ok (store Example.mixed) = true) /\
  primaries (store (snd (operator_sub_assign "b" 7
                           (snd (operator_brackets "b" Example.mixed)))))
  = primaries (store (snd (Set_ "b" (sub64 (fst (Get "b" Example.mixed)) 7)
                             (snd (Get "b" Example.mixed))))).
Proof.
  split; [vm_compute; auto |].
  destruct (handle_sub_assign_is_Set_of_Get_minus Example.mixed "b" 7 eq_refl eq_refl)
    as (_ & _ & Hprim & _).
  exact Hprim.
Defined.

Lemma ConditionsStore_of_map_reads_map_witness :
  StdMap.sorted [("a", 1); ("b", 2)] = true /\
  fst (Get "b" (ConditionsStore_of_map [("a", 1); ("b", 2)] ([] : Example.World))) = 2 /\
  fst (Has "c" (ConditionsStore_of_map [("a", 1); ("b", 2)] ([] : Example.World))) = false.
Proof.
  split; [reflexivity |].
  split.
  - destruct (ConditionsStore_of_map_reads_map [("a", 1); ("b", 2)]
                ([] : Example.World) "b" eq_refl) as (HG & _).
    exact HG.
  - destruct (ConditionsStore_of_map_reads_map [("a", 1); ("b", 2)]
                ([] : Example.World) "c" eq_refl) as (_ & HH).
    exact HH.
Defined.

Lemma Load_last_child_wins_witness :
  (StdMap.sorted (storage (store Example.plain)) = true /\
   only_primaries (store Example.plain) = true) /\
  let node := Node [] [Node [Text "a"; Number 5] []; Node [Text "a"] []] in
  fst (Get "a" (snd (Load node Example.plain))) = 1 /\
  fst (Get "b" (snd (Load node Example.plain))) = fst (Get "b" Example.plain).
Proof.
  split; [vm_compute; auto |]. cbv zeta. split.
  - destruct (Load_last_child_wins
                (Node [] [Node [Text "a"; Number 5] []; Node [Text "a"] []])
                Example.plain "a" eq_refl eq_refl) as (HG & _).
    exact HG.
  - destruct (Load_last_child_wins
                (Node [] [Node [Text "a"; Number 5] []; Node [Text "a"] []])
                Example.plain "b" eq_refl eq_refl) as (HG & _).
    exact HG.
Defined.

Lemma PrimariesLowerBound_iteration_witness :
  StdMap.sorted (storage (store Example.mixed)) = true /\
  primaries_from "b" (store Example.mixed)
  = List.filter (fun x => negb (StdString.less (fst x) "b"))
      (primaries (store Example.mixed)).
Proof.
  split; [vm_compute; reflexivity |].
  destruct (PrimariesLowerBound_iteration (store Example.mixed) "b" eq_refl) as (Heq & _).
  exact Heq.
Defined.

Lemma registration_keeps_existing_provider_witness :
  providers (store Example.events) !! "events: "
  = Some (DerivedProvider_new Example.get_len Example.has_yes Example.set_no
            Example.erase_no "events: " true) /\
  isPrefixProvider
    (provider_at (store (snd (Example.Named "events: " Example.events))) "events: ")
  = true.
Proof.
  split; [vm_compute; reflexivity |].
  destruct (registration_keeps_existing_provider Example.get_len Example.has_yes
              Example.set_no Example.erase_no Example.events "events: "
              (DerivedProvider_new Example.get_len Example.has_yes Example.set_no
                 Example.erase_no "events: " true) eq_refl)
    as (_ & _ & _ & _ & HP & _).
  unfold Example.Named. rewrite HP. reflexivity.
Defined.

Lemma registration_hides_primary_witness :
  StdMap.sorted (storage (store Example.plain)) = true /\
  primaries (store (snd (Example.Named "a" Example.plain)))
  = List.filter (fun x => negb (String.eqb (fst x) "a")) (primaries (store Example.plain)) /\
  option_map value
    (StdMap.find "b" (storage (store (snd (Example.Prefixed "b" Example.plain)))))
  = Some 2 /\
  provider_backed (GetEntry "b" (store (snd (Example.Prefixed "b" Example.plain)))) = true.
Proof.
  split; [vm_compute; reflexivity |].
  destruct (registration_hides_primary Example.get_len Example.has_yes Example.set_no
              Example.erase_no Example.plain "a" eq_refl) as ((Hprim & _) & _).
  destruct (registration_hides_primary Example.get_len Example.has_yes Example.set_no
              Example.erase_no Example.plain "b" eq_refl)
    as (_ & (_ & Hvalue & _ & Hbacked & _)).
  split; [exact Hprim |]. split; [exact Hvalue | exact Hbacked].
Defined.

Lemma Set_Function_takes_effect_witness :
  (GetEntry "events: foo" (store Example.events)
   = Some ("events: ", {| value := 0; provider := Some "events: "; fullKey := "" |}) /\
   providers (store Example.events) !! "events: "
   = Some (DerivedProvider_new Example.get_len Example.has_yes Example.set_no
             Example.erase_no "events: " true)) /\
  fst (Get "events: foo"
         (snd (SetGetFunction "events: " (fun _ w => (42, w)) Example.events))) = 42 /\
  fst (Has "events: foo"
         (snd (SetGetFunction "events: " (fun _ w => (42, w)) Example.events))) = true /\
  storage (store (snd (SetEraseFunction "events: " Example.erase_no Example.events)))
  = storage (store Example.events).
Proof.
  split; [vm_compute; auto |].
  destruct (Set_Function_takes_effect Example.events "events: " "events: foo" "events: "
              {| value := 0; provider := Some "events: "; fullKey := "" |}
              (DerivedProvider_new Example.get_len Example.has_yes Example.set_no
                 Example.erase_no "events: " true) 7
              (fun _ w => (42, w)) Example.set_no Example.has_yes Example.erase_no
              eq_refl eq_refl eq_refl)
    as ((_ & _ & _ & Hse) & _ & (HG & _) & _ & _ & _ & (HH & _)).
  split; [exact HG |]. split; [exact HH |]. rewrite Hse. reflexivity.
Defined.

Lemma PushOrPop_applies_queues_witness :
  NoDup (List.app (UI.stack ExamplePanels.queued) (omap id (UI.toPush ExamplePanels.queued))) /\
  UI.stack (UI.PushOrPop ExamplePanels.queued) = [1%nat] /\
  ~ 3%nat ∈ UI.stack (UI.PushOrPop ExamplePanels.queued).
Proof.
  assert (Hnd : NoDup (List.app (UI.stack ExamplePanels.queued)
                         (omap id (UI.toPush ExamplePanels.queued)))).
  { apply (bool_decide_unpack _). vm_compute. exact I. }
  split; [exact Hnd |].
  destruct (PushOrPop_applies_queues ExamplePanels.queued Hnd) as (Hst & Hin & _).
  split.
  - rewrite Hst. vm_compute. reflexivity.
  - intros H3. apply Hin in H3 as [_ Hn]. apply Hn. vm_compute.
    apply list_elem_of_In. right. left. reflexivity.
Defined.

Lemma PopThrough_pops_panel_and_above_witness :
  (NoDup (List.app (UI.stack ExamplePanels.three) (omap id (UI.toPush ExamplePanels.three))) /\
   UI.toPop ExamplePanels.three = []) /\
  UI.stack (UI.PushOrPop (UI.PopThrough (Some 2%nat) ExamplePanels.three))
  = [1%nat; 4%nat] /\
  UI.stack (UI.PushOrPop (UI.PopThrough None ExamplePanels.three)) = [4%nat].
Proof.
  assert (Hnd : NoDup (List.app (UI.stack ExamplePanels.three)
                         (omap id (UI.toPush ExamplePanels.three)))).
  { apply (bool_decide_unpack _). vm_compute. exact I. }
  split; [split; [exact Hnd | reflexivity] |]. split.
  - destruct (PopThrough_pops_panel_and_above ExamplePanels.three (Some 2%nat) Hnd eq_refl)
      as (Hfound & _).
    exact (Hfound [1%nat] 2%nat [3%nat] eq_refl eq_refl).
  - destruct (PopThrough_pops_panel_and_above ExamplePanels.three None Hnd eq_refl)
      as (_ & Hmissing).
    apply Hmissing. intros q _. discriminate.
Defined.

Lemma Push_is_deferred_witness :
  UI.Top (fst (UI.Push ExamplePanels.SetUI 5%nat ExamplePanels.queued [])) = Some 5%nat /\
  UI.IsTop (Some 5%nat) (fst (UI.Push ExamplePanels.SetUI 5%nat ExamplePanels.queued []))
  = false /\
  UI.toPop ExamplePanels.three = [] /\
  UI.IsTop (Some 5%nat) (fst (UI.Push ExamplePanels.SetUI 5%nat ExamplePanels.three []))
  = false /\
  UI.IsTop (Some 5%nat)
    (UI.PushOrPop (fst (UI.Push ExamplePanels.SetUI 5%nat ExamplePanels.three [])))
  = true.
Proof.
  destruct (Push_is_deferred ExamplePanels.SetUI ExamplePanels.queued 5%nat [])
    as (_ & _ & _ & _ & _ & _ & HTopq & HIsTopq & _).
  destruct (Push_is_deferred ExamplePanels.SetUI ExamplePanels.three 5%nat [])
    as (_ & _ & _ & _ & _ & _ & _ & HIsTop & _ & Hafter).
  split; [exact HTopq |]. split; [rewrite HIsTopq; reflexivity |].
  split; [reflexivity |]. split; [rewrite HIsTop; reflexivity |].
  destruct (Hafter eq_refl) as (HIsTop' & _). exact HIsTop'.
Defined.

Lemma PushOrPop_keeps_Top_and_Root_witness :
  (UI.toPop ExamplePanels.three = [] /\ Forall is_Some (UI.toPush ExamplePanels.three)) /\
  UI.Top (UI.PushOrPop ExamplePanels.three) = Some 4%nat /\
  UI.Root (UI.PushOrPop ExamplePanels.three) = Some 1%nat.
Proof.
  assert (Hall : Forall is_Some (UI.toPush ExamplePanels.three)).
  { repeat constructor. exists 4%nat. reflexivity. }
  split; [split; [reflexivity | exact Hall] |].
  destruct (PushOrPop_keeps_Top_and_Root ExamplePanels.three eq_refl Hall)
    as (HTop & HRoot & _).
  rewrite HTop, HRoot. split; reflexivity.
Defined.

Lemma DrawAll_from_topmost_full_screen_witness :
  UI.stack ExamplePanels.three = List.app [1%nat] [2%nat; 3%nat] /\
  UI.DrawAll ExamplePanels.ClearZones ExamplePanels.IsFullScreen ExamplePanels.Draw
    ExamplePanels.three []
  = [("Draw", 3%nat); ("Draw", 2%nat);
     ("ClearZones", 3%nat); ("ClearZones", 2%nat); ("ClearZones", 1%nat)].
Proof.
  split; [reflexivity |].
  rewrite (DrawAll_from_topmost_full_screen ExamplePanels.ClearZones
             ExamplePanels.IsFullScreen ExamplePanels.Draw ExamplePanels.three []
             [1%nat] [2%nat; 3%nat] eq_refl).
  - reflexivity.
  - intros x [<- | []]. reflexivity.
  - right. exists 2%nat. split; reflexivity.
Defined.

Lemma AllZones_down_to_trapping_panel_witness :
  UI.stack ExamplePanels.three = List.app [1%nat] [2%nat; 3%nat] /\
  UI.AllZones ExamplePanels.zones ExamplePanels.TrapAllEvents ExamplePanels.three []
  = [30%nat; 31%nat; 20%nat; 21%nat].
Proof.
  split; [reflexivity |].
  rewrite (AllZones_down_to_trapping_panel ExamplePanels.zones ExamplePanels.TrapAllEvents
             ExamplePanels.three [] [1%nat] [2%nat; 3%nat] eq_refl).
  - reflexivity.
  - intros x [<- | []]. reflexivity.
  - right. exists 2%nat. split; reflexivity.
Defined.

Lemma cursor_zone_steps_witness :
  (UI.AllZones ExamplePanels.zones ExamplePanels.TrapAllEvents ExamplePanels.three []
   = List.app [30%nat; 31%nat; 20%nat] (21%nat :: []) /\
   ExamplePanels.Contains 21%nat 21%nat = true) /\
  UI.CursorToNextZone ExamplePanels.zones ExamplePanels.TrapAllEvents
    ExamplePanels.Contains 21%nat ExamplePanels.three [] = None /\
  UI.CursorToPrevZone ExamplePanels.zones ExamplePanels.TrapAllEvents
    ExamplePanels.Contains 21%nat ExamplePanels.three [] = Some 20%nat.
Proof.
  split; [split; reflexivity |].
  destruct (cursor_zone_steps ExamplePanels.zones ExamplePanels.TrapAllEvents
              ExamplePanels.Contains ExamplePanels.three [] 21%nat
              [30%nat; 31%nat; 20%nat] [] 21%nat eq_refl eq_refl) as (Hnext & Hprev).
  split.
  - apply Hnext. intros x [<- | [<- | [<- | []]]]; reflexivity.
  - apply Hprev. intros x [].
Defined.

Lemma cursor_outside_goes_to_first_zone_witness :
  (forall x,
     In x (UI.AllZones ExamplePanels.zones ExamplePanels.TrapAllEvents
             ExamplePanels.three []) ->
     ExamplePanels.Contains x 7%nat = false) /\
  UI.CursorToPrevZone ExamplePanels.zones ExamplePanels.TrapAllEvents
    ExamplePanels.Contains 7%nat ExamplePanels.three [] = Some 30%nat.
Proof.
  assert (Hout : forall x,
             In x (UI.AllZones ExamplePanels.zones ExamplePanels.TrapAllEvents
                     ExamplePanels.three []) ->
             ExamplePanels.Contains x 7%nat = false).
  { intros x [<- | [<- | [<- | [<- | []]]]]; reflexivity. }
  split; [exact Hout |].
  destruct (cursor_outside_goes_to_first_zone ExamplePanels.zones
              ExamplePanels.TrapAllEvents ExamplePanels.Contains ExamplePanels.three []
              7%nat Hout) as (_ & Hprev).
  rewrite Hprev. reflexivity.
Defined.

(** * Resolution under a prefix provider *)

Section PrefixResolution.
Context {W : Type}.
Implicit Types (st : ConditionsStore W) (s : State W) (nm k p : string)
  (e : ConditionEntry).

(** Under a registered prefix provider [p], a name that starts with [p]
    resolves to an entry of [p] exactly when its predecessor in the
    index is an entry of [p]. *)
Lemma routed_floor nm st p :
  registered p true st = true -> StdString.starts_with p nm = true ->
  routed_to p (GetEntry nm st) = routed_to p (StdMap.floor nm (storage st)).
Proof.
  intros Hreg Hst.
  destruct (registered_provider _ _ _ Hreg) as (_ & P & _ & _ & HP & Hname & Hflag).
  rewrite GetEntry_floor.
  destruct (StdMap.floor nm (storage st)) as [[k e] |]; [| reflexivity].
  destruct (String.eqb nm k); [reflexivity |].
  unfold routed_to at 2.
  destruct (provider e) as [q |] eqn:Hq.
  - destruct (decide (q = p)) as [-> | Hne].
    + unfold provider_at. rewrite HP. simpl. rewrite Hflag, Hname, Hst. simpl.
      rewrite Hq. reflexivity.
    + rewrite bool_decide_eq_false_2 by congruence.
      destruct (_ && _); simpl; [| reflexivity].
      rewrite Hq. apply bool_decide_eq_false_2. congruence.
  - rewrite bool_decide_eq_false_2 by congruence. reflexivity.
Qed.

Lemma routed_entry nm st p :
  routed_to p (GetEntry nm st) = true ->
  exists k e, GetEntry nm st = Some (k, e) /\ provider e = Some p.
Proof.
  destruct (GetEntry nm st) as [[k e] |]; [| discriminate].
  simpl. intros H. apply bool_decide_eq_true in H. eauto.
Qed.

Lemma unshadowed_floor nm st p :
  StdMap.sorted (storage st) = true ->
  registered p true st = true ->
  StdString.starts_with p nm = true ->
  StdMap.find nm (storage st) = None ->
  unshadowed p nm st = true ->
  routed_to p (StdMap.floor nm (storage st)) = true.
Proof.
  intros Hs Hreg Hst Hfind Hun. rewrite <- (routed_floor _ _ _ Hreg Hst).
  destruct (GetEntry_routed _ _ _ Hs Hreg Hst Hfind Hun) as (k & e & -> & Hp).
  simpl. apply bool_decide_eq_true. exact Hp.
Qed.

(** C1 (amended): with a prefix provider registered at [p] and a name
    that starts with [p], resolution returns the entry at exactly that
    name when there is one, whatever else the index holds.  In every
    case the name resolves to an entry of that provider exactly when the
    index entry with the greatest key not above the name is an entry of
    that provider, which is so in particular when the name is not in
    the index and every index entry whose key lies strictly between [p]
    and the name is routed to that provider; [Get] and [Has] then call
    its callbacks with the full queried name. *)
Theorem C1_prefix_resolution (s : State W) (p nm : string) :
  StdMap.sorted (storage (store s)) = true ->
  registered p true (store s) = true ->
  StdString.starts_with p nm = true ->
  (forall e, StdMap.find nm (storage (store s)) = Some e ->
     GetEntry nm (store s) = Some (nm, e)) /\
  routed_to p (GetEntry nm (store s))
  = routed_to p (StdMap.floor nm (storage (store s))) /\
  (StdMap.find nm (storage (store s)) = None -> unshadowed p nm (store s) = true ->
   routed_to p (StdMap.floor nm (storage (store s))) = true) /\
  exists P, providers (store s) !! p = Some P /\ name P = p /\
    isPrefixProvider P = true /\
    (routed_to p (StdMap.floor nm (storage (store s))) = true ->
     GetEntry nm (store s) = StdMap.floor nm (storage (store s)) /\
     Get nm s = call (getFunction P nm) (tick s) /\
     Has nm s = call (hasFunction P nm) (tick s)).
Proof.
  intros Hs Hreg Hst.
  split; [intros e Hfind; apply GetEntry_exact; assumption |].
  split; [apply routed_floor; assumption |].
  split; [intros Hfind Hun; apply unshadowed_floor; assumption |].
  destruct (registered_provider _ _ _ Hreg) as (_ & P & _ & _ & HP & Hname & Hflag).
  exists P. repeat (split; [assumption |]). intros Hfl.
  pose proof Hfl as Hr. rewrite <- (routed_floor _ _ _ Hreg Hst) in Hr.
  destruct (routed_entry _ _ _ Hr) as (k & e & HG & Hp).
  split; [| split].
  - rewrite GetEntry_floor in HG |- *.
    destruct (StdMap.floor nm (storage (store s))) as [[k' e'] |]; [| discriminate].
    destruct (String.eqb nm k'); [reflexivity |].
    destruct (provider e'); [| discriminate].
    destruct (_ && _); [reflexivity | discriminate].
  - rewrite (Get_derived _ _ _ _ _ HG Hp). unfold provider_at. rewrite HP. reflexivity.
  - rewrite (Has_derived _ _ _ _ _ HG Hp). unfold provider_at. rewrite HP. reflexivity.
Qed.

End PrefixResolution.

(** * A named provider registered under a prefix provider *)

Section FloorAfterRegistration.
Context {V : Type} (dflt : V).
Implicit Types (m r : StdMap.t V) (k key : string) (v : V).

Lemma at_key_present key f m v :
  StdMap.find key m = Some v -> StdMap.at_key dflt key f m = StdMap.modify key f m.
Proof.
  induction m as [| [k0 v0] m IH]; simpl; [discriminate |].
  destruct (StdString.compare key k0) eqn:Hc; [| discriminate |].
  - apply (proj1 (compare_Eq key k0)) in Hc. subst k0.
    rewrite String.eqb_refl. reflexivity.
  - intros Hfind. destruct (String.eqb_spec key k0) as [-> | _].
    + rewrite compare_refl in Hc. discriminate.
    + rewrite (IH Hfind). reflexivity.
Qed.

(** The predecessor of a name after [f(m[k])]: the node at [k] when [k]
    lies between the old predecessor and the name, the old predecessor
    otherwise. *)
Lemma floor_at_key key k f m :
  StdMap.sorted m = true ->
  StdMap.floor key (StdMap.at_key dflt k f m)
  = if StdString.less key k then StdMap.floor key m
    else match StdMap.floor key m with
         | Some (x, vx) =>
             if StdString.less k x then Some (x, vx)
             else Some (k, f (default dflt (StdMap.find k m)))
         | None => Some (k, f (default dflt (StdMap.find k m)))
         end.
Proof.
  intros Hs. destruct (StdMap.find k m) as [vk |] eqn:Hfind; simpl.
  - rewrite (at_key_present _ _ _ _ Hfind), (floor_modify _ _ _ _ Hs).
    pose proof (proj1 (find_In _ _ _ Hs) Hfind) as Hin.
    destruct (StdString.less key k) eqn:Hkey.
    + destruct (StdMap.floor key m) as [[x vx] |] eqn:Hf; [| reflexivity]. simpl.
      destruct (String.eqb_spec k x) as [<- | _]; [| reflexivity].
      apply floor_In in Hf as [_ Hle]. congruence.
    + destruct (floor_from key m k vk Hs Hin Hkey) as (x & vx & Hf & Hxk).
      rewrite Hf. simpl. destruct (String.eqb_spec k x) as [<- | Hne].
      * rewrite less_irrefl.
        apply floor_In in Hf as [Hinx _]. apply (find_In _ _ _ Hs) in Hinx.
        congruence.
      * destruct (le_cases _ _ Hxk) as [-> | Hlt]; [contradiction |].
        rewrite Hlt. reflexivity.
  - rewrite (floor_at_key_absent _ _ _ _ _ Hs Hfind).
    destruct (StdString.less key k) eqn:Hkey; [reflexivity |].
    destruct (StdMap.floor key m) as [[x vx] |] eqn:Hf; [| reflexivity].
    apply floor_In in Hf as [Hinx _].
    assert (Hne : x <> k).
    { intros ->. apply (find_In _ _ _ Hs) in Hinx. congruence. }
    destruct (StdString.less x k) eqn:Hxk.
    + rewrite (less_asym _ _ Hxk). reflexivity.
    + destruct (le_cases _ _ Hxk) as [-> | Hlt]; [contradiction |].
      rewrite Hlt. reflexivity.
Qed.

End FloorAfterRegistration.

Section NamedUnderPrefix.
Context {W : Type}.
Variable getFunction0 : string -> W -> Z * W.
Variable hasFunction0 : string -> W -> bool * W.
Variable setFunction0 : string -> Z -> W -> bool * W.
Variable eraseFunction0 : string -> W -> bool * W.
Implicit Types (st : ConditionsStore W) (s : State W) (nm k p n : string)
  (e : ConditionEntry).

Local Abbreviation Named :=
  (GetProviderNamed getFunction0 hasFunction0 setFunction0 eraseFunction0).
Local Abbreviation new_provider :=
  (DerivedProvider_new getFunction0 hasFunction0 setFunction0 eraseFunction0).

(** C3 (amended): after [GetProviderNamed(n)], [Get] and [Has] of [n]
    go to the provider registered at [n], called with [n]; that provider
    is the exact-name provider the call creates, unless the registry held
    a provider under [n] already.  With a prefix provider registered at
    [p], a key that starts with [p] goes to the prefix provider exactly
    when the index entry with the greatest key not above it is an entry
    of the prefix provider.  The registration changes that entry at [n]
    only: for a key before [n] it is what it was, for a key from [n] on
    it is what it was when that lies after [n], and the entry at [n]
    otherwise.  So a key before [n] that is not in the index, with every
    index entry strictly between [p] and the key routed to the prefix
    provider, still goes to the prefix provider. *)
Theorem C3_named_provider_precedence (s : State W) (p n : string) :
  StdMap.sorted (storage (store s)) = true ->
  registered p true (store s) = true ->
  StdString.starts_with p n = true ->
  let s1 := snd (Named n s) in
  let Pn := default (new_provider n false) (providers (store s) !! n) in
  let en := set_provider (Some n)
              (default ConditionEntry0 (StdMap.find n (storage (store s)))) in
  (GetEntry n (store s1) = Some (n, en) /\
   providers (store s1) !! n = Some Pn /\
   (providers (store s) !! n = None ->
    Pn = new_provider n false /\ isPrefixProvider Pn = false /\ name Pn = n) /\
   Get n s1 = call (getFunction Pn n) (tick s1) /\
   Has n s1 = call (hasFunction Pn n) (tick s1)) /\
  (forall k,
     StdMap.floor k (storage (store s1))
     = if StdString.less k n then StdMap.floor k (storage (store s))
       else match StdMap.floor k (storage (store s)) with
            | Some (k0, e0) => if StdString.less n k0 then Some (k0, e0) else Some (n, en)
            | None => Some (n, en)
            end) /\
  exists P, providers (store s) !! p = Some P /\ providers (store s1) !! p = Some P /\
    name P = p /\ isPrefixProvider P = true /\
    forall k, StdString.starts_with p k = true ->
      routed_to p (GetEntry k (store s1))
      = routed_to p (StdMap.floor k (storage (store s1))) /\
      (routed_to p (StdMap.floor k (storage (store s1))) = true ->
       Get k s1 = call (getFunction P k) (tick s1) /\
       Has k s1 = call (hasFunction P k) (tick s1)) /\
      (StdString.less k n = true ->
       StdMap.find k (storage (store s)) = None ->
       unshadowed p k (store s) = true ->
       routed_to p (GetEntry k (store s1)) = true).
Proof.
  intros Hs Hreg Hst s1 Pn en.
  assert (Hstore : storage (store s1)
                   = StdMap.at_key ConditionEntry0 n (set_provider (Some n))
                       (storage (store s))).
  { subst s1. run. reflexivity. }
  assert (Hs1 : StdMap.sorted (storage (store s1)) = true).
  { rewrite Hstore. apply sorted_at_key. exact Hs. }
  assert (Hfloor : forall k,
             StdMap.floor k (storage (store s1))
             = if StdString.less k n then StdMap.floor k (storage (store s))
               else match StdMap.floor k (storage (store s)) with
                    | Some (k0, e0) =>
                        if StdString.less n k0 then Some (k0, e0) else Some (n, en)
                    | None => Some (n, en)
                    end).
  { intros k. rewrite Hstore. apply floor_at_key. exact Hs. }
  split; [| split; [exact Hfloor |]].
  - assert (Hfind : StdMap.find n (storage (store s1)) = Some en).
    { rewrite Hstore. apply find_at_key_same. }
    pose proof (GetEntry_exact _ _ _ Hs1 Hfind) as HG.
    assert (HP : providers (store s1) !! n = Some Pn).
    { subst s1. run. apply emplace_lookup_same. }
    split; [exact HG |]. split; [exact HP |]. split.
    + intros Hfree. subst Pn. rewrite Hfree. simpl. auto.
    + split.
      * rewrite (Get_derived _ _ _ _ n HG eq_refl). unfold provider_at. rewrite HP.
        reflexivity.
      * rewrite (Has_derived _ _ _ _ n HG eq_refl). unfold provider_at. rewrite HP.
        reflexivity.
  - pose proof (registered_GetProviderNamed getFunction0 hasFunction0 setFunction0
                  eraseFunction0 _ _ n s Hreg) as Hreg1.
    fold s1 in Hreg1.
    destruct (registered_provider _ _ _ Hreg) as (_ & P & _ & _ & HP & Hname & Hflag).
    assert (HP1 : providers (store s1) !! p = Some P).
    { subst s1. run. apply emplace_lookup. exact HP. }
    exists P. repeat (split; [assumption |]). intros k Hk.
    pose proof (routed_floor k _ _ Hreg1 Hk) as Hrf.
    split; [exact Hrf |]. split.
    + intros Hfl. rewrite <- Hrf in Hfl.
      destruct (routed_entry _ _ _ Hfl) as (k' & e' & HG & Hp).
      split.
      * rewrite (Get_derived _ _ _ _ _ HG Hp). unfold provider_at. rewrite HP1.
        reflexivity.
      * rewrite (Has_derived _ _ _ _ _ HG Hp). unfold provider_at. rewrite HP1.
        reflexivity.
    + intros Hlt Hfind Hun. rewrite Hrf, Hfloor, Hlt.
      apply unshadowed_floor; assumption.
Qed.

End NamedUnderPrefix.

(** * C1 and C3 at concrete stores *)

Lemma C1_witness :
  (StdMap.sorted (storage (store Layered.abc)) = true /\
   registered "a" true (store Layered.abc) = true /\
   StdString.starts_with "a" "abcd" = true) /\
  unshadowed "a" "abcd" (store Layered.abc) = false /\
  routed_to "a" (GetEntry "abcd" (store Layered.abc)) = true /\
  fst (Get "abcd" Layered.abc) = 4 /\
  world (snd (Get "abcd" Layered.abc)) = [("get", "abcd")] /\
  (unshadowed "a" "abc" (store Layered.set_abc) = false /\
   GetEntry "abc" (store Layered.set_abc)
   = Some ("abc", {| value := 3; provider := None; fullKey := "" |})).
Proof.
  split; [vm_compute; auto |]. split; [vm_compute; reflexivity |].
  destruct (C1_prefix_resolution Layered.abc "a" "abcd" eq_refl eq_refl eq_refl)
    as (_ & Hiff & _ & P & HP & _ & _ & Hcall).
  assert (Hfl : routed_to "a" (StdMap.floor "abcd" (storage (store Layered.abc))) = true)
    by (vm_compute; reflexivity).
  destruct (Hcall Hfl) as (_ & HGet & _).
  split; [rewrite Hiff; exact Hfl |].
  vm_compute in HP. injection HP as <-.
  split; [rewrite HGet; reflexivity |]. split; [rewrite HGet; reflexivity |].
  split; [vm_compute; reflexivity |].
  destruct (C1_prefix_resolution Layered.set_abc "a" "abc" eq_refl eq_refl eq_refl)
    as (Hexact & _).
  apply Hexact. vm_compute. reflexivity.
Defined.

Lemma C3_witness :
  (StdMap.sorted (storage (store Layered.events)) = true /\
   registered "events: " true (store Layered.events) = true /\
   StdString.starts_with "events: " "events: won" = true) /\
  let s1 := snd (Example.Named "events: won" Layered.events) in
  (exists P, providers (store s1) !! "events: won" = Some P /\
             isPrefixProvider P = false /\ name P = "events: won" /\
             Get "events: won" s1 = call (getFunction P "events: won") (tick s1)) /\
  unshadowed "events: " "events: xy" (store s1) = false /\
  routed_to "events: " (GetEntry "events: xy" (store s1)) = true /\
  fst (Get "events: xy" s1) = 10 /\
  routed_to "events: " (GetEntry "events: lost" (store s1)) = true /\
  routed_to "events: " (GetEntry "events: wonder" (store s1)) = false.
Proof.
  split; [vm_compute; auto |]. cbv zeta.
  destruct (C3_named_provider_precedence Example.get_len Example.has_yes Example.set_no Example.erase_no Layered.events "events: " "events: won" eq_refl eq_refl eq_refl)
    as ((_ & HPn & Hnew & HGetn & _) & _ & P & HP & _ & _ & _ & Hk).
  assert (Hfree : providers (store Layered.events) !! "events: won" = None)
    by (vm_compute; reflexivity).
  destruct (Hnew Hfree) as (_ & Hflag & Hname).
  split.
  { eexists. split; [exact HPn |]. split; [exact Hflag |]. split; [exact Hname |].
    exact HGetn. }
  split; [vm_compute; reflexivity |].
  destruct (Hk "events: xy" eq_refl) as (Hxy & Hcall & _).
  assert (Hfl : routed_to "events: "
                  (StdMap.floor "events: xy"
                     (storage (store (snd (Example.Named "events: won" Layered.events)))))
                = true) by (vm_compute; reflexivity).
  split; [unfold Example.Named; rewrite Hxy; exact Hfl |].
  destruct (Hcall Hfl) as (HGet & _).
  vm_compute in HP. injection HP as <-.
  split; [unfold Example.Named; rewrite HGet; reflexivity |].
  destruct (Hk "events: lost" eq_refl) as (_ & _ & Hlost).
  split; [exact (Hlost eq_refl eq_refl eq_refl) |].
  destruct (Hk "events: wonder" eq_refl) as (Hwonder & _).
  unfold Example.Named. rewrite Hwonder. vm_compute. reflexivity.
Defined.
